(** * flush-tree: bottom-up flushing of a flat file list into directories

    Shallow embedding of [src/importer/flush-tree.js].

    - A JavaScript object used as a map is an association list in property
      creation order ([obj]): assigning an existing key keeps its position,
      assigning a new key appends it.  The engine enumerates names that are
      array indices first; that reordering is not modelled.
    - A plain object inherits the properties of [Object.prototype]
      ([inherited]).  The test [!tmpTree[k]] of [createTree] finds them, and
      an assignment to [__proto__] creates no property.  [insert] gives the
      own properties of the plain objects of the tree; [strays] tells when
      the walk of an entry leaves these objects, onto an inherited object or
      onto a content id stored earlier, where the remaining assignments land
      outside the tree or raise a TypeError.
    - A content id is an object: line 90 calls its method
      [toBaseEncodedString], and it is represented by the string this method
      returns, the key under which its size is kept.  Whether the object is
      a Buffer ([isBuffer]), which own enumerable properties it has when it
      is not ([fields]) and what the constructor of the CID class makes of a
      value ([newCID]) belong to classes that are not part of this file;
      they are parameters of the development.
    - [isLeaf] holds of a Buffer and of no other object, so [traverse]
      walks into a content id that is not a Buffer as it walks into a plain
      object of the tree ([walked]).
    - [toPathComponents], [DAGNode.create] and [persist] are collaborators
      that are not part of this file; they are parameters of the development.
    - [async/mapValues] starts every child of a directory, joins them, and
      calls its final callback once: with the first error, or with the object
      of results filled in completion order.  Collaborators complete
      asynchronously; which pending call completes next is decided by a
      schedule, over which the theorems quantify.
    - [new CID(...)] of line 130 can raise an exception.  Raised while
      [flushTree] descends the tree it reaches the caller of [flushTree];
      raised in the completion of a collaborator it reaches that collaborator.
      Either way the callback is not called, and the run is followed no
      further ([thrown]). *)

From Stdlib Require Import List String Ascii ZArith Lia Bool Arith.
Import ListNotations.
Open Scope string_scope.

Set Implicit Arguments.
Set Warnings "-register-all".

(** ** JavaScript objects as ordered maps *)

Module Obj.

Definition obj (V : Type) : Type := list (string * V).

Fixpoint get {V} (k : string) (o : obj V) : option V :=
  match o with
  | [] => None
  | (k', v) :: o' => if String.eqb k k' then Some v else get k o'
  end.

(** [o[k] = v] *)
Fixpoint set {V} (k : string) (v : V) (o : obj V) : obj V :=
  match o with
  | [] => [(k, v)]
  | (k', v') :: o' =>
      if String.eqb k k' then (k', v) :: o' else (k', v') :: set k v o'
  end.

Definition keys {V} (o : obj V) : list string := map fst o.

Definition has {V} (k : string) (o : obj V) : bool :=
  match get k o with Some _ => true | None => false end.

End Obj.
Import Obj.

(** ** Data model *)

Definition Cid := string.

Record File := { path : string; size : Z; cid : Cid }.

(** A value of the file tree: a nested plain object ([Dir]), or a value that
    is none ([Leaf]): a content id and, inside a content id that is walked
    into, the value of one of its properties. *)
Inductive node :=
| Leaf (c : Cid)
| Dir (entries : obj node).

Definition Error := string.

Record DAGLink := { name : string; lsize : option Z; multihash : Cid }.

(** What [source.push] receives. *)
Inductive SinkItem :=
| SinkError (message : Error)
| SinkRecord (rpath : string) (rsize : Z) (rmultihash : Cid).

(** ** createTree *)

Section Builder.

Variable toPathComponents : string -> list string.

(** The names that every plain object inherits from [Object.prototype]. *)
Definition inherited (k : string) : bool :=
  existsb (String.eqb k)
    [ "constructor"; "__proto__"; "hasOwnProperty"; "isPrototypeOf";
      "propertyIsEnumerable"; "toLocaleString"; "toString"; "valueOf";
      "__defineGetter__"; "__defineSetter__"; "__lookupGetter__";
      "__lookupSetter__" ].

(** The body of the [for] loop of [createTree], for the components
    [splitted] from index [i] on, with [tmpTree] the plain object reached so
    far.  [!tmpTree[k]] holds when [k] is neither an own property (every
    stored value is an object) nor inherited.  At the last component the
    assignment makes [k] an own property, unless [k] is [__proto__].  Before
    the last component the walk goes on in [tmpTree[k]]: a plain object of
    the tree, or else an inherited object or a content id, and then the tree
    keeps its own properties. *)
Fixpoint insert (splitted : list string) (c : Cid) (tmpTree : obj node) : obj node :=
  match splitted with
  | [] => tmpTree
  | [k] => if String.eqb k "__proto__" then tmpTree else set k (Leaf c) tmpTree
  | k :: rest =>
      match get k tmpTree with
      | None =>
          if inherited k then tmpTree
          else set k (Dir (insert rest c [])) tmpTree
      | Some (Dir d) => set k (Dir (insert rest c d)) tmpTree
      | Some (Leaf _) => tmpTree
      end
  end.

(** The walk of [splitted] leaves the plain objects of the tree: it goes
    on in an inherited object or in a content id, or it assigns to
    [__proto__]. *)
Fixpoint strays (splitted : list string) (tmpTree : obj node) : bool :=
  match splitted with
  | [] => false
  | [k] => String.eqb k "__proto__"
  | k :: rest =>
      match get k tmpTree with
      | None => inherited k || strays rest []
      | Some (Dir d) => strays rest d
      | Some (Leaf _) => true
      end
  end.

Definition stripLeading (splitted : list string) : list string :=
  match splitted with
  | k :: rest => if String.eqb k "" then rest else splitted
  | [] => splitted
  end.

Definition addFile (fileTree : obj node) (file : File) : obj node :=
  let splitted := toPathComponents file.(path) in
  if Nat.eqb (List.length splitted) 1 then fileTree
  else insert (stripLeading splitted) file.(cid) fileTree.

Definition createTree (files : list File) : obj node :=
  fold_left addFile files [].

Definition straying (fileTree : obj node) (file : File) : bool :=
  let splitted := toPathComponents file.(path) in
  if Nat.eqb (List.length splitted) 1 then false
  else strays (stripLeading splitted) fileTree.

Fixpoint tameFrom (fileTree : obj node) (files : list File) : bool :=
  match files with
  | [] => true
  | file :: rest =>
      negb (straying fileTree file) && tameFrom (addFile fileTree file) rest
  end.

(** No entry of the list makes the walk of [createTree] leave the plain
    objects of the tree. *)
Definition tame (files : list File) : bool := tameFrom [] files.

(** The first component that remains once a leading empty one is dropped. *)
Definition topLevel (f : File) : option string :=
  hd_error (stripLeading (toPathComponents f.(path))).

Definition nested (f : File) : Prop :=
  (2 <= List.length (toPathComponents f.(path)))%nat.

(** ** createSizeIndex *)

Definition createSizeIndex (files : list File) : obj Z :=
  fold_left (fun sizeIndex file => set file.(cid) file.(size) sizeIndex) files [].

End Builder.

(** The size index that a sequence of assignments leaves behind. *)
Definition replay (ws : list (Cid * Z)) : obj Z :=
  fold_left (fun sizeIndex kv => set (fst kv) (snd kv) sizeIndex) ws [].

(** ** traverse

    The directories being flushed form a tree of tasks.  Every directory
    task is in one phase of the body of [traverse]. *)

Definition truthy (p : option string) : bool :=
  match p with
  | Some s => negb (String.eqb s "")
  | None => false
  end.

(** [path ? `${path}/${key}` : key] *)
Definition childPath (p : option string) (key : string) : option string :=
  match p with
  | Some s => if truthy p then Some (s ++ "/" ++ key) else Some key
  | None => Some key
  end.

Section Flusher.

(** The store behind [ipld], the directory objects, and the collaborators. *)
Variable W : Type.
Variable DAGNode : Type.
Variable DAGNode_create : list DAGLink -> Error + DAGNode.
Variable nodeSize : DAGNode -> Z.
Variable persist : DAGNode -> W -> (Error + (Cid * DAGNode)) * W.

(** The classes of the values that stand for content ids.  [isBuffer c]:
    the id is a Buffer.  [fields c]: the own enumerable properties of an id
    that is not a Buffer, in the order of enumeration; their values (the
    version number, the codec name and the multihash Buffer of an instance of
    the CID class) are no objects, or Buffers.  [newCID v] is
    [new CID(v).toBaseEncodedString()]: the string, or the exception the
    constructor raises. *)
Variable isBuffer : Cid -> bool.
Variable fields : Cid -> obj Cid.
Variable newCID : Cid -> Error + Cid.

(** [!(typeof value === 'object' && !Buffer.isBuffer(value))], of a value
    stored by [createTree]: a plain object or a content id, both objects. *)
Definition isLeaf (value : node) : bool :=
  match value with
  | Leaf c => isBuffer c
  | Dir _ => false
  end.

(** The tree as [traverse] walks it: a value for which [isLeaf] fails is
    handed to [traverse], whose [mapValues] visits its own properties, be
    it a plain object or a content id; the values of the properties of a
    content id pass [isLeaf].  In a walked tree the [Leaf]s are the values
    that [isLeaf] lets pass. *)
Fixpoint walked (value : node) : node :=
  match value with
  | Leaf c =>
      if isLeaf (Leaf c) then Leaf c
      else Dir (map (fun kv => (fst kv, Leaf (snd kv))) (fields c))
  | Dir tree => Dir (map (fun kv => (fst kv, walked (snd kv))) tree)
  end.

Definition walkedTree (tree : obj node) : obj node :=
  map (fun kv => (fst kv, walked (snd kv))) tree.

(** A value of a walked tree that [isLeaf] let pass. *)
Definition passes (value : node) : bool :=
  match value with Leaf _ => true | Dir _ => false end.

Inductive phase :=
| Waiting                         (* mapValues has children in flight *)
| Aborted                         (* mapValues reported an error; done(err) was called *)
| Creating (links : list DAGLink) (* DAGNode.create in flight *)
| Persisting (links : list DAGLink) (n : DAGNode) (* persist in flight *)
| Done (c : Cid)                  (* done(null, cid) was called *)
| Errored                         (* the waterfall failed; done(err) was called *)
| Thrown (e : Error).             (* new CID(...) raised an exception *)

Inductive task :=
| TLeaf (c : Cid)
| TDir (tpath : option string) (ph : phase) (newObj : obj Cid) (children : obj task).

(** Addresses name directories by the keys from the top-level object;
    they and the events are bookkeeping, the program does not compute them. *)
Definition address := list string.

Inductive event :=
| Invoke (at_ : address) (links : list DAGLink)
| Returned (at_ : address) (p : option string) (r : Error + (Cid * Z))
| CreateFailed (at_ : address) (e : Error).

Record globals := {
  ipld : W;
  sizeIndex : obj Z;
  source : list SinkItem;
  trace : list event
}.

Definition isResolved (t : task) : bool :=
  match t with
  | TLeaf _ => true
  | TDir _ (Done _) _ _ => true
  | TDir _ _ _ _ => false
  end.

(** [keys.map(...)] of lines 129-132: for every key of the object of
    results, [b58mh = new CID(tree[key]).toBaseEncodedString()] and
    [new DAGLink(key, sizeIndex[b58mh], tree[key])]; the first exception of
    the constructor ends the map. *)
Fixpoint makeLinks (sizeIndex : obj Z) (tree : obj Cid) : Error + list DAGLink :=
  match tree with
  | [] => inr []
  | (key, v) :: rest =>
      match newCID v with
      | inl e => inl e
      | inr b58mh =>
          match makeLinks sizeIndex rest with
          | inl e => inl e
          | inr links =>
              inr ({| name := key; lsize := get b58mh sizeIndex; multihash := v |} :: links)
          end
      end
  end.

(** The final callback of [mapValues] once every child has resolved, up to
    the call of [DAGNode.create]. *)
Definition linked (sizeIndex : obj Z) (tree : obj Cid) : phase :=
  match makeLinks sizeIndex tree with
  | inr links => Creating links
  | inl e => Thrown e
  end.

(** The results [mapValues] has collected when [traverse] returns: the
    leaves, in key order. *)
Definition leafResults (tree : obj node) : obj Cid :=
  fold_left (fun newObj kv =>
               match snd kv with
               | Leaf c => set (fst kv) c newObj
               | Dir _ => newObj
               end) tree [].

(** The synchronous part of [traverse], over a walked tree: every child is
    started; a directory whose children all passed [isLeaf] builds its links
    and calls [DAGNode.create] at once. *)
Fixpoint traverseNode (sizeIndex : obj Z) (path : option string) (n : node) : task :=
  match n with
  | Leaf c => TLeaf c
  | Dir tree =>
      let children :=
        map (fun kv => (fst kv, traverseNode sizeIndex (childPath path (fst kv)) (snd kv))) tree in
      let newObj := leafResults tree in
      if forallb (fun kv => passes (snd kv)) tree
      then TDir path (linked sizeIndex newObj) newObj children
      else TDir path Waiting newObj children
  end.

Definition traverse (tree : obj node) (sizeIndex : obj Z) (path : option string) : task :=
  traverseNode sizeIndex path (walked (Dir tree)).

(** The exception that the synchronous part of [traverse] raises, if any:
    the children are started in key order, and the first exception leaves
    [traverse]. *)
Fixpoint raised (t : task) : option Error :=
  match t with
  | TLeaf _ => None
  | TDir _ ph _ children =>
      fold_right (fun kv later =>
                    match raised (snd kv) with
                    | Some e => Some e
                    | None => later
                    end)
                 (match ph with Thrown e => Some e | _ => None end)
                 children
  end.

(** What a completion tells the enclosing [mapValues]; [Threw]: an
    exception passes through it. *)
Inductive signal :=
| Quiet
| Succeeded (c : Cid)
| Fail (e : Error)
| Threw (e : Error).

Definition push (x : SinkItem) (g : globals) : globals :=
  {| ipld := g.(ipld); sizeIndex := g.(sizeIndex); source := g.(source) ++ [x];
     trace := g.(trace) |}.

Definition log (ev : event) (g : globals) : globals :=
  {| ipld := g.(ipld); sizeIndex := g.(sizeIndex); source := g.(source);
     trace := g.(trace) ++ [ev] |}.

Definition record (c : Cid) (sz : Z) (g : globals) : globals :=
  {| ipld := g.(ipld); sizeIndex := set c sz g.(sizeIndex); source := g.(source);
     trace := g.(trace) |}.

Definition setIpld (w : W) (g : globals) : globals :=
  {| ipld := w; sizeIndex := g.(sizeIndex); source := g.(source);
     trace := g.(trace) |}.

Definition failedToStore : SinkItem := SinkError "failed to store dirNode".

(** The pending collaborator call of one directory completes. *)
Definition completeHere (here : address) (t : task) (g : globals)
  : option (task * globals * signal) :=
  match t with
  | TDir path (Creating links) newObj children =>
      match DAGNode_create links with
      | inl e =>
          Some (TDir path Errored newObj children,
                log (CreateFailed here e) (push failedToStore g), Fail e)
      | inr n =>
          Some (TDir path (Persisting links n) newObj children,
                log (Invoke here links) g, Quiet)
      end
  | TDir path (Persisting links n) newObj children =>
      match persist n g.(ipld) with
      | (inl e, w) =>
          Some (TDir path Errored newObj children,
                log (Returned here path (inl e)) (push failedToStore (setIpld w g)), Fail e)
      | (inr (c, n'), w) =>
          let g1 := record c (nodeSize n') (setIpld w g) in
          let g2 := if truthy path
                    then match path with
                         | Some s => push (SinkRecord s (nodeSize n') c) g1
                         | None => g1
                         end
                    else g1 in
          Some (TDir path (Done c) newObj children,
                log (Returned here path (inr (c, nodeSize n'))) g2, Succeeded c)
      end
  | _ => None
  end.

(** How the [mapValues] of a directory reacts when its child [k] reports:
    an error is passed on once; with the last result the final callback
    builds the links, which can raise an exception. *)
Definition join (path : option string) (ph : phase) (newObj : obj Cid)
    (children : obj task) (k : string) (g : globals) (sig : signal)
  : task * globals * signal :=
  match sig with
  | Quiet => (TDir path ph newObj children, g, Quiet)
  | Threw e => (TDir path ph newObj children, g, Threw e)
  | Fail e =>
      match ph with
      | Waiting => (TDir path Aborted newObj children, g, Fail e)
      | _ => (TDir path ph newObj children, g, Quiet)
      end
  | Succeeded c =>
      let newObj' := set k c newObj in
      match ph with
      | Waiting =>
          if forallb (fun kv => isResolved (snd kv)) children
          then match makeLinks g.(sizeIndex) newObj' with
               | inr links => (TDir path (Creating links) newObj' children, g, Quiet)
               | inl e => (TDir path (Thrown e) newObj' children, g, Threw e)
               end
          else (TDir path Waiting newObj' children, g, Quiet)
      | _ => (TDir path ph newObj' children, g, Quiet)
      end
  end.

Fixpoint complete (addr : address) (here : address) (t : task) (g : globals)
  : option (task * globals * signal) :=
  match addr with
  | [] => completeHere here t g
  | k :: addr' =>
      match t with
      | TLeaf _ => None
      | TDir path ph newObj children =>
          match get k children with
          | None => None
          | Some child =>
              match complete addr' (here ++ [k])%list child g with
              | None => None
              | Some (child', g', sig) =>
                  Some (join path ph newObj (set k child' children) k g' sig)
              end
          end
      end
  end.

(** ** module.exports *)

Inductive result :=
| NoRoot
| Failure (e : Error)
| Root (c : Cid).

(** What [flushTree] has come to: the directories in flight, the globals,
    what the callback was called with, and the exception that ended the
    run. *)
Record state := {
  tasks : option task;
  glob : globals;
  callback : option result;
  thrown : option Error
}.

Variable toPathComponents : string -> list string.

Definition idle (w : W) : globals :=
  {| ipld := w; sizeIndex := []; source := []; trace := [] |}.

Definition seeded (w : W) (files : list File) : globals :=
  {| ipld := w; sizeIndex := createSizeIndex files; source := []; trace := [] |}.

Definition flushTree (files : list File) (w : W) : state :=
  let fileTree := createTree toPathComponents files in
  if Nat.ltb 1 (List.length (keys fileTree)) then
    {| tasks := None; glob := idle w;
       callback := Some (Failure "detected more than one root"); thrown := None |}
  else if Nat.eqb (List.length (keys fileTree)) 0 then
    {| tasks := None; glob := idle w; callback := Some NoRoot; thrown := None |}
  else
    let g := seeded w files in
    let t := traverse fileTree g.(sizeIndex) None in
    match raised t with
    | Some e => {| tasks := None; glob := g; callback := None; thrown := Some e |}
    | None => {| tasks := Some t; glob := g; callback := None; thrown := None |}
    end.

(** The pending call of the directory at [addr] completes. *)
Definition step (addr : address) (st : state) : option state :=
  match st.(thrown), st.(tasks) with
  | None, Some t =>
      match complete addr [] t st.(glob) with
      | None => None
      | Some (t', g', sig) =>
          Some {| tasks := Some t'; glob := g';
                  callback := match sig with
                              | Succeeded c => Some (Root c)
                              | Fail e => Some (Failure e)
                              | _ => st.(callback)
                              end;
                  thrown := match sig with
                            | Threw e => Some e
                            | _ => None
                            end |}
      end
  | _, _ => None
  end.

(** A schedule names, turn by turn, the directory whose pending call
    completes; a name with nothing pending is skipped, and nothing
    completes after an exception. *)
Fixpoint run (schedule : list address) (st : state) : state :=
  match schedule with
  | [] => st
  | addr :: rest =>
      match step addr st with
      | Some st' => run rest st'
      | None => run rest st
      end
  end.

(** ** Vocabulary of the properties *)

Definition addr_eq_dec : forall a b : address, {a = b} + {a <> b} :=
  list_eq_dec string_dec.

Fixpoint taskAt (addr : address) (t : task) : option task :=
  match addr with
  | [] => Some t
  | k :: addr' =>
      match t with
      | TLeaf _ => None
      | TDir _ _ _ children =>
          match get k children with
          | Some child => taskAt addr' child
          | None => None
          end
      end
  end.

Fixpoint nodeAt (addr : address) (n : node) : option node :=
  match addr with
  | [] => Some n
  | k :: addr' =>
      match n with
      | Leaf _ => None
      | Dir tree =>
          match get k tree with
          | Some child => nodeAt addr' child
          | None => None
          end
      end
  end.

(** The directories of the built tree, by address. *)
Definition isDirAt (addr : address) (tree : obj node) : Prop :=
  exists entries, nodeAt addr (Dir tree) = Some (Dir entries).

(** The path prefix accumulated on the way to an address. *)
Definition pathTo (addr : address) : option string :=
  fold_left childPath addr None.

Definition eventAt (ev : event) : address :=
  match ev with
  | Invoke a _ => a
  | Returned a _ _ => a
  | CreateFailed a _ => a
  end.

Definition eventsAt (a : address) (tr : list event) : list event :=
  filter (fun ev => if addr_eq_dec (eventAt ev) a then true else false) tr.

Definition failureOf (ev : event) : option Error :=
  match ev with
  | Returned _ _ (inl e) => Some e
  | CreateFailed _ e => Some e
  | _ => None
  end.

Definition isFailure (ev : event) : bool :=
  match failureOf ev with Some _ => true | None => false end.

Fixpoint firstFailure (tr : list event) : option Error :=
  match tr with
  | [] => None
  | ev :: tr' =>
      match failureOf ev with
      | Some e => Some e
      | None => firstFailure tr'
      end
  end.

Definition isSinkError (x : SinkItem) : bool :=
  match x with SinkError _ => true | SinkRecord _ _ _ => false end.

(** What the completion behind an event pushes to the sink. *)
Definition emitted (ev : event) : list SinkItem :=
  match ev with
  | Invoke _ _ => []
  | CreateFailed _ _ => [failedToStore]
  | Returned _ _ (inl _) => [failedToStore]
  | Returned _ p (inr (c, sz)) =>
      match p with
      | Some s => if truthy p then [SinkRecord s sz c] else []
      | None => []
      end
  end.

(** The assignment to the size index that the completion behind an event
    makes: line 138, after a successful persist. *)
Definition assigned (ev : event) : list (Cid * Z) :=
  match ev with
  | Returned _ _ (inr (c, sz)) => [(c, sz)]
  | _ => []
  end.

(** The assignments to the size index up to a point of a run: the seeding
    of line 90, entry by entry, then those of the completions. *)
Definition assignments (files : list File) (tr : list event) : list (Cid * Z) :=
  (map (fun f => (f.(cid), f.(size))) files ++ flat_map assigned tr)%list.

(** [l] is the link of line 131 for the result [kv], built when the size
    index was [si]: its size is what the index held under the string that
    the CID constructor printed, and undefined when it held nothing. *)
Definition linkFor (si : obj Z) (kv : string * Cid) (l : DAGLink) : Prop :=
  l.(name) = fst kv /\ l.(multihash) = snd kv /\
  exists b58mh, newCID (snd kv) = inr b58mh /\ l.(lsize) = get b58mh si.

(** The links with which a directory is in flight are the links of the
    results it has collected, one per result and in their order. *)
Definition builtAt (ot : option task) : Prop :=
  match ot with
  | Some (TDir _ (Creating links) newObj _) =>
      exists si, Forall2 (linkFor si) newObj links
  | Some (TDir _ (Persisting links _) newObj _) =>
      exists si, Forall2 (linkFor si) newObj links
  | _ => True
  end.

(** A directory that has called [done] with an error. *)
Definition broken (t : task) : bool :=
  match t with
  | TDir _ Aborted _ _ => true
  | TDir _ Errored _ _ => true
  | _ => false
  end.

(** A directory and its children agree: past the join every child has
    resolved; before it no child has reported an error. *)
Definition agree (ph : phase) (children : obj task) : bool :=
  match ph with
  | Waiting => forallb (fun kv => negb (broken (snd kv))) children
  | Aborted => true
  | _ => forallb (fun kv => isResolved (snd kv)) children
  end.

Fixpoint coherent (t : task) : bool :=
  match t with
  | TLeaf _ => true
  | TDir _ ph _ children =>
      agree ph children && forallb (fun kv => coherent (snd kv)) children
  end.

(** The join of the children has succeeded. *)
Definition joined (t : task) : bool :=
  match t with
  | TDir _ Waiting _ _ => false
  | TDir _ Aborted _ _ => false
  | _ => true
  end.

(** The events of one directory that its phase accounts for. *)
Definition accountedPhase (a : address) (p : option string) (ph : phase)
    (evs : list event) : Prop :=
  match ph with
  | Persisting links _ => evs = [Invoke a links]
  | Done c => exists links sz, evs = [Invoke a links; Returned a p (inr (c, sz))]
  | Errored =>
      (exists e, evs = [CreateFailed a e]) \/
      (exists links e, evs = [Invoke a links; Returned a p (inl e)])
  | _ => evs = []
  end.

Definition accounted (a : address) (ot : option task) (evs : list event) : Prop :=
  match ot with
  | Some (TDir p ph _ _) => p = pathTo a /\ accountedPhase a p ph evs
  | _ => evs = []
  end.

(** Every directory accounts for its events of the trace. *)
Definition logged (t : task) (tr : list event) : Prop :=
  forall a, accounted a (taskAt a t) (eventsAt a tr).

(** What the caller has been told, read off the tasks and the trace. *)
Definition verdict (t : task) (tr : list event) : option result :=
  match firstFailure tr with
  | Some e => Some (Failure e)
  | None =>
      match t with
      | TDir _ (Done c) _ _ => Some (Root c)
      | _ => None
      end
  end.

(** Two tasks at one address that account for the same events. *)
Definition sameLog (ot ot' : option task) : Prop :=
  match ot, ot' with
  | None, None => True
  | Some (TLeaf _), Some (TLeaf _) => True
  | Some (TDir p ph _ _), Some (TDir p' ph' _ _) =>
      p = p' /\
      (ph = ph' \/
       match ph, ph' with
       | Waiting, Creating _ => True
       | Waiting, Aborted => True
       | Waiting, Thrown _ => True
       | _, _ => False
       end)
  | _, _ => False
  end.

Definition isDirTask (ot : option task) : Prop :=
  match ot with
  | Some (TDir _ _ _ _) => True
  | _ => False
  end.

(** Before a directory is handed to [persist], every directory below it
    has been handed to [persist] and has come back with a content id. *)
Definition postorder (tree : obj node) (tr : list event) : Prop :=
  forall pre a links post, tr = (pre ++ Invoke a links :: post)%list ->
  forall s, s <> [] -> isDirAt (a ++ s)%list tree ->
  exists links' c sz,
    eventsAt (a ++ s)%list pre =
    [Invoke (a ++ s)%list links';
     Returned (a ++ s)%list (pathTo (a ++ s)%list) (inr (c, sz))].

(** The invariant of a run over the file tree [tree]. *)
Definition sound (tree : obj node) (st : state) : Prop :=
  match st.(tasks) with
  | None => st.(glob).(trace) = [] /\ st.(glob).(source) = []
  | Some t =>
      coherent t = true /\
      logged t st.(glob).(trace) /\
      (forall a, isDirTask (taskAt a t) <-> isDirAt a tree) /\
      st.(glob).(source) = flat_map emitted st.(glob).(trace) /\
      (broken t = true <-> firstFailure st.(glob).(trace) <> None) /\
      st.(callback) = verdict t st.(glob).(trace) /\
      postorder tree st.(glob).(trace)
  end.

(** ** Scenario B of the specification

    Two files in one directory [foo]; the stages a run without failure
    passes through. *)

Definition scenarioBFiles (X Y : Cid) : list File :=
  [ {| path := "foo/bar.txt"; size := 10; cid := X |};
    {| path := "foo/baz.txt"; size := 20; cid := Y |} ].

Definition fooLinks (X Y : Cid) : list DAGLink :=
  [ {| name := "bar.txt"; lsize := Some 10%Z; multihash := X |};
    {| name := "baz.txt"; lsize := Some 20%Z; multihash := Y |} ].

Definition rootLinks (cfoo : Cid) (sfoo : Z) : list DAGLink :=
  [ {| name := "foo"; lsize := Some sfoo; multihash := cfoo |} ].

Definition fooTask (X Y : Cid) (ph : phase) : task :=
  TDir (Some "foo") ph [("bar.txt", X); ("baz.txt", Y)]
    [("bar.txt", TLeaf X); ("baz.txt", TLeaf Y)].

Definition rootTask (X Y : Cid) (ph : phase) (newObj : obj Cid) (fooPh : phase) : task :=
  TDir None ph newObj [("foo", fooTask X Y fooPh)].

Definition fooInvoked (X Y : Cid) : event := Invoke ["foo"] (fooLinks X Y).

Definition fooReturned (cfoo : Cid) (sfoo : Z) : event :=
  Returned ["foo"] (Some "foo") (inr (cfoo, sfoo)).

Inductive stageB (X Y : Cid) (st : state) : Prop :=
| FooCreating :
    st.(tasks) = Some (rootTask X Y Waiting [] (Creating (fooLinks X Y))) ->
    st.(glob).(trace) = [] -> st.(glob).(source) = [] ->
    st.(callback) = None -> stageB X Y st
| FooPersisting n :
    st.(tasks) = Some (rootTask X Y Waiting [] (Persisting (fooLinks X Y) n)) ->
    st.(glob).(trace) = [fooInvoked X Y] -> st.(glob).(source) = [] ->
    st.(callback) = None -> stageB X Y st
| RootCreating cfoo sfoo :
    st.(tasks) = Some (rootTask X Y (Creating (rootLinks cfoo sfoo))
                         [("foo", cfoo)] (Done cfoo)) ->
    st.(glob).(trace) = [fooInvoked X Y; fooReturned cfoo sfoo] ->
    st.(glob).(source) = [SinkRecord "foo" sfoo cfoo] ->
    st.(callback) = None -> stageB X Y st
| RootPersisting cfoo sfoo n :
    st.(tasks) = Some (rootTask X Y (Persisting (rootLinks cfoo sfoo) n)
                         [("foo", cfoo)] (Done cfoo)) ->
    st.(glob).(trace) = [fooInvoked X Y; fooReturned cfoo sfoo;
                         Invoke [] (rootLinks cfoo sfoo)] ->
    st.(glob).(source) = [SinkRecord "foo" sfoo cfoo] ->
    st.(callback) = None -> stageB X Y st
| RootDone cfoo sfoo c sroot :
    st.(tasks) = Some (rootTask X Y (Done c) [("foo", cfoo)] (Done cfoo)) ->
    st.(glob).(trace) = [fooInvoked X Y; fooReturned cfoo sfoo;
                         Invoke [] (rootLinks cfoo sfoo);
                         Returned [] None (inr (c, sroot))] ->
    st.(glob).(source) = [SinkRecord "foo" sfoo cfoo] ->
    st.(callback) = Some (Root c) -> stageB X Y st.

End Flusher.

(** Modelled from the spec: the Path Splitter ([utils/to-path-components],
    not part of this file) returns the ordered sequence of the
    [/]-separated components of a path; a leading empty component is
    stripped, and no component it returns is empty. *)
Fixpoint splitFrom (acc : string) (s : string) : list string :=
  match s with
  | EmptyString => if String.eqb acc "" then [] else [acc]
  | String a s' =>
      if Ascii.eqb a "/"%char
      then if String.eqb acc "" then splitFrom "" s' else acc :: splitFrom "" s'
      else splitFrom (acc ++ String a "") s'
  end.

Definition splitSlash (p : string) : list string := splitFrom "" p.

Arguments Waiting {DAGNode}.
Arguments Aborted {DAGNode}.
Arguments Creating {DAGNode} links.
Arguments Done {DAGNode} c.
Arguments Errored {DAGNode}.
Arguments Thrown {DAGNode} e.
Arguments TLeaf {DAGNode} c.
Arguments linked {DAGNode} newCID sizeIndex tree.
Arguments traverseNode {DAGNode} newCID sizeIndex path n.
Arguments traverse {DAGNode} isBuffer fields newCID tree sizeIndex path.
Arguments raised {DAGNode} t.
Arguments flushTree {W DAGNode} isBuffer fields newCID toPathComponents files w.
Arguments idle {W} w.
Arguments seeded {W} w files.
Arguments taskAt {DAGNode} addr t.
Arguments broken {DAGNode} t.
Arguments coherent {DAGNode} t.
Arguments isResolved {DAGNode} t.
Arguments accounted {DAGNode} a ot evs.
Arguments accountedPhase {DAGNode} a p ph evs.
Arguments joined {DAGNode} t.
Arguments logged {DAGNode} t tr.
Arguments verdict {DAGNode} t tr.
Arguments isDirTask {DAGNode} ot.
Arguments fooTask {DAGNode} X Y ph.
Arguments rootTask {DAGNode} X Y ph newObj fooPh.
Arguments stageB {W DAGNode} X Y st.
Arguments sound {W DAGNode} tree st.
Arguments sameLog {DAGNode} ot ot'.
Arguments agree {DAGNode} ph children.
Arguments builtAt {DAGNode} newCID ot.

(** ** Concrete collaborators, for evaluating the development

    Directory objects are their link lists; the store counts the objects it
    holds; a content id is derived from the links alone. *)

Module Demo.

Definition DAGNode := list DAGLink.

Definition create (links : list DAGLink) : Error + DAGNode := inr links.

Definition linkSize (l : DAGLink) : Z :=
  match l.(lsize) with Some z => z | None => 0 end.

Definition nodeSize (n : DAGNode) : Z :=
  fold_left (fun acc l => acc + linkSize l)%Z n 4%Z.

Definition cidOf (n : DAGNode) : Cid :=
  "dir(" ++ String.concat "," (map (fun l => l.(name) ++ ":" ++ l.(multihash)) n) ++ ")".

Definition persist (n : DAGNode) (w : nat) : (Error + (Cid * DAGNode)) * nat :=
  (inr (cidOf n, n), S w).

(** A store that refuses every directory object holding a link named [bad]. *)
Definition persistUnless (bad : string) (n : DAGNode) (w : nat)
  : (Error + (Cid * DAGNode)) * nat :=
  if existsb (fun l => String.eqb l.(name) bad) n
  then (inl "store failure", w)
  else persist n w.

(** Content ids that are instances of the CID class: objects with the
    properties [version], [codec] and [multihash], none of them a Buffer.
    The constructor of the class refuses a version number and a codec name
    given alone. *)
Definition noBuffer (c : Cid) : bool := false.

Definition cidFields (c : Cid) : obj Cid :=
  [("version", "1"); ("codec", "dag-pb"); ("multihash", "multihash(" ++ c ++ ")")].

Definition cidNew (v : Cid) : Error + Cid :=
  if String.eqb v "1" then inl "codec must be string"
  else if String.eqb v "dag-pb" then inl "invalid multibase"
  else inr v.

Definition flushCids (files : list File) : state nat DAGNode :=
  flushTree noBuffer cidFields cidNew splitSlash files 0%nat.

Definition goCids (schedule : list address) (st : state nat DAGNode)
  : state nat DAGNode :=
  run create nodeSize persist cidNew schedule st.

(** Content ids that are Buffers carrying the method [toBaseEncodedString]
    that line 90 calls, which prints them as the CID class does. *)
Definition allBuffers (c : Cid) : bool := true.

Definition noFields (c : Cid) : obj Cid := [].

Definition sameString (v : Cid) : Error + Cid := inr v.

Definition flush (files : list File) : state nat DAGNode :=
  flushTree allBuffers noFields sameString splitSlash files 0%nat.

Definition go (schedule : list address) (st : state nat DAGNode) : state nat DAGNode :=
  run create nodeSize persist sameString schedule st.

Definition goUnless (bad : string) (schedule : list address)
    (st : state nat DAGNode) : state nat DAGNode :=
  run create nodeSize (persistUnless bad) sameString schedule st.

(** Content ids that are Buffers whose own [toBaseEncodedString] prints them
    otherwise than the CID class does; the ids that [persist] returns are
    printed alike by both. *)
Definition reprinted (v : Cid) : Error + Cid :=
  if String.prefix "dir(" v then inr v else inr ("z" ++ v).

Definition flushReprinted (files : list File) : state nat DAGNode :=
  flushTree allBuffers noFields reprinted splitSlash files 0%nat.

Definition goReprinted (schedule : list address) (st : state nat DAGNode)
  : state nat DAGNode :=
  run create nodeSize persist reprinted schedule st.

Definition scenarioA : list File :=
  [ {| path := "a.txt"; size := 5; cid := "X" |} ].

Definition scenarioB : list File :=
  [ {| path := "foo/bar.txt"; size := 10; cid := "X" |};
    {| path := "foo/baz.txt"; size := 20; cid := "Y" |} ].

Definition scenarioC : list File :=
  [ {| path := "a/b/c.txt"; size := 1; cid := "X" |} ].

Definition siblings : list File :=
  [ {| path := "a/b/x.txt"; size := 1; cid := "X" |};
    {| path := "a/c/y.txt"; size := 2; cid := "Y" |} ].

(** Two entries whose first components differ, one of them a name that
    every plain object inherits. *)
Definition inheritedRoot : list File :=
  [ {| path := "constructor/x.txt"; size := 1; cid := "X" |};
    {| path := "b/y.txt"; size := 2; cid := "Y" |} ].

Definition single : list File :=
  [ {| path := "a/x.txt"; size := 1; cid := "X" |} ].

(** Two files of the same content, with different sizes on record. *)
Definition sameContent : list File :=
  [ {| path := "a/x.txt"; size := 1; cid := "X" |};
    {| path := "a/y.txt"; size := 2; cid := "X" |} ].

End Demo.

(** ** Vocabulary of the further properties *)

(** Every leaf of a value satisfies [P]. *)
Fixpoint allLeaves (P : Cid -> bool) (n : node) : bool :=
  match n with
  | Leaf c => P c
  | Dir entries => forallb (fun kv => allLeaves P (snd kv)) entries
  end.

(** Some entry of the list carries the content id [c]. *)
Definition carried (files : list File) (c : Cid) : bool :=
  existsb (fun f => String.eqb f.(cid) c) files.

Definition isInvoke (ev : event) : bool :=
  match ev with Invoke _ _ => true | _ => false end.

Definition isReturn (ev : event) : bool :=
  match ev with Returned _ _ _ => true | _ => false end.

(** Every link has a size. *)
Definition sizedLinks (links : list DAGLink) : bool :=
  forallb (fun l => match l.(lsize) with Some _ => true | None => false end) links.

Definition eventSized (ev : event) : bool :=
  match ev with Invoke _ links => sizedLinks links | _ => true end.

(** The results a directory has collected are ids the size index knows, and
    the links it has built have sizes. *)
Definition sizedTask {DAGNode : Type} (si : obj Z) (ot : option (task DAGNode)) : Prop :=
  match ot with
  | Some (TDir _ ph newObj _) =>
      forallb (fun kc => has (snd kc) si) newObj = true /\
      match ph with
      | Creating links => sizedLinks links = true
      | Persisting links _ => sizedLinks links = true
      | _ => True
      end
  | _ => True
  end.

(** No name occurs twice. *)
Fixpoint distinct (l : list string) : bool :=
  match l with
  | [] => true
  | k :: l' => negb (existsb (String.eqb k) l') && distinct l'
  end.

(** No object of a value has two properties of one name. *)
Fixpoint uniqueKeys (n : node) : bool :=
  match n with
  | Leaf _ => true
  | Dir entries =>
      distinct (keys entries) && forallb (fun kv => uniqueKeys (snd kv)) entries
  end.

(** No object of a value is empty. *)
Fixpoint stocked (n : node) : bool :=
  match n with
  | Leaf _ => true
  | Dir entries =>
      negb (Nat.eqb (List.length entries) 0) &&
      forallb (fun kv => stocked (snd kv)) entries
  end.

(** A content id that [traverse] does not get past: it is no Buffer, and
    the CID constructor refuses the value of one of its own properties. *)
Definition refused (isBuffer : Cid -> bool) (fields : Cid -> obj Cid)
    (newCID : Cid -> Error + Cid) (c : Cid) : bool :=
  negb (isBuffer c) && distinct (keys (fields c)) &&
  existsb (fun kv => match newCID (snd kv) with inl _ => true | inr _ => false end)
    (fields c).

(** The directories of a value, itself included. *)
Fixpoint dirCount (n : node) : nat :=
  match n with
  | Leaf _ => 0
  | Dir entries => S (list_sum (map (fun kv => dirCount (snd kv)) entries))
  end.

(** The collaborator calls a directory can still complete. *)
Definition weight {DAGNode : Type} (ph : phase DAGNode) : nat :=
  match ph with
  | Waiting => 2
  | Aborted => 2
  | Creating _ => 2
  | Persisting _ _ => 1
  | Done _ => 0
  | Errored => 0
  | Thrown _ => 0
  end.

Fixpoint remaining {DAGNode : Type} (t : task DAGNode) : nat :=
  match t with
  | TLeaf _ => 0
  | TDir _ ph _ children =>
      weight ph + list_sum (map (fun kv => remaining (snd kv)) children)
  end.

(** A directory that waits for its children has a child in flight, no
    directory has raised an exception, and no directory has two children of
    one name. *)
Fixpoint live {DAGNode : Type} (t : task DAGNode) : bool :=
  match t with
  | TLeaf _ => true
  | TDir _ ph _ children =>
      distinct (keys children) &&
      match ph with
      | Waiting => negb (forallb (fun kv => isResolved (snd kv)) children)
      | Thrown _ => false
      | _ => true
      end &&
      forallb (fun kv => live (snd kv)) children
  end.

(** The completions that have happened and those that can still happen are
    two per directory of the walked tree at most. *)
Definition spent {W DAGNode : Type} (tree : obj node) (st : state W DAGNode) : Prop :=
  match st.(tasks) with
  | Some t =>
      List.length st.(glob).(trace) + remaining t <= 2 * dirCount (Dir tree)
  | None => True
  end.

(** The part of the invariant of a run that progress rests on. *)
Definition alive {W DAGNode : Type} (st : state W DAGNode) : Prop :=
  match st.(tasks) with
  | Some t => st.(thrown) = None -> live t = true
  | None => st.(callback) <> None \/ st.(thrown) <> None
  end.

(** The content id a child has resolved to. *)
Definition resultOf {DAGNode : Type} (t : task DAGNode) : option Cid :=
  match t with
  | TLeaf c => Some c
  | TDir _ (Done c) _ _ => Some c
  | _ => None
  end.

(** The results a directory has collected are those of its resolved
    children, one per name, and the links it has built are these results. *)
Definition linkedTask {DAGNode : Type} (ot : option (task DAGNode)) : Prop :=
  match ot with
  | Some (TDir _ ph newObj children) =>
      distinct (keys newObj) = true /\
      (forall k c, In (k, c) newObj ->
         exists child, get k children = Some child /\ resultOf child = Some c) /\
      (forall k child c, get k children = Some child -> resultOf child = Some c ->
         In (k, c) newObj) /\
      match ph with
      | Creating links => map (fun l => (l.(name), l.(multihash))) links = newObj
      | Persisting links _ => map (fun l => (l.(name), l.(multihash))) links = newObj
      | _ => True
      end
  | _ => True
  end.

(** The links handed to persist for the directory at [a], against the
    built tree and the events [pre] that came before: one link per child, no
    name twice; the link of a file holds the file's content id, the link of a
    directory the content id that directory came back with. *)
Definition linkFacts (tree : obj node) (pre : list event) (a : address)
    (links : list DAGLink) : Prop :=
  NoDup (map name links) /\
  (forall k, In k (map name links) <-> nodeAt (a ++ [k])%list (Dir tree) <> None) /\
  (forall l, In l links ->
     match nodeAt (a ++ [l.(name)])%list (Dir tree) with
     | Some (Leaf c) => l.(multihash) = c
     | Some (Dir _) =>
         exists sz, In (Returned (a ++ [l.(name)])%list
                          (pathTo (a ++ [l.(name)])%list)
                          (inr (l.(multihash), sz))) pre
     | None => False
     end).

(** * Properties *)

Unset Implicit Arguments.
Open Scope list_scope.

(** ** Objects *)

Module ObjFacts.

Lemma get_set_same V (k : string) (v : V) o : get k (set k v o) = Some v.
Proof.
  induction o as [|[k' v'] o IH]; simpl.
  - now rewrite String.eqb_refl.
  - destruct (String.eqb k k') eqn:E; simpl; rewrite E; auto.
Qed.

Lemma get_set_other V (k k0 : string) (v : V) o :
  k0 <> k -> get k0 (set k v o) = get k0 o.
Proof.
  intros Hne. induction o as [|[k' v'] o IH]; simpl.
  - destruct (String.eqb k0 k) eqn:E; auto.
    apply String.eqb_eq in E. contradiction.
  - destruct (String.eqb k k') eqn:E; simpl.
    + apply String.eqb_eq in E. subst k'.
      destruct (String.eqb k0 k) eqn:E0; auto.
      apply String.eqb_eq in E0. contradiction.
    + now rewrite IH.
Qed.

Lemma has_set V (k k0 : string) (v : V) o :
  has k0 (set k v o) = (String.eqb k0 k || has k0 o)%bool.
Proof.
  unfold has. destruct (String.eqb k0 k) eqn:E.
  - apply String.eqb_eq in E. subst. now rewrite get_set_same.
  - rewrite get_set_other; auto. now apply String.eqb_neq.
Qed.

Lemma get_In V (k : string) (v : V) o : get k o = Some v -> In (k, v) o.
Proof.
  induction o as [|[k' v'] o IH]; simpl; [discriminate|].
  destruct (String.eqb k k') eqn:E.
  - apply String.eqb_eq in E. intros [= ->]. subst. now left.
  - intros H. right. auto.
Qed.

Lemma keys_set_NoDup V (k : string) (v : V) o :
  NoDup (keys o) -> NoDup (keys (set k v o)).
Proof.
  unfold keys. induction o as [|[k' v'] o IH]; simpl; intros H.
  - constructor; [intros []|constructor].
  - inversion H as [|? ? Hn Hd]; subst.
    destruct (String.eqb k k') eqn:E; simpl.
    + constructor; auto.
    + constructor; auto.
      intros Hin. apply Hn.
      clear - Hin E. induction o as [|[k2 v2] o IH]; simpl in *.
      * destruct Hin as [->|[]]. now rewrite String.eqb_refl in E.
      * destruct (String.eqb k k2); simpl in *; intuition.
Qed.

Lemma two_keys V (k1 k2 : string) (o : obj V) :
  has k1 o = true -> has k2 o = true -> k1 <> k2 -> (2 <= List.length (keys o))%nat.
Proof.
  unfold has, keys. intros H1 H2 Hne.
  destruct o as [|[a va] [|[b vb] o]]; simpl in *; try discriminate; try lia.
  destruct (String.eqb k1 a) eqn:E1; [|discriminate].
  destruct (String.eqb k2 a) eqn:E2; [|discriminate].
  apply String.eqb_eq in E1, E2. congruence.
Qed.

End ObjFacts.
Import ObjFacts.

(** ** The tree builder *)

Section BuilderFacts.

Variable toPathComponents : string -> list string.

Lemma insert_cons1 k c t :
  insert [k] c t = if String.eqb k "__proto__" then t else set k (Leaf c) t.
Proof. reflexivity. Qed.

Lemma insert_cons2 k k2 r c t :
  insert (k :: k2 :: r) c t =
  match get k t with
  | None => if inherited k then t else set k (Dir (insert (k2 :: r) c [])) t
  | Some (Dir d) => set k (Dir (insert (k2 :: r) c d)) t
  | Some (Leaf _) => t
  end.
Proof. reflexivity. Qed.

Lemma strays_cons1 k t : strays [k] t = String.eqb k "__proto__".
Proof. reflexivity. Qed.

Lemma strays_cons2 k k2 r t :
  strays (k :: k2 :: r) t =
  match get k t with
  | None => (inherited k || strays (k2 :: r) [])%bool
  | Some (Dir d) => strays (k2 :: r) d
  | Some (Leaf _) => true
  end.
Proof. reflexivity. Qed.

Lemma has_insert_mono k splitted c t :
  has k t = true -> has k (insert splitted c t) = true.
Proof.
  intros H. destruct splitted as [|k0 [|k1 rest]]; auto.
  - rewrite insert_cons1. destruct (String.eqb k0 "__proto__"); auto.
    rewrite has_set, H. apply orb_true_r.
  - rewrite insert_cons2.
    destruct (get k0 t) as [[?|d]|]; auto; [|destruct (inherited k0); auto];
      rewrite has_set, H; apply orb_true_r.
Qed.

(** A walk that stays in the tree leaves its first component as a key. *)
Lemma has_insert_head k rest c t :
  strays (k :: rest) t = false -> has k (insert (k :: rest) c t) = true.
Proof.
  destruct rest as [|k1 rest].
  - rewrite strays_cons1, insert_cons1. intros ->.
    now rewrite has_set, String.eqb_refl.
  - rewrite strays_cons2, insert_cons2.
    destruct (get k t) as [[?|d]|] eqn:E; intros Hs.
    + discriminate.
    + now rewrite has_set, String.eqb_refl.
    + apply orb_false_iff in Hs. destruct Hs as [-> _].
      now rewrite has_set, String.eqb_refl.
Qed.

Lemma has_addFile_mono k t f :
  has k t = true -> has k (addFile toPathComponents t f) = true.
Proof.
  intros H. unfold addFile.
  destruct (Nat.eqb _ 1); auto using has_insert_mono.
Qed.

Lemma has_fold_addFile_mono k files t :
  has k t = true -> has k (fold_left (addFile toPathComponents) files t) = true.
Proof.
  revert t. induction files as [|f files IH]; simpl; auto using has_addFile_mono.
Qed.

Lemma createTree_has_topLevel files f k :
  tame toPathComponents files = true ->
  In f files -> nested toPathComponents f -> topLevel toPathComponents f = Some k ->
  has k (createTree toPathComponents files) = true.
Proof.
  unfold createTree, tame. generalize (@nil (string * node)).
  induction files as [|f0 files IH]; intros t Htame []; simpl in Htame;
    apply andb_true_iff in Htame; destruct Htame as [Hf0 Htame].
  - subst f0. intros Hn Hk. simpl. apply has_fold_addFile_mono.
    apply negb_true_iff in Hf0. unfold straying in Hf0.
    unfold addFile. unfold nested in Hn. unfold topLevel in Hk.
    destruct (Nat.eqb_spec (List.length (toPathComponents (path f))) 1); [lia|].
    destruct (stripLeading (toPathComponents (path f))) as [|k' rest]; [discriminate|].
    injection Hk as ->. now apply has_insert_head.
  - intros Hn Hk. simpl. eauto.
Qed.

Lemma fold_addFile_flat files t :
  (forall f, In f files -> List.length (toPathComponents f.(path)) = 1%nat) ->
  fold_left (addFile toPathComponents) files t = t.
Proof.
  induction files as [|f files IH]; intros H; simpl; auto.
  unfold addFile at 2. rewrite (H f) by now left. simpl.
  apply IH. intros; apply H; now right.
Qed.

Lemma stripLeading_id splitted :
  hd_error splitted <> Some "" -> stripLeading splitted = splitted.
Proof.
  destruct splitted as [|k rest]; simpl; auto.
  destruct (String.eqb_spec k ""); auto. subst. intros H. now contradiction H.
Qed.

(** C6: an entry whose path, the leading empty component stripped by the
    Path Splitter, consists of exactly one component is excluded from the
    construction of the tree: the tree built from a list that holds the
    entry, at whatever position, is the tree built from the list without
    it, so the entry contributes no key and no leaf. *)
Theorem createTree_skips_single_component files1 f files2 :
  hd_error (toPathComponents f.(path)) <> Some "" ->
  List.length (stripLeading (toPathComponents f.(path))) = 1%nat ->
  createTree toPathComponents (files1 ++ f :: files2) =
  createTree toPathComponents (files1 ++ files2).
Proof.
  intros Hhd Hlen. rewrite stripLeading_id in Hlen by assumption.
  unfold createTree. rewrite !fold_left_app. simpl.
  unfold addFile at 2. now rewrite Hlen.
Qed.

(** *** Insertion and lookup *)

Lemma set_get_id V (k : string) (v : V) o : get k o = Some v -> set k v o = o.
Proof.
  induction o as [|[k' v'] o IH]; simpl; [discriminate|].
  destruct (String.eqb k k') eqn:E.
  - intros [= ->]. reflexivity.
  - intros H. now rewrite IH.
Qed.

Lemma nodeAt_empty a : a <> [] -> nodeAt a (Dir []) = None.
Proof. destruct a; [contradiction|reflexivity]. Qed.

Lemma nodeAt_cons k a o :
  nodeAt (k :: a) (Dir o) =
  match get k o with Some child => nodeAt a child | None => None end.
Proof. reflexivity. Qed.

Lemma insert_lookup ks : forall c t,
  ks <> [] -> strays ks t = false ->
  nodeAt ks (Dir (insert ks c t)) = Some (Leaf c).
Proof.
  induction ks as [|k ks IH]; intros c t Hne Hs; [contradiction|].
  destruct ks as [|k2 ks].
  - rewrite strays_cons1 in Hs. rewrite insert_cons1, Hs, nodeAt_cons.
    now rewrite get_set_same.
  - rewrite strays_cons2 in Hs. rewrite insert_cons2.
    destruct (get k t) as [[c'|d]|] eqn:Hk.
    + discriminate.
    + rewrite nodeAt_cons, get_set_same. apply IH; [discriminate|assumption].
    + apply orb_false_iff in Hs. destruct Hs as [-> Hs].
      rewrite nodeAt_cons, get_set_same. apply IH; [discriminate|assumption].
Qed.

(** X1: an entry that is not skipped (its path does not split into exactly
    one component), that keeps at least one component once a leading empty
    one is dropped, and whose walk stays in the plain objects of the tree
    (it meets no inherited name and no file on its way), is found in the
    tree under its path as a file holding its content id, whatever was
    stored there before. *)
Theorem addFile_lookup t f :
  List.length (toPathComponents f.(path)) <> 1%nat ->
  stripLeading (toPathComponents f.(path)) <> [] ->
  strays (stripLeading (toPathComponents f.(path))) t = false ->
  nodeAt (stripLeading (toPathComponents f.(path)))
         (Dir (addFile toPathComponents t f)) = Some (Leaf f.(cid)).
Proof.
  intros Hlen Hne Hs. unfold addFile.
  destruct (Nat.eqb_spec (List.length (toPathComponents (path f))) 1); [contradiction|].
  now apply insert_lookup.
Qed.

Lemma insert_frame q : forall x y a ks c t,
  x <> y ->
  nodeAt (q ++ x :: a) (Dir (insert (q ++ y :: ks) c t)) =
  nodeAt (q ++ x :: a) (Dir t).
Proof.
  induction q as [|k q IH]; intros x y a ks c t Hne.
  - simpl app. rewrite !nodeAt_cons. destruct ks as [|k2 ks].
    + rewrite insert_cons1. destruct (String.eqb y "__proto__"); auto.
      now rewrite get_set_other.
    + rewrite insert_cons2.
      destruct (get y t) as [[c'|d]|]; auto; [|destruct (inherited y); auto];
        now rewrite get_set_other.
  - simpl app. rewrite !nodeAt_cons.
    destruct (q ++ y :: ks) as [|k2 r] eqn:Hr.
    { destruct q; discriminate. }
    rewrite insert_cons2.
    destruct (get k t) as [[c'|d]|] eqn:Hk; rewrite ?Hk; auto.
    + rewrite get_set_same, <- Hr. now apply IH.
    + destruct (inherited k); [now rewrite Hk|].
      rewrite get_set_same, <- Hr, IH by assumption.
      apply nodeAt_empty. destruct q; discriminate.
Qed.

(** X3: adding an entry changes nothing at a path that parts from the
    entry's own path. *)
Theorem addFile_frame t f q x y a ks :
  stripLeading (toPathComponents f.(path)) = q ++ y :: ks -> x <> y ->
  nodeAt (q ++ x :: a) (Dir (addFile toPathComponents t f)) =
  nodeAt (q ++ x :: a) (Dir t).
Proof.
  intros Hks Hne. unfold addFile.
  destruct (Nat.eqb _ 1); auto.
  rewrite Hks. now apply insert_frame.
Qed.

(** *** Where leaves and top-level keys come from *)

Lemma forallb_obj_set V (P : V -> bool) k v (o : obj V) :
  forallb (fun kv => P (snd kv)) o = true -> P v = true ->
  forallb (fun kv => P (snd kv)) (set k v o) = true.
Proof.
  intros H Hv. induction o as [|[k' v'] o IH]; simpl in *.
  - now rewrite Hv.
  - apply andb_true_iff in H. destruct H as [H1 H2].
    destruct (String.eqb k k'); simpl; rewrite ?Hv, ?H1, ?H2; auto.
Qed.

Lemma forallb_obj_get V (P : V -> bool) k v (o : obj V) :
  forallb (fun kv => P (snd kv)) o = true -> get k o = Some v -> P v = true.
Proof.
  intros H Hk. apply get_In in Hk. rewrite forallb_forall in H. exact (H _ Hk).
Qed.

Lemma allLeaves_Dir P o :
  allLeaves P (Dir o) = forallb (fun kv => allLeaves P (snd kv)) o.
Proof. reflexivity. Qed.

Lemma insert_allLeaves P ks : forall c t,
  P c = true -> allLeaves P (Dir t) = true ->
  allLeaves P (Dir (insert ks c t)) = true.
Proof.
  induction ks as [|k ks IH]; intros c t Hc Ht; auto.
  destruct ks as [|k2 ks].
  - rewrite insert_cons1. destruct (String.eqb k "__proto__"); auto.
    rewrite allLeaves_Dir.
    apply (forallb_obj_set node (allLeaves P)); auto.
  - rewrite insert_cons2. destruct (get k t) as [[c'|d]|] eqn:Hk; auto.
    + rewrite allLeaves_Dir. apply (forallb_obj_set node (allLeaves P)); auto.
      apply IH; auto.
      apply (forallb_obj_get node (allLeaves P) k (Dir d) t); auto.
    + destruct (inherited k); auto.
      rewrite allLeaves_Dir. apply (forallb_obj_set node (allLeaves P)); auto.
Qed.

Lemma fold_addFile_allLeaves P fs : forall t,
  (forall f, In f fs -> P f.(cid) = true) ->
  allLeaves P (Dir t) = true ->
  allLeaves P (Dir (fold_left (addFile toPathComponents) fs t)) = true.
Proof.
  induction fs as [|f fs IH]; intros t HP Ht; simpl; auto.
  apply IH; [intros; apply HP; now right|].
  unfold addFile. destruct (Nat.eqb _ 1); auto.
  apply insert_allLeaves; auto. apply HP. now left.
Qed.

Lemma allLeaves_at P a : forall n n',
  allLeaves P n = true -> nodeAt a n = Some n' -> allLeaves P n' = true.
Proof.
  induction a as [|k a IH]; intros n n' Hn H; simpl in H.
  - now injection H as <-.
  - destruct n as [c|o]; [discriminate|].
    destruct (get k o) as [child|] eqn:Hk; [|discriminate].
    apply (IH child); auto.
    apply (forallb_obj_get node (allLeaves P) k child o); auto.
Qed.

Lemma carried_In files c : carried files c = true <-> exists f, In f files /\ f.(cid) = c.
Proof.
  unfold carried. rewrite existsb_exists. split.
  - intros (f & Hin & Heq). apply String.eqb_eq in Heq. eauto.
  - intros (f & Hin & Heq). exists f. split; auto. now apply String.eqb_eq.
Qed.

(** X4: every file of the built tree, at whatever depth, holds the content
    id of one of the input entries. *)
Theorem createTree_leaves_carried files a c :
  nodeAt a (Dir (createTree toPathComponents files)) = Some (Leaf c) ->
  exists f, In f files /\ f.(cid) = c.
Proof.
  intros H. apply carried_In.
  assert (Hall : allLeaves (carried files) (Dir (createTree toPathComponents files)) = true).
  { apply fold_addFile_allLeaves; auto.
    intros f Hin. apply carried_In. eauto. }
  exact (allLeaves_at _ _ _ _ Hall H).
Qed.

Lemma has_insert_inv k ks c t :
  has k (insert ks c t) = true -> has k t = true \/ hd_error ks = Some k.
Proof.
  destruct ks as [|k1 [|k2 ks]]; simpl hd_error; auto.
  - rewrite insert_cons1. destruct (String.eqb k1 "__proto__"); auto.
    rewrite has_set. intros H. apply orb_true_iff in H.
    destruct H as [H|H]; auto. apply String.eqb_eq in H. subst. auto.
  - rewrite insert_cons2.
    destruct (get k1 t) as [[c'|d]|]; auto; [|destruct (inherited k1); auto];
      rewrite has_set; intros H; apply orb_true_iff in H;
      destruct H as [H|H]; auto; apply String.eqb_eq in H; subst; auto.
Qed.

Lemma has_fold_addFile_inv k fs : forall t,
  has k (fold_left (addFile toPathComponents) fs t) = true ->
  has k t = true \/
  exists f, In f fs /\ List.length (toPathComponents f.(path)) <> 1%nat /\
            topLevel toPathComponents f = Some k.
Proof.
  induction fs as [|f fs IH]; intros t H; simpl in H; auto.
  destruct (IH _ H) as [Ht|(f' & Hin & Hf')].
  - unfold addFile in Ht.
    destruct (Nat.eqb_spec (List.length (toPathComponents (path f))) 1); auto.
    destruct (has_insert_inv _ _ _ _ Ht) as [Ht'|Hhd]; auto.
    right. exists f. split; [now left|]. split; auto.
  - right. exists f'. split; [now right|auto].
Qed.

(** X5: every top-level key of the built tree is the first component, after
    a leading empty one is dropped, of an entry whose path does not split
    into exactly one component. *)
Theorem createTree_top_level_keys files k :
  has k (createTree toPathComponents files) = true ->
  exists f, In f files /\ List.length (toPathComponents f.(path)) <> 1%nat /\
            topLevel toPathComponents f = Some k.
Proof.
  intros H. destruct (has_fold_addFile_inv _ _ _ H) as [Hnil|Hf]; auto.
  discriminate.
Qed.

Lemma insert_keys_NoDup ks c t :
  NoDup (keys t) -> NoDup (keys (insert ks c t)).
Proof.
  intros H. destruct ks as [|k1 [|k2 ks]]; auto.
  - rewrite insert_cons1. destruct (String.eqb k1 "__proto__"); auto.
    now apply keys_set_NoDup.
  - rewrite insert_cons2.
    destruct (get k1 t) as [[c'|d]|]; auto; [|destruct (inherited k1); auto];
      now apply keys_set_NoDup.
Qed.

Lemma createTree_keys_NoDup files : NoDup (keys (createTree toPathComponents files)).
Proof.
  unfold createTree. assert (H : NoDup (keys (@nil (string * node)))) by constructor.
  revert H. generalize (@nil (string * node)).
  induction files as [|f files IH]; intros t Ht; simpl; auto.
  apply IH. unfold addFile. destruct (Nat.eqb _ 1); auto.
  now apply insert_keys_NoDup.
Qed.

Lemma has_In_keys V k (o : obj V) : has k o = true <-> In k (keys o).
Proof.
  unfold has, keys. induction o as [|[k' v] o IH]; simpl.
  - split; [discriminate|contradiction].
  - destruct (String.eqb_spec k k').
    + subst. split; auto.
    + rewrite IH. split; auto. intros [Heq|H]; auto. congruence.
Qed.

(** X6: when no walk leaves the plain objects of the tree, the entries
    that are not skipped all have the same first component [k] (after a
    leading empty one is dropped) and there is at least one of them, the
    tree has the single top-level key [k]. *)
Theorem createTree_single_root files k f0 :
  tame toPathComponents files = true ->
  In f0 files -> nested toPathComponents f0 ->
  (forall f, In f files -> List.length (toPathComponents f.(path)) <> 1%nat ->
             topLevel toPathComponents f = Some k) ->
  keys (createTree toPathComponents files) = [k].
Proof.
  intros Htame Hin Hnest Hall.
  assert (Hk : In k (keys (createTree toPathComponents files))).
  { apply has_In_keys. apply (createTree_has_topLevel files f0); auto.
    apply Hall; auto. unfold nested in Hnest. lia. }
  assert (Honly : forall k', In k' (keys (createTree toPathComponents files)) -> k' = k).
  { intros k' Hk'. apply has_In_keys in Hk'.
    destruct (has_fold_addFile_inv _ _ _ Hk') as [Hnil|(f & Hf & Hlen & Htop)];
      [discriminate|].
    rewrite (Hall f Hf Hlen) in Htop. congruence. }
  pose proof (createTree_keys_NoDup files) as Hnd.
  destruct (keys (createTree toPathComponents files)) as [|k1 [|k2 l]].
  - contradiction.
  - rewrite (Honly k1); auto. now left.
  - exfalso. inversion Hnd as [|? ? Hnot _]; subst. apply Hnot.
    rewrite (Honly k1), (Honly k2); simpl; auto.
Qed.

(** X7: the seeded size index maps a content id to the size of the last
    entry that carries it, and to nothing when no entry carries it; entries
    that the tree builder skips are seeded like the others. *)
Theorem createSizeIndex_lookup files c :
  get c (createSizeIndex files) =
  option_map size (find (fun f => String.eqb f.(cid) c) (rev files)).
Proof.
  induction files as [|f files IH] using rev_ind; [reflexivity|].
  unfold createSizeIndex in *. rewrite fold_left_app, rev_app_distr. simpl.
  destruct (String.eqb_spec (cid f) c) as [->|Hne].
  - now rewrite get_set_same.
  - rewrite get_set_other by congruence. exact IH.
Qed.

(** *** Names are unique *)

Lemma distinct_NoDup l : distinct l = true <-> NoDup l.
Proof.
  induction l as [|k l IH]; simpl.
  - split; [constructor|reflexivity].
  - rewrite andb_true_iff, negb_true_iff, IH. split.
    + intros [Hk Hl]. constructor; auto. intros Hin.
      assert (existsb (String.eqb k) l = true); [|congruence].
      apply existsb_exists. exists k. split; auto. apply String.eqb_refl.
    + intros H. inversion H as [|? ? Hk Hl]; subst. split; auto.
      destruct (existsb (String.eqb k) l) eqn:E; auto.
      apply existsb_exists in E. destruct E as (x & Hx & Heq).
      apply String.eqb_eq in Heq. subst. contradiction.
Qed.

Lemma distinct_set V k (v : V) o :
  distinct (keys o) = true -> distinct (keys (set k v o)) = true.
Proof. rewrite !distinct_NoDup. apply keys_set_NoDup. Qed.

Lemma In_get_distinct V k (v : V) o :
  distinct (keys o) = true -> In (k, v) o -> get k o = Some v.
Proof.
  rewrite distinct_NoDup. unfold keys.
  induction o as [|[k' v'] o IH]; simpl; [contradiction|].
  intros Hnd [Heq|Hin].
  - injection Heq as -> ->. now rewrite String.eqb_refl.
  - inversion Hnd as [|? ? Hk Hl]; subst.
    destruct (String.eqb_spec k k') as [->|Hne]; auto.
    exfalso. apply Hk. apply in_map_iff. exists (k', v). auto.
Qed.

Lemma uniqueKeys_Dir o :
  uniqueKeys (Dir o) =
  (distinct (keys o) && forallb (fun kv => uniqueKeys (snd kv)) o)%bool.
Proof. reflexivity. Qed.

Lemma uniqueKeys_set k n o :
  uniqueKeys (Dir o) = true -> uniqueKeys n = true ->
  uniqueKeys (Dir (set k n o)) = true.
Proof.
  rewrite !uniqueKeys_Dir, !andb_true_iff. intros [Hd Hf] Hn. split.
  - now apply distinct_set.
  - now apply (forallb_obj_set node uniqueKeys).
Qed.

Lemma insert_uniqueKeys ks : forall c t,
  uniqueKeys (Dir t) = true -> uniqueKeys (Dir (insert ks c t)) = true.
Proof.
  induction ks as [|k ks IH]; intros c t Ht; auto.
  destruct ks as [|k2 ks].
  - rewrite insert_cons1. destruct (String.eqb k "__proto__"); auto.
    now apply uniqueKeys_set.
  - rewrite insert_cons2. destruct (get k t) as [[c'|d]|] eqn:Hk; auto.
    + apply uniqueKeys_set; auto. apply IH.
      rewrite uniqueKeys_Dir, andb_true_iff in Ht. destruct Ht as [_ Hf].
      exact (forallb_obj_get node uniqueKeys k (Dir d) t Hf Hk).
    + destruct (inherited k); auto. apply uniqueKeys_set; auto.
Qed.

Lemma createTree_uniqueKeys files :
  uniqueKeys (Dir (createTree toPathComponents files)) = true.
Proof.
  unfold createTree.
  assert (H : uniqueKeys (Dir []) = true) by reflexivity.
  revert H. generalize (@nil (string * node)).
  induction files as [|f files IH]; intros t Ht; simpl; auto.
  apply IH. unfold addFile. destruct (Nat.eqb _ 1); auto.
  now apply insert_uniqueKeys.
Qed.

Lemma uniqueKeys_at a : forall n n',
  uniqueKeys n = true -> nodeAt a n = Some n' -> uniqueKeys n' = true.
Proof.
  induction a as [|k a IH]; intros n n' Hn H; simpl in H.
  - now injection H as <-.
  - destruct n as [c|o]; [discriminate|].
    destruct (get k o) as [child|] eqn:Hk; [|discriminate].
    apply (IH child); auto.
    rewrite uniqueKeys_Dir, andb_true_iff in Hn. destruct Hn as [_ Hf].
    exact (forallb_obj_get node uniqueKeys k child o Hf Hk).
Qed.

(** X17: no directory of the built tree, at whatever depth, has two
    children of the same name: an entry stored under a name already taken
    replaces what was there. *)
Theorem createTree_names_unique files a entries :
  nodeAt a (Dir (createTree toPathComponents files)) = Some (Dir entries) ->
  NoDup (keys entries).
Proof.
  intros H. apply distinct_NoDup.
  pose proof (uniqueKeys_at _ _ _ (createTree_uniqueKeys files) H) as Hu.
  rewrite uniqueKeys_Dir, andb_true_iff in Hu. tauto.
Qed.

(** *** No directory of the tree is empty *)

Lemma stocked_Dir o :
  stocked (Dir o) =
  (negb (Nat.eqb (List.length o) 0) && forallb (fun kv => stocked (snd kv)) o)%bool.
Proof. reflexivity. Qed.

Lemma set_stocked k n (o : obj node) :
  forallb (fun kv => stocked (snd kv)) o = true -> stocked n = true ->
  stocked (Dir (set k n o)) = true.
Proof.
  intros Ho Hn. rewrite stocked_Dir.
  rewrite (forallb_obj_set node stocked) by assumption.
  destruct o as [|[k' v'] o]; simpl; auto.
  destruct (String.eqb k k'); reflexivity.
Qed.

Lemma insert_stocked ks : forall c t,
  strays ks t = false -> ks <> [] ->
  forallb (fun kv => stocked (snd kv)) t = true ->
  stocked (Dir (insert ks c t)) = true.
Proof.
  induction ks as [|k ks IH]; intros c t Hs Hne Ht; [contradiction|].
  destruct ks as [|k2 ks].
  - rewrite insert_cons1. rewrite strays_cons1 in Hs. rewrite Hs.
    now apply set_stocked.
  - rewrite insert_cons2. rewrite strays_cons2 in Hs.
    destruct (get k t) as [[c'|d]|] eqn:Hk; [discriminate| |].
    + apply set_stocked; auto. apply IH; auto; [discriminate|].
      pose proof (forallb_obj_get node stocked k (Dir d) t Ht Hk) as Hd.
      rewrite stocked_Dir in Hd. apply andb_true_iff in Hd. tauto.
    + apply orb_false_iff in Hs. destruct Hs as [-> Hs].
      apply set_stocked; auto. apply IH; auto. discriminate.
Qed.

Lemma fold_addFile_stocked fs : forall t,
  tameFrom toPathComponents t fs = true ->
  forallb (fun kv => stocked (snd kv)) t = true ->
  forallb (fun kv => stocked (snd kv)) (fold_left (addFile toPathComponents) fs t) = true.
Proof.
  induction fs as [|f fs IH]; intros t Htame Ht; simpl; auto.
  simpl in Htame. apply andb_true_iff in Htame. destruct Htame as [Hf Hrest].
  apply IH; auto.
  unfold straying in Hf. unfold addFile.
  destruct (Nat.eqb _ 1); auto.
  apply negb_true_iff in Hf.
  destruct (stripLeading (toPathComponents (path f))) as [|k ks] eqn:Hks; auto.
  pose proof (insert_stocked (k :: ks) (cid f) t Hf ltac:(discriminate) Ht) as H.
  rewrite stocked_Dir in H. apply andb_true_iff in H. tauto.
Qed.

End BuilderFacts.

(** ** The flusher *)

Section FlusherFacts.

Variable W : Type.
Variable DAGNode : Type.
Variable DAGNode_create : list DAGLink -> Error + DAGNode.
Variable nodeSize : DAGNode -> Z.
Variable persist : DAGNode -> W -> (Error + (Cid * DAGNode)) * W.
Variable isBuffer : Cid -> bool.
Variable fields : Cid -> obj Cid.
Variable newCID : Cid -> Error + Cid.
Variable toPathComponents : string -> list string.

Local Abbreviation Run := (run DAGNode_create nodeSize persist newCID).
Local Abbreviation Step := (step DAGNode_create nodeSize persist newCID).
Local Abbreviation Complete := (complete DAGNode_create nodeSize persist newCID).
Local Abbreviation CompleteHere := (completeHere DAGNode_create nodeSize persist).
Local Abbreviation FlushTree :=
  (@flushTree W DAGNode isBuffer fields newCID toPathComponents).
Local Abbreviation Built := (walkedTree isBuffer fields).

Lemma run_no_tasks schedule (st : state W DAGNode) :
  tasks st = None -> Run schedule st = st.
Proof.
  intros H. induction schedule as [|a schedule IH]; simpl; auto.
  unfold step. rewrite H. now destruct (thrown st).
Qed.

(** Nothing completes after an exception. *)
Lemma run_thrown schedule (st : state W DAGNode) :
  thrown st <> None -> Run schedule st = st.
Proof.
  intros H. induction schedule as [|a schedule IH]; simpl; auto.
  unfold step. destruct (thrown st); [auto|contradiction].
Qed.

(** What a step is made of. *)
Lemma step_inv addr (st st' : state W DAGNode) :
  Step addr st = Some st' ->
  thrown st = None /\
  exists t t' g' sig,
    tasks st = Some t /\
    Complete addr [] t (glob st) = Some (t', g', sig) /\
    tasks st' = Some t' /\ glob st' = g' /\
    callback st' = (match sig with
                    | Succeeded c => Some (Root c)
                    | Fail e => Some (Failure e)
                    | _ => callback st
                    end) /\
    thrown st' = (match sig with Threw e => Some e | _ => None end).
Proof.
  unfold step. intros H.
  destruct (thrown st); [discriminate|].
  destruct (tasks st) as [t|]; [|discriminate].
  destruct (Complete addr [] t (glob st)) as [[[t' g'] sig]|] eqn:E; [|discriminate].
  injection H as <-. simpl. split; auto. exists t, t', g', sig.
  repeat split; auto.
Qed.

(** Every property of states that each completion preserves holds along
    every schedule. *)
Lemma run_invariant (P : state W DAGNode -> Prop) :
  (forall addr st st', P st -> Step addr st = Some st' -> P st') ->
  forall schedule st, P st -> P (Run schedule st).
Proof.
  intros Hstep. induction schedule as [|a schedule IH]; simpl; auto.
  intros st H. destruct (Step a st) eqn:E; eauto.
Qed.

(** C7: when every path has exactly one component, flushTree completes with
    the no-root result, calls the persist collaborator never and pushes
    nothing to the sink, whatever the schedule. *)
Theorem flushTree_flat_no_root files w schedule :
  (forall f, In f files -> List.length (toPathComponents f.(path)) = 1%nat) ->
  let st := run DAGNode_create nodeSize persist newCID schedule
              (flushTree isBuffer fields newCID toPathComponents files w) in
  callback st = Some NoRoot /\ trace (glob st) = [] /\ source (glob st) = [].
Proof.
  intros H. unfold flushTree, createTree.
  rewrite fold_addFile_flat by assumption. simpl.
  rewrite run_no_tasks by reflexivity. auto.
Qed.


(** *** What one completion does to the globals *)

Ltac join_cases H :=
  unfold join in H;
  repeat (cbv beta iota zeta in H;
          match type of H with
          | context [match ?x with _ => _ end] => is_var x; destruct x
          | context [forallb ?f ?l] => destruct (forallb f l) eqn:?Hall
          | context [makeLinks ?f ?si ?o] => destruct (makeLinks f si o) eqn:?Hlinks
          end);
  cbv beta iota zeta in H; inversion H; subst; clear H.

Lemma join_glob path (ph : phase DAGNode) newObj children k (g : globals W) sig t' g' sig' :
  join newCID path ph newObj children k g sig = (t', g', sig') -> g' = g.
Proof. intros H. join_cases H; reflexivity. Qed.

(** A completion at [addr] changes the globals as the pending call of the
    task it reaches does. *)
Lemma complete_target addr : forall here t g t' g' sig,
  Complete addr here t g = Some (t', g', sig) ->
  exists t0 t0' sig0, CompleteHere (here ++ addr) t0 g = Some (t0', g', sig0).
Proof.
  induction addr as [|k addr IH]; intros here t g t' g' sig H; simpl in H.
  - rewrite app_nil_r. eauto.
  - destruct t as [|path ph newObj children]; [discriminate|].
    destruct (get k children) as [child|]; [|discriminate].
    destruct (Complete addr (here ++ [k]) child g) as [[[child' g1] sig1]|] eqn:E;
      [|discriminate].
    injection H as H. apply join_glob in H. subst g1.
    apply IH in E. rewrite <- app_assoc in E. exact E.
Qed.

Ltac completeHere_cases H :=
  match type of H with
  | completeHere _ _ _ _ ?t _ = Some _ =>
      unfold completeHere in H;
      destruct t as [?c|?tp [| |?links|?links ?n|?c| |?e] ?newObj ?children];
      try discriminate H;
      [ destruct (DAGNode_create _) as [?e|?n] eqn:?Hcreate
      | destruct (persist _ _) as [[?e|[?c ?n']] ?w] eqn:?Hpersist ];
      inversion H; subst; clear H
  end.

(** Every property of the globals that the four outcomes of a pending call
    preserve is preserved by a completion. *)
Lemma complete_glob_invariant (P : globals W -> Prop) :
  (forall g x, P g -> P (push x g)) ->
  (forall g ev, P g -> P (log ev g)) ->
  (forall g w, P g -> P (setIpld w g)) ->
  (forall g c sz, P g -> P (record c sz g)) ->
  forall addr here t g t' g' sig,
    Complete addr here t g = Some (t', g', sig) -> P g -> P g'.
Proof.
  intros Hpush Hlog Hipld Hrec addr here t g t' g' sig H Hg.
  apply complete_target in H. destruct H as (t0 & t0' & sig0 & H).
  completeHere_cases H; auto.
  destruct (truthy tp); auto. destruct tp; auto.
Qed.

(** *** Where a completion acts *)

(** A completion at [addr] is the pending call of the task at [addr]; an
    error signal that leaves the tree is the error of that call. *)
Lemma complete_at addr : forall here t g t' g' sig,
  Complete addr here t g = Some (t', g', sig) ->
  exists t0 t0' sig0,
    taskAt addr t = Some t0 /\ taskAt addr t' = Some t0' /\
    CompleteHere (here ++ addr) t0 g = Some (t0', g', sig0) /\
    (forall e, sig = Fail e -> sig0 = Fail e).
Proof.
  induction addr as [|k addr IH]; intros here t g t' g' sig H; simpl in H.
  - rewrite app_nil_r. exists t, t', sig. simpl. auto.
  - destruct t as [|tp ph newObj children]; [discriminate|].
    destruct (get k children) as [child|] eqn:Hk; [|discriminate].
    destruct (Complete addr (here ++ [k]) child g) as [[[child' g1] sig1]|] eqn:E;
      [|discriminate].
    injection H as H.
    apply IH in E. destruct E as (t0 & t0' & sig0 & H0 & H0' & Hc & Hs).
    rewrite <- app_assoc in Hc. simpl in Hc.
    exists t0, t0', sig0. simpl. rewrite Hk.
    join_cases H; simpl; rewrite get_set_same;
      repeat split; auto; try discriminate.
Qed.

Lemma sameLog_refl (ot : option (task DAGNode)) : sameLog ot ot.
Proof. destruct ot as [[|tp ph newObj children]|]; simpl; auto. Qed.

(** Away from [addr] a completion leaves every task accounting for the
    events it accounted for. *)
Lemma complete_frame addr : forall here t g t' g' sig,
  Complete addr here t g = Some (t', g', sig) ->
  forall a, a <> addr -> sameLog (taskAt a t) (taskAt a t').
Proof.
  induction addr as [|k addr IH]; intros here t g t' g' sig H a Ha; simpl in H.
  - destruct a as [|k a]; [contradiction|].
    completeHere_cases H; simpl; apply sameLog_refl.
  - destruct t as [|tp ph newObj children]; [discriminate|].
    destruct (get k children) as [child|] eqn:Hk; [|discriminate].
    destruct (Complete addr (here ++ [k]) child g) as [[[child' g1] sig1]|] eqn:E;
      [|discriminate].
    injection H as H.
    assert (Hch : forall k2 a2, k2 :: a2 = a ->
              sameLog (taskAt (k2 :: a2) (TDir tp ph newObj children))
                      (match get k2 (set k child' children) with
                       | Some c2 => taskAt a2 c2
                       | None => None
                       end)).
    { intros k2 a2 <-. simpl.
      destruct (string_dec k2 k) as [->|Hne].
      - rewrite Hk, get_set_same. eapply IH; eauto. congruence.
      - rewrite get_set_other by assumption. apply sameLog_refl. }
    destruct a as [|k2 a2].
    + join_cases H; simpl; auto.
    + specialize (Hch k2 a2 eq_refl). join_cases H; simpl in *; exact Hch.
Qed.

(** *** Coherence of the task tree *)

Lemma forallb_set (P : task DAGNode -> bool) k v children :
  forallb (fun kv => P (snd kv)) children = true -> P v = true ->
  forallb (fun kv => P (snd kv)) (set k v children) = true.
Proof.
  intros H Hv. induction children as [|[k' v'] children IH]; simpl in *.
  - now rewrite Hv.
  - apply andb_true_iff in H. destruct H as [H1 H2].
    destruct (String.eqb k k'); simpl; rewrite ?Hv, ?H1, ?H2; auto.
Qed.

Lemma forallb_get (P : task DAGNode -> bool) k c children :
  forallb (fun kv => P (snd kv)) children = true -> get k children = Some c ->
  P c = true.
Proof.
  intros H Hk. apply get_In in Hk.
  rewrite forallb_forall in H. exact (H _ Hk).
Qed.

Lemma resolved_not_broken (t : task DAGNode) :
  isResolved t = true -> broken t = false.
Proof. destruct t as [|tp [] newObj children]; simpl; auto; discriminate. Qed.

(** Nothing is pending below a resolved directory. *)
Lemma complete_resolved_none addr : forall here t g,
  coherent t = true -> isResolved t = true -> Complete addr here t g = None.
Proof.
  induction addr as [|k addr IH]; intros here t g Hc Hr.
  - destruct t as [|tp [] newObj children]; simpl in *; auto; discriminate.
  - destruct t as [|tp ph newObj children]; simpl; auto.
    destruct (get k children) as [child|] eqn:Hk; auto.
    simpl in Hc. apply andb_true_iff in Hc. destruct Hc as [Ha Hcs].
    destruct ph; simpl in Hr; try discriminate. simpl in Ha.
    rewrite IH; eauto using forallb_get.
Qed.

Lemma complete_coherent addr : forall here t g t' g' sig,
  coherent t = true ->
  Complete addr here t g = Some (t', g', sig) ->
  coherent t' = true /\ isResolved t = false /\
  match sig with
  | Succeeded c =>
      (exists tp newObj children, t' = TDir tp (Done c) newObj children) /\
      broken t = false
  | Fail e => broken t = false /\ broken t' = true
  | _ => broken t' = broken t /\ isResolved t' = false
  end.
Proof.
  induction addr as [|k addr IH]; intros here t g t' g' sig Hc H; simpl in H.
  - completeHere_cases H; simpl in *; eauto 8.
  - destruct t as [|tp ph newObj children]; [discriminate|].
    destruct (get k children) as [child|] eqn:Hk; [|discriminate].
    destruct (Complete addr (here ++ [k]) child g) as [[[child' g1] sig1]|] eqn:E;
      [|discriminate].
    injection H as H.
    simpl in Hc. apply andb_true_iff in Hc. destruct Hc as [Ha Hcs].
    assert (Hcc : coherent child = true) by eauto using forallb_get.
    destruct (IH _ _ _ _ _ _ Hcc E) as (Hc' & Hu & Hsig).
    assert (Hcs' : forallb (fun kv => coherent (snd kv)) (set k child' children) = true)
      by now apply forallb_set.
    assert (Hph : ph = Waiting \/ ph = Aborted).
    { destruct ph; auto; simpl in Ha;
        rewrite (forallb_get _ _ _ _ Ha Hk) in Hu; discriminate. }
    destruct Hph as [-> | ->]; simpl in Ha.
    + pose proof (forallb_get (fun c => negb (broken c)) _ _ _ Ha Hk) as Hnb.
      apply negb_true_iff in Hnb.
      join_cases H; simpl; rewrite ?Hcs', ?Hall, ?andb_true_r; auto;
        repeat split; auto;
        apply (forallb_set (fun c => negb (broken c))); auto;
        try (destruct Hsig as [(tp' & no' & ch' & ->) _]; reflexivity);
        destruct Hsig as [Hb _]; rewrite Hb, Hnb; reflexivity.
    + join_cases H; simpl; rewrite ?Hcs'; auto.
Qed.

Lemma taskAt_app a : forall s (t : task DAGNode),
  taskAt (a ++ s) t =
  match taskAt a t with Some t1 => taskAt s t1 | None => None end.
Proof.
  induction a as [|k a IH]; intros s t; simpl; auto.
  destruct t as [|tp ph newObj children]; auto.
  destruct (get k children); auto.
Qed.

Lemma coherent_at a : forall (t t1 : task DAGNode),
  coherent t = true -> taskAt a t = Some t1 -> coherent t1 = true.
Proof.
  induction a as [|k a IH]; intros t t1 Hc H; simpl in H.
  - now injection H as <-.
  - destruct t as [|tp ph newObj children]; [discriminate|].
    destruct (get k children) as [child|] eqn:Hk; [|discriminate].
    simpl in Hc. apply andb_true_iff in Hc. destruct Hc as [_ Hcs].
    eauto using forallb_get.
Qed.

(** Every directory above one that has reported an error has done so too. *)
Lemma coherent_broken_up a : forall (t t1 : task DAGNode),
  coherent t = true -> taskAt a t = Some t1 -> broken t1 = true ->
  broken t = true.
Proof.
  induction a as [|k a IH]; intros t t1 Hc H Hb; simpl in H.
  - now injection H as ->.
  - destruct t as [|tp ph newObj children]; [discriminate|].
    destruct (get k children) as [child|] eqn:Hk; [|discriminate].
    simpl in Hc. apply andb_true_iff in Hc. destruct Hc as [Ha Hcs].
    assert (Hbc : broken child = true) by eauto using forallb_get.
    destruct ph; simpl in *; auto;
      try (pose proof (forallb_get (fun c => negb (broken c)) _ _ _ Ha Hk) as Hn;
           simpl in Hn; rewrite Hbc in Hn; discriminate);
      pose proof (forallb_get _ _ _ _ Ha Hk) as Hr;
      apply resolved_not_broken in Hr; congruence.
Qed.

Lemma resolved_joined (t : task DAGNode) : isResolved t = true -> joined t = true.
Proof. destruct t as [|tp [] newObj children]; simpl; auto. Qed.

(** Everything below a directory whose join has succeeded is resolved. *)
Lemma coherent_joined_down s : forall (t t2 : task DAGNode),
  coherent t = true -> joined t = true -> s <> [] ->
  taskAt s t = Some t2 -> isResolved t2 = true.
Proof.
  induction s as [|k s IH]; intros t t2 Hc Hj Hs H; [contradiction|].
  simpl in H.
  destruct t as [|tp ph newObj children]; [discriminate|].
  destruct (get k children) as [child|] eqn:Hk; [|discriminate].
  simpl in Hc. apply andb_true_iff in Hc. destruct Hc as [Ha Hcs].
  assert (Hr : isResolved child = true).
  { destruct ph; simpl in Hj; try discriminate; simpl in Ha;
      eauto using forallb_get. }
  destruct s as [|k2 s].
  - simpl in H. now injection H as <-.
  - apply (IH child); eauto using forallb_get, resolved_joined. discriminate.
Qed.

(** *** The events of one completion *)

Lemma eventsAt_snoc a tr ev :
  eventsAt a (tr ++ [ev]) =
  eventsAt a tr ++ (if addr_eq_dec (eventAt ev) a then [ev] else []).
Proof.
  unfold eventsAt. rewrite filter_app. simpl.
  destruct (addr_eq_dec (eventAt ev) a); reflexivity.
Qed.

Lemma sameLog_accounted a (ot ot' : option (task DAGNode)) evs :
  sameLog ot ot' -> accounted a ot evs -> accounted a ot' evs.
Proof.
  destruct ot as [[|p ph no ch]|], ot' as [[|p' ph' no' ch']|]; simpl; auto;
    try contradiction.
  intros [<- [<-|H]] [Hp Hacc]; auto.
  destruct ph, ph'; try contradiction; simpl in *; auto.
Qed.

Lemma completeHere_event here t0 g t0' g' sig0 :
  CompleteHere here t0 g = Some (t0', g', sig0) ->
  exists ev,
    trace g' = trace g ++ [ev] /\ eventAt ev = here /\
    source g' = source g ++ emitted ev /\
    (forall e, sig0 = Fail e -> failureOf ev = Some e) /\
    (failureOf ev <> None -> broken t0' = true) /\
    (forall evs, accounted here (Some t0) evs ->
                 accounted here (Some t0') (evs ++ [ev])).
Proof.
  intros H. completeHere_cases H;
    [ exists (CreateFailed here e)
    | exists (Invoke here links)
    | exists (Returned here tp (inl e))
    | exists (Returned here tp (inr (c, nodeSize n'))) ];
    (split; [simpl; try destruct (truthy tp); try destruct tp; reflexivity|]);
    (split; [reflexivity|]);
    (split; [|split; [|split]]); simpl;
    try (intros evs [Hp ->]; split; auto; simpl; eauto);
    rewrite ?app_nil_r; auto; try congruence.
  destruct tp as [s|]; simpl; [|now rewrite app_nil_r].
  destruct (negb (String.eqb s "")); simpl; auto. now rewrite app_nil_r.
Qed.

(** What one completion in a coherent task tree amounts to. *)
Lemma complete_event addr t g t' g' sig :
  coherent t = true ->
  Complete addr [] t g = Some (t', g', sig) ->
  exists ev,
    trace g' = trace g ++ [ev] /\ eventAt ev = addr /\
    source g' = source g ++ emitted ev /\
    (forall e, sig = Fail e -> failureOf ev = Some e) /\
    (failureOf ev <> None -> broken t' = true) /\
    (logged t (trace g) -> logged t' (trace g')).
Proof.
  intros Hc H.
  destruct (complete_coherent _ _ _ _ _ _ _ Hc H) as (Hc' & _ & _).
  destruct (complete_at _ _ _ _ _ _ _ H) as (t0 & t0' & sig0 & H0 & H0' & Hh & Hs).
  simpl in Hh.
  destruct (completeHere_event _ _ _ _ _ _ Hh)
    as (ev & Htr & Hat & Hsrc & Hf & Hb & Hacc).
  exists ev. repeat split; auto.
  - intros Hfail. eapply coherent_broken_up; eauto.
  - intros Hlog a. rewrite Htr, eventsAt_snoc.
    destruct (addr_eq_dec (eventAt ev) a) as [Heq|Hne].
    + rewrite Hat in Heq. subst a. rewrite H0'. apply Hacc.
      rewrite <- H0. apply Hlog.
    + rewrite app_nil_r. eapply sameLog_accounted; [|apply Hlog].
      eapply complete_frame; eauto. congruence.
Qed.

Lemma completeHere_invoke here t0 g t0' g' sig0 a links :
  CompleteHere here t0 g = Some (t0', g', sig0) ->
  trace g' = trace g ++ [Invoke a links] ->
  a = here /\ joined t0 = true.
Proof.
  intros H Htr.
  destruct (completeHere_event _ _ _ _ _ _ H) as (ev & Hev & Hat & _).
  rewrite Hev in Htr. apply app_inj_tail in Htr. destruct Htr as [_ ->].
  simpl in Hat. split; auto.
  completeHere_cases H; reflexivity.
Qed.

Lemma completeHere_dir here t0 g t0' g' sig0 :
  CompleteHere here t0 g = Some (t0', g', sig0) ->
  isDirTask (Some t0) /\ isDirTask (Some t0').
Proof. intros H. completeHere_cases H; simpl; auto. Qed.

Lemma sameLog_dir (ot ot' : option (task DAGNode)) :
  sameLog ot ot' -> (isDirTask ot' <-> isDirTask ot).
Proof.
  destruct ot as [[|p ph no ch]|], ot' as [[|p' ph' no' ch']|]; simpl; tauto.
Qed.

(** A completion changes no leaf into a directory and no directory into a
    leaf. *)
Lemma complete_kind addr here t g t' g' sig :
  Complete addr here t g = Some (t', g', sig) ->
  forall a, isDirTask (taskAt a t') <-> isDirTask (taskAt a t).
Proof.
  intros H a. destruct (addr_eq_dec a addr) as [->|Hne].
  - destruct (complete_at _ _ _ _ _ _ _ H) as (t0 & t0' & sig0 & -> & -> & Hh & _).
    apply completeHere_dir in Hh. tauto.
  - apply sameLog_dir. eapply complete_frame; eauto.
Qed.

Lemma firstFailure_snoc tr ev :
  firstFailure (tr ++ [ev]) =
  match firstFailure tr with Some e => Some e | None => failureOf ev end.
Proof.
  induction tr as [|x tr IH]; simpl.
  - destruct (failureOf ev); reflexivity.
  - destruct (failureOf x); auto.
Qed.

Lemma resolved_done (t : task DAGNode) :
  isResolved t = true -> isDirTask (Some t) ->
  exists p c newObj children, t = TDir p (Done c) newObj children.
Proof.
  destruct t as [|p [] newObj children]; simpl; try discriminate; try contradiction.
  eauto.
Qed.

(** At the moment a directory is handed to [persist], every directory
    below it accounts for an invocation and a successful return. *)
Lemma joined_descendants_returned tree (t : task DAGNode) tr a t0 s :
  coherent t = true -> logged t tr ->
  (forall d, isDirTask (taskAt d t) <-> isDirAt d tree) ->
  taskAt a t = Some t0 -> joined t0 = true ->
  s <> [] -> isDirAt (a ++ s) tree ->
  exists links' c sz,
    eventsAt (a ++ s) tr =
    [Invoke (a ++ s) links'; Returned (a ++ s) (pathTo (a ++ s)) (inr (c, sz))].
Proof.
  intros Hc Hlog Hdir H0 Hj Hs Hd.
  apply Hdir in Hd. pose proof (Hlog (a ++ s)) as Hacc.
  rewrite taskAt_app, H0 in Hd, Hacc.
  destruct (taskAt s t0) as [t2|] eqn:H2; [|contradiction].
  assert (Hr : isResolved t2 = true).
  { apply (coherent_joined_down s t0); auto. eapply coherent_at; eauto. }
  destruct (resolved_done _ Hr Hd) as (p & c & no & ch & ->).
  simpl in Hacc. destruct Hacc as [-> (links' & sz & ->)]. eauto.
Qed.

(** *** The invariant of a run *)

Lemma verdict_unresolved (t : task DAGNode) tr :
  isResolved t = false -> firstFailure tr = None -> verdict t tr = None.
Proof.
  unfold verdict. intros Hr ->.
  destruct t as [|p [] newObj children]; simpl in *; auto; discriminate.
Qed.

Lemma step_sound tree addr st st' :
  sound tree st -> Step addr st = Some st' -> sound tree st'.
Proof.
  unfold sound, step. intros Hs H.
  destruct (thrown st); [discriminate|].
  destruct (tasks st) as [t|]; [|discriminate].
  destruct (Complete addr [] t (glob st)) as [[[t' g'] sig]|] eqn:E; [|discriminate].
  injection H as <-. simpl.
  destruct Hs as (Hc & Hlog & Hdir & Hsrc & Hbrk & Hcb & Hpo).
  destruct (complete_coherent _ _ _ _ _ _ _ Hc E) as (Hc' & Hu & Hsig).
  destruct (complete_event _ _ _ _ _ _ Hc E)
    as (ev & Htr & Hat & Hsrc' & Hfail & Hbev & Hlog').
  assert (Hff : firstFailure (trace g') =
                match firstFailure (trace (glob st)) with
                | Some e => Some e
                | None => failureOf ev
                end) by (rewrite Htr; apply firstFailure_snoc).
  split; [exact Hc'|]. split; [auto|].
  split; [intros a; rewrite (complete_kind _ _ _ _ _ _ _ E a); apply Hdir|].
  split; [rewrite Hsrc', Htr, flat_map_app, Hsrc; simpl; now rewrite app_nil_r|].
  assert (Hvb : (broken t' = true <-> firstFailure (trace g') <> None) /\
                match sig with
                | Succeeded c => Some (Root c)
                | Fail e => Some (Failure e)
                | _ => callback st
                end = verdict t' (trace g')).
  { unfold verdict in *.
    destruct (firstFailure (trace (glob st))) as [e1|] eqn:Hf1; rewrite Hff.
    - assert (Hb : broken t = true) by (apply Hbrk; discriminate).
      destruct sig as [|c|e|e]; try (destruct Hsig; congruence);
        destruct Hsig as [Hb' _]; rewrite Hb', Hb;
        (split; [split; congruence|exact Hcb]).
    - assert (Hb : broken t = false).
      { destruct (broken t); auto. exfalso. now apply (proj1 Hbrk). }
      assert (Hquiet : broken t' = broken t /\ isResolved t' = false ->
                (broken t' = true <-> failureOf ev <> None) /\
                callback st = match failureOf ev with
                              | Some e => Some (Failure e)
                              | None =>
                                  match t' with
                                  | TDir _ (Done c) _ _ => Some (Root c)
                                  | _ => None
                                  end
                              end).
      { intros [Hb' Hr']. rewrite Hb', Hb.
        destruct (failureOf ev) eqn:Hfe;
          [assert (broken t' = true) by (apply Hbev; discriminate); congruence|].
        split; [split; congruence|].
        rewrite Hcb.
        destruct t as [|p [] no ch], t' as [|p' [] no' ch'];
          simpl in *; auto; discriminate. }
      destruct sig as [|c|e|e]; auto.
      + destruct Hsig as [(tp & no & ch & ->) _]. simpl in *.
        destruct (failureOf ev) eqn:Hfe;
          [assert (false = true) by (apply Hbev; discriminate); discriminate|].
        split; [split; congruence|reflexivity].
      + destruct Hsig as [_ Hb']. rewrite (Hfail e eq_refl), Hb'.
        split; [split; congruence|reflexivity]. }
  destruct Hvb as [Hv1 Hv2]. split; [exact Hv1|]. split; [exact Hv2|].
  intros pre a links post Hdec s Hne Hd.
  rewrite Htr in Hdec.
  destruct post as [|x post] using rev_ind.
  - apply app_inj_tail in Hdec. destruct Hdec as [<- ->].
    destruct (complete_at _ _ _ _ _ _ _ E) as (t0 & t0' & sig0 & H0 & _ & Hh & _).
    destruct (completeHere_invoke _ _ _ _ _ _ a links Hh Htr) as [-> Hj].
    simpl in *.
    apply (joined_descendants_returned tree t (trace (glob st)) addr t0 s); auto.
  - clear IHpost. rewrite app_comm_cons, app_assoc in Hdec.
    apply app_inj_tail in Hdec. destruct Hdec as [Hdec _].
    eapply Hpo; eauto.
Qed.

(** *** The initial state *)

Lemma node_nested_ind (P : node -> Prop) :
  (forall c, P (Leaf c)) ->
  (forall entries, Forall (fun kv => P (snd kv)) entries -> P (Dir entries)) ->
  forall n, P n.
Proof.
  intros HL HD. fix IH 1. intros [c|entries].
  - apply HL.
  - apply HD. induction entries as [|kv entries IHe]; constructor.
    + apply IH.
    + exact IHe.
Qed.

Lemma get_map_keyed V V' (f : string -> V -> V') k (o : obj V) :
  get k (map (fun kv => (fst kv, f (fst kv) (snd kv))) o) =
  option_map (f k) (get k o).
Proof.
  induction o as [|[k' v] o IH]; simpl; auto.
  destruct (String.eqb k k') eqn:E; auto.
  apply String.eqb_eq in E. now subst.
Qed.

(** The phases a directory can be in when [traverse] returns. *)
Lemma traverseNode_dir sizeIndex p tree :
  exists ph newObj,
    @traverseNode DAGNode newCID sizeIndex p (Dir tree) =
    TDir p ph newObj
      (map (fun kv => (fst kv, traverseNode newCID sizeIndex (childPath p (fst kv)) (snd kv)))
         tree) /\
    (ph = Waiting \/ (exists links, ph = Creating links) \/ (exists e, ph = Thrown e)) /\
    (ph <> Waiting -> forallb (fun kv => passes (snd kv)) tree = true).
Proof.
  simpl. destruct (forallb (fun kv => passes (snd kv)) tree) eqn:E.
  - do 2 eexists. split; [reflexivity|]. split; [right|auto].
    unfold linked. destruct (makeLinks _ _ _); eauto.
  - do 2 eexists. split; [reflexivity|]. split; [left; auto|congruence].
Qed.

Lemma traverseNode_fresh sizeIndex p n :
  broken (@traverseNode DAGNode newCID sizeIndex p n) = false /\
  (isResolved (@traverseNode DAGNode newCID sizeIndex p n) = true -> passes n = true).
Proof.
  destruct n as [c|tree]; [simpl; auto|].
  destruct (traverseNode_dir sizeIndex p tree)
    as (ph & no & -> & [->|[[links ->]|[e ->]]] & _);
    simpl; split; auto; discriminate.
Qed.

Lemma traverseNode_coherent sizeIndex n : forall p,
  coherent (@traverseNode DAGNode newCID sizeIndex p n) = true.
Proof.
  induction n as [c|tree IH] using node_nested_ind; intros p; [reflexivity|].
  destruct (traverseNode_dir sizeIndex p tree) as (ph & no & -> & Hph & Hleaf).
  simpl. apply andb_true_iff. split.
  - destruct Hph as [->|Hph]; simpl.
    + clear. induction tree as [|[k n] tree IHt]; simpl; auto.
      rewrite (proj1 (traverseNode_fresh sizeIndex (childPath p k) n)). auto.
    + assert (Hl : forallb (fun kv => passes (snd kv)) tree = true)
        by (apply Hleaf; destruct Hph as [[links ->]|[e ->]]; discriminate).
      assert (Hres : forallb (fun kv => isResolved (snd kv))
                (map (fun kv => (fst kv,
                        @traverseNode DAGNode newCID sizeIndex (childPath p (fst kv)) (snd kv)))
                   tree) = true).
      { clear - Hl. induction tree as [|[k n] tree IHt]; simpl in *; auto.
        apply andb_true_iff in Hl. destruct Hl as [Hn Hl].
        destruct n; [|discriminate]. simpl. auto. }
      destruct Hph as [[links ->]|[e ->]]; exact Hres.
  - clear - IH. induction IH as [|[k n] tree Hn _ IHt]; simpl; auto.
    simpl in Hn. now rewrite Hn, IHt.
Qed.

Lemma taskAt_traverseNode sizeIndex a : forall p n,
  taskAt a (@traverseNode DAGNode newCID sizeIndex p n) =
  option_map (traverseNode newCID sizeIndex (fold_left childPath a p)) (nodeAt a n).
Proof.
  induction a as [|k a IH]; intros p n; [reflexivity|].
  destruct n as [c|tree]; [reflexivity|].
  destruct (traverseNode_dir sizeIndex p tree) as (ph & no & -> & _).
  simpl taskAt. simpl nodeAt. simpl fold_left.
  rewrite (get_map_keyed _ _
             (fun key v => traverseNode newCID sizeIndex (childPath p key) v)).
  destruct (get k tree) as [child|]; simpl; auto.
Qed.

Lemma walked_Dir tree : walked isBuffer fields (Dir tree) = Dir (Built tree).
Proof. reflexivity. Qed.

(** The state in which the descent of [traverse] leaves a walked tree. *)
Lemma traverse_sound tree si (g : globals W) cb th :
  trace g = [] -> source g = [] ->
  sound tree
    {| tasks := Some (@traverseNode DAGNode newCID si None (Dir tree));
       glob := g; callback := cb; thrown := th |} <-> cb = None.
Proof.
  intros Htr Hsrc. unfold sound. cbn [tasks glob callback].
  rewrite Htr, Hsrc.
  assert (Hat : forall a,
            match taskAt a (@traverseNode DAGNode newCID si None (Dir tree)) with
            | Some (TLeaf _) => exists c, nodeAt a (Dir tree) = Some (Leaf c)
            | Some (TDir p ph _ _) =>
                p = pathTo a /\
                (ph = Waiting \/ (exists links, ph = Creating links) \/
                 (exists e, ph = Thrown e)) /\
                isDirAt a tree
            | None => ~ isDirAt a tree
            end).
  { intros a. rewrite taskAt_traverseNode. unfold isDirAt.
    destruct (nodeAt a (Dir tree)) as [[c|tree']|]; unfold option_map.
    - simpl. eauto.
    - destruct (traverseNode_dir si (fold_left childPath a None) tree')
        as (ph & no & -> & Hph & _).
      repeat split; eauto.
    - intros [entries H]. discriminate. }
  destruct (traverseNode_dir si None tree) as (ph & no & Heq & Hph & _).
  assert (Hv : verdict (@traverseNode DAGNode newCID si None (Dir tree)) [] = None).
  { rewrite Heq. unfold verdict. simpl.
    destruct Hph as [->|[[links ->]|[e ->]]]; reflexivity. }
  split.
  - intros (_ & _ & _ & _ & _ & Hcb & _). now rewrite Hcb.
  - intros ->.
    split; [apply traverseNode_coherent|].
    split.
    { intros a. specialize (Hat a). unfold accounted, eventsAt. simpl filter.
      destruct (taskAt a _) as [[c|p ph' no' ch]|]; auto.
      destruct Hat as (-> & [->|[[links ->]|[e ->]]] & _); simpl; auto. }
    split.
    { intros a. specialize (Hat a).
      destruct (taskAt a _) as [[c|p ph' no' ch]|]; simpl; try tauto.
      destruct Hat as [c' Hc']. split; [tauto|].
      intros [entries He]. congruence. }
    split; [reflexivity|].
    split.
    { rewrite Heq. simpl.
      split; [destruct Hph as [->|[[links ->]|[e ->]]]; discriminate | congruence]. }
    split; [now rewrite Hv|].
    intros pre a links post Hdec. destruct pre; discriminate.
Qed.

Lemma flushTree_sound files w :
  sound (Built (createTree toPathComponents files)) (FlushTree files w).
Proof.
  unfold flushTree.
  destruct (Nat.ltb _ _); [unfold sound; simpl; auto|].
  destruct (Nat.eqb _ _); [unfold sound; simpl; auto|].
  cbv zeta. unfold traverse. rewrite walked_Dir.
  destruct (raised _); [unfold sound; simpl; auto|].
  now apply traverse_sound.
Qed.

(** Every run of [flushTree] keeps the invariant. *)
Lemma run_sound files w schedule :
  sound (Built (createTree toPathComponents files)) (Run schedule (FlushTree files w)).
Proof.
  apply run_invariant.
  - intros addr st st'. apply step_sound.
  - apply flushTree_sound.
Qed.

(** *** The pending call of a directory *)

(** A completion at [addr] goes through whatever the directories above
    are doing: it is the pending call of the task at [addr]. *)
Lemma complete_reaches addr : forall here (t : task DAGNode) g t0 t0' g' sig0,
  taskAt addr t = Some t0 ->
  CompleteHere (here ++ addr) t0 g = Some (t0', g', sig0) ->
  exists t' sig, Complete addr here t g = Some (t', g', sig).
Proof.
  induction addr as [|k addr IH]; intros here t g t0 t0' g' sig0 Hat Hh.
  - simpl in Hat. injection Hat as ->. rewrite app_nil_r in Hh. simpl. eauto.
  - simpl in Hat. destruct t as [|tp ph no ch]; [discriminate|].
    destruct (get k ch) as [child|] eqn:Hk; [|discriminate].
    simpl. rewrite Hk.
    destruct (IH (here ++ [k]) child g t0 t0' g' sig0 Hat) as (c' & sig1 & ->).
    { now rewrite <- app_assoc. }
    destruct (join newCID tp ph no (set k c' ch) k g' sig1) as [[t' g2] sig2] eqn:J.
    pose proof (join_glob _ _ _ _ _ _ _ _ _ _ J) as ->. eauto.
Qed.

Lemma step_pending addr (st : state W DAGNode) t t0 t0' g' sig0 :
  thrown st = None -> tasks st = Some t -> taskAt addr t = Some t0 ->
  CompleteHere addr t0 (glob st) = Some (t0', g', sig0) ->
  exists st', Step addr st = Some st' /\ glob st' = g'.
Proof.
  intros Hth Ht Hat Hh.
  destruct (complete_reaches addr [] t (glob st) t0 t0' g' sig0 Hat Hh)
    as (t' & sig & Hc).
  unfold step. rewrite Hth, Ht, Hc. eexists. split; reflexivity.
Qed.

(** *** The size index *)

Lemma replay_app ws ws' :
  replay (ws ++ ws') =
  fold_left (fun sizeIndex kv => set (fst kv) (snd kv) sizeIndex) ws' (replay ws).
Proof. unfold replay. now rewrite fold_left_app. Qed.

Lemma createSizeIndex_replay files :
  createSizeIndex files = replay (map (fun f => (f.(cid), f.(size))) files).
Proof.
  unfold createSizeIndex, replay. generalize (@nil (string * Z)).
  induction files as [|f files IH]; intros o; simpl; auto.
Qed.

(** A completion assigns to the size index what its event tells. *)
Lemma completeHere_assigned here (t0 : task DAGNode) g t0' g' sig0 :
  CompleteHere here t0 g = Some (t0', g', sig0) ->
  exists ev,
    trace g' = trace g ++ [ev] /\
    sizeIndex g' =
    fold_left (fun sizeIndex kv => set (fst kv) (snd kv) sizeIndex)
      (assigned ev) (sizeIndex g).
Proof.
  intros H. completeHere_cases H;
    try (eexists; split; [reflexivity|]; reflexivity).
  exists (Returned here tp (inr (c, nodeSize n'))).
  destruct (truthy tp); [destruct tp|]; split; reflexivity.
Qed.

Lemma step_assigned files addr (st st' : state W DAGNode) :
  sizeIndex (glob st) = replay (assignments files (trace (glob st))) ->
  Step addr st = Some st' ->
  sizeIndex (glob st') = replay (assignments files (trace (glob st'))).
Proof.
  intros Hst H. apply step_inv in H.
  destruct H as (_ & t & t' & g' & sig & _ & Hc & _ & <- & _).
  apply complete_target in Hc. destruct Hc as (t0 & t0' & sig0 & Hc).
  apply completeHere_assigned in Hc. destruct Hc as (ev & Htr & Hsi).
  rewrite Hsi, Htr, Hst. unfold assignments.
  rewrite flat_map_app. cbn [flat_map]. rewrite app_nil_r, app_assoc.
  symmetry. apply replay_app.
Qed.

Lemma flushTree_started files w :
  callback (FlushTree files w) = None ->
  glob (FlushTree files w) = seeded w files.
Proof.
  unfold flushTree.
  destruct (Nat.ltb _ _); [discriminate|].
  destruct (Nat.eqb _ _); [discriminate|].
  cbv zeta. destruct (raised _); reflexivity.
Qed.


(** *** No lookup error *)

Lemma makeLinks_inl si (tree : obj Cid) e :
  makeLinks newCID si tree = inl e -> exists v, newCID v = inl e.
Proof.
  induction tree as [|[k v] tree IH]; simpl; [discriminate|].
  destruct (newCID v) as [e'|b] eqn:Hv.
  - intros [= <-]. eauto.
  - destruct (makeLinks newCID si tree) as [e'|links]; [|discriminate].
    intros [= <-]. auto.
Qed.

(** An exception that a completion lets through is one of the CID
    constructor. *)
Lemma complete_threw addr : forall here (t : task DAGNode) g t' g' e,
  Complete addr here t g = Some (t', g', Threw e) -> exists v, newCID v = inl e.
Proof.
  induction addr as [|k addr IH]; intros here t g t' g' e H; simpl in H.
  - completeHere_cases H.
  - destruct t as [|tp ph newObj children]; [discriminate|].
    destruct (get k children) as [child|] eqn:Hk; [|discriminate].
    destruct (Complete addr (here ++ [k]) child g) as [[[child' g1] sig1]|] eqn:E;
      [|discriminate].
    injection H as H. join_cases H; eauto using makeLinks_inl.
Qed.

Lemma traverseNode_raised si n : forall p e,
  raised (@traverseNode DAGNode newCID si p n) = Some e ->
  exists v, newCID v = inl e.
Proof.
  induction n as [c|tree IH] using node_nested_ind; intros p e; [discriminate|].
  simpl. set (ph := if forallb _ tree then _ else _).
  assert (Hph : forall e', match ph with
                           | TDir _ (Thrown e0) _ _ => Some e0
                           | _ => None
                           end = Some e' -> exists v, newCID v = inl e').
  { subst ph. destruct (forallb _ tree); [|discriminate].
    unfold linked. destruct (makeLinks _ _ _) eqn:Hl; [|discriminate].
    intros e' [= <-]. eauto using makeLinks_inl. }
  assert (Hfold : forall base,
            (forall e', base = Some e' -> exists v, newCID v = inl e') ->
            fold_right (fun kv later =>
                          match raised (snd kv) with
                          | Some e0 => Some e0
                          | None => later
                          end) base
              (map (fun kv => (fst kv,
                      @traverseNode DAGNode newCID si (childPath p (fst kv)) (snd kv)))
                 tree) = Some e ->
            exists v, newCID v = inl e).
  { intros base Hbase. clear Hph ph.
    induction IH as [|[k n] tree Hn _ IHt]; simpl; [apply Hbase|].
    destruct (raised _) as [e0|] eqn:Hr; [|exact IHt].
    intros [= <-]. eapply Hn; eauto. }
  subst ph. destruct (forallb _ tree); simpl.
  - apply Hfold. intros e'. apply (Hph e').
  - apply Hfold. discriminate.
Qed.

Lemma makeLinks_inr si (tree : obj Cid) : forall links,
  makeLinks newCID si tree = inr links -> Forall2 (linkFor newCID si) tree links.
Proof.
  induction tree as [|[k v] tree IH]; simpl; intros links.
  - intros [= <-]. constructor.
  - destruct (newCID v) as [e|b] eqn:Hv; [discriminate|].
    destruct (makeLinks newCID si tree) as [e|links']; [discriminate|].
    intros [= <-]. constructor; auto.
    unfold linkFor. simpl. eauto.
Qed.

Lemma taskAt_cons k a tp ph no (ch : obj (task DAGNode)) :
  taskAt (k :: a) (TDir tp ph no ch) =
  match get k ch with Some child => taskAt a child | None => None end.
Proof. reflexivity. Qed.

Lemma traverseNode_built si a : forall p n,
  builtAt newCID (taskAt a (@traverseNode DAGNode newCID si p n)).
Proof.
  intros p n. rewrite taskAt_traverseNode.
  destruct (nodeAt a n) as [[c|tree]|]; simpl; auto.
  destruct (forallb _ tree); simpl; auto.
  unfold linked. destruct (makeLinks _ _ _) eqn:Hl; simpl; auto.
  eauto using makeLinks_inr.
Qed.

(** A completion leaves every directory in flight with the links of its
    results. *)
Lemma complete_built addr : forall here (t : task DAGNode) g t' g' sig,
  coherent t = true ->
  Complete addr here t g = Some (t', g', sig) ->
  (forall a, builtAt newCID (taskAt a t)) ->
  forall a, builtAt newCID (taskAt a t').
Proof.
  induction addr as [|k addr IH]; intros here t g t' g' sig Hc H Hb a; simpl in H.
  - destruct a as [|k a].
    + specialize (Hb []). completeHere_cases H; simpl in *; auto.
    + specialize (Hb (k :: a)). completeHere_cases H; simpl in *; auto.
  - destruct t as [|tp ph newObj children]; [discriminate|].
    destruct (get k children) as [child|] eqn:Hk; [|discriminate].
    destruct (Complete addr (here ++ [k]) child g) as [[[child' g1] sig1]|] eqn:E;
      [|discriminate].
    injection H as H.
    pose proof Hc as Hc0.
    simpl in Hc. apply andb_true_iff in Hc. destruct Hc as [Ha Hcs].
    assert (Hcc : coherent child = true) by eauto using forallb_get.
    destruct (complete_coherent _ _ _ _ _ _ _ Hcc E) as (_ & Hu & _).
    assert (Hph : ph = Waiting \/ ph = Aborted).
    { destruct ph; auto; simpl in Ha;
        rewrite (forallb_get _ _ _ _ Ha Hk) in Hu; discriminate. }
    assert (Hchild : forall a2, builtAt newCID (taskAt a2 child')).
    { apply (IH _ _ _ _ _ _ Hcc E). intros a2. specialize (Hb (k :: a2)).
      rewrite taskAt_cons, Hk in Hb. exact Hb. }
    assert (Hbelow : forall k2 a2 ph' no',
              builtAt newCID (taskAt (k2 :: a2) (TDir tp ph' no' (set k child' children)))).
    { intros k2 a2 ph' no'. rewrite taskAt_cons.
      destruct (string_dec k2 k) as [->|Hne].
      - rewrite get_set_same. apply Hchild.
      - rewrite get_set_other by assumption.
        specialize (Hb (k2 :: a2)). now rewrite taskAt_cons in Hb. }
    destruct a as [|k2 a2].
    + destruct Hph as [-> | ->]; join_cases H; simpl; auto.
      eauto using makeLinks_inr.
    + join_cases H; apply Hbelow.
Qed.

Lemma step_built tree addr (st st' : state W DAGNode) :
  sound tree st ->
  (forall t a, tasks st = Some t -> builtAt newCID (taskAt a t)) ->
  Step addr st = Some st' ->
  forall t a, tasks st' = Some t -> builtAt newCID (taskAt a t).
Proof.
  intros Hs Hb H t' a Ht'. apply step_inv in H.
  destruct H as (_ & t & t1 & g' & sig & Ht & Hc & Ht1 & _).
  rewrite Ht1 in Ht'. injection Ht' as <-.
  unfold sound in Hs. rewrite Ht in Hs. destruct Hs as (Hcoh & _).
  eapply complete_built; eauto.
Qed.

Lemma flushTree_built files w t a :
  tasks (FlushTree files w) = Some t -> builtAt newCID (taskAt a t).
Proof.
  unfold flushTree.
  destruct (Nat.ltb _ _); [discriminate|].
  destruct (Nat.eqb _ _); [discriminate|].
  cbv zeta. destruct (raised _); [discriminate|].
  simpl. intros [= <-]. apply traverseNode_built.
Qed.

Lemma run_built files w schedule t a :
  tasks (Run schedule (FlushTree files w)) = Some t -> builtAt newCID (taskAt a t).
Proof.
  revert t a.
  assert (H : sound (Built (createTree toPathComponents files))
                (Run schedule (FlushTree files w)) /\
              forall t a, tasks (Run schedule (FlushTree files w)) = Some t ->
                          builtAt newCID (taskAt a t)).
  { apply (run_invariant (fun st =>
             sound (Built (createTree toPathComponents files)) st /\
             forall t a, tasks st = Some t -> builtAt newCID (taskAt a t))).
    - intros addr st st' [Hs Hb] Hstep. split.
      + eapply step_sound; eauto.
      + eapply step_built; eauto.
    - split; [apply flushTree_sound|]. intros t a. apply flushTree_built. }
  exact (proj2 H).
Qed.

Lemma step_failure_origin addr (st st' : state W DAGNode) e :
  Step addr st = Some st' -> callback st' = Some (Failure e) ->
  callback st = Some (Failure e) \/
  (exists links, DAGNode_create links = inl e) \/
  (exists n w0 w1, persist n w0 = (inl e, w1)).
Proof.
  intros H Hcb. apply step_inv in H.
  destruct H as (_ & t & t' & g' & sig & _ & Hc & _ & _ & Hcb' & _).
  rewrite Hcb in Hcb'. destruct sig as [|c|e'|e']; auto; [discriminate|].
  injection Hcb' as ->. right.
  destruct (complete_at _ _ _ _ _ _ _ Hc) as (t0 & t0' & sig0 & _ & _ & Hh & Hs).
  rewrite (Hs e' eq_refl) in Hh.
  completeHere_cases Hh; eauto.
Qed.


(** *** Post-order persistence *)

Lemma filter_cons_inv A (f : A -> bool) l x r :
  filter f l = x :: r -> exists l1 l2, l = l1 ++ x :: l2 /\ filter f l2 = r.
Proof.
  induction l as [|z l IH]; simpl; [discriminate|].
  destruct (f z).
  - intros [= -> <-]. exists [], l. auto.
  - intros H. destruct (IH H) as (l1 & l2 & -> & Hr).
    exists (z :: l1), l2. auto.
Qed.

Lemma filter_two A (f : A -> bool) l x y :
  filter f l = [x; y] -> exists l1 l2 l3, l = l1 ++ x :: l2 ++ y :: l3.
Proof.
  intros H. apply filter_cons_inv in H. destruct H as (l1 & l' & -> & H).
  apply filter_cons_inv in H. destruct H as (l2 & l3 & -> & _). eauto.
Qed.


(** *** Failures *)

Lemma run_app s1 : forall s2 (st : state W DAGNode),
  Run (s1 ++ s2) st = Run s2 (Run s1 st).
Proof.
  induction s1 as [|a s1 IH]; intros s2 st; simpl; auto.
  destruct (Step a st); auto.
Qed.

Lemma step_trace addr st st' :
  Step addr st = Some st' ->
  exists ev, trace (glob st') = trace (glob st) ++ [ev].
Proof.
  intros H. apply step_inv in H.
  destruct H as (_ & t & t' & g' & sig & _ & E & _ & <- & _).
  apply complete_target in E. destruct E as (t0 & t0' & sig0 & E).
  apply completeHere_event in E. destruct E as (ev & Htr & _). eauto.
Qed.

Lemma run_trace schedule : forall st,
  exists ext, trace (glob (Run schedule st)) = trace (glob st) ++ ext.
Proof.
  induction schedule as [|a schedule IH]; intros st; simpl.
  - exists []. now rewrite app_nil_r.
  - destruct (Step a st) as [st'|] eqn:E; auto.
    destruct (step_trace _ _ _ E) as (ev & Hev).
    destruct (IH st') as (ext & Hext).
    exists (ev :: ext). rewrite Hext, Hev, <- app_assoc. reflexivity.
Qed.

Lemma firstFailure_In tr ev :
  In ev tr -> isFailure ev = true -> exists e, firstFailure tr = Some e.
Proof.
  unfold isFailure. induction tr as [|x tr IH]; intros [] Hf; simpl.
  - subst x. destruct (failureOf ev); eauto. discriminate.
  - destruct (failureOf x); eauto.
Qed.

Lemma firstFailure_app tr ext e :
  firstFailure tr = Some e -> firstFailure (tr ++ ext) = Some e.
Proof.
  induction tr as [|x tr IH]; simpl; [discriminate|].
  destruct (failureOf x); auto.
Qed.

Lemma sound_failure tree (st : state W DAGNode) e :
  sound tree st -> firstFailure (trace (glob st)) = Some e ->
  callback st = Some (Failure e).
Proof.
  unfold sound. destruct (tasks st) as [t|].
  - intros (_ & _ & _ & _ & _ & Hcb & _) Hf. rewrite Hcb. unfold verdict.
    now rewrite Hf.
  - intros [-> _]. discriminate.
Qed.

Lemma sound_no_failure tree (st : state W DAGNode) t :
  sound tree st -> tasks st = Some t -> callback st = None ->
  firstFailure (trace (glob st)) = None.
Proof.
  unfold sound. intros Hs Ht Hcb. rewrite Ht in Hs.
  destruct Hs as (_ & _ & _ & _ & _ & Hv & _).
  rewrite Hcb in Hv. unfold verdict in Hv.
  destruct (firstFailure _); [discriminate|reflexivity].
Qed.

Lemma run_sound_from tree more : forall (st : state W DAGNode),
  sound tree st -> sound tree (Run more st).
Proof.
  intros st. apply run_invariant. intros addr s s'. apply step_sound.
Qed.

(** A persist call that fails: the completion pushes the error, logs the
    failure, and the caller has been told a failure from then on. *)
Lemma failing_persist_step tree (st : state W DAGNode) t a p links n no ch e w' :
  sound tree st ->
  thrown st = None -> tasks st = Some t ->
  taskAt a t = Some (TDir p (Persisting links n) no ch) ->
  persist n (ipld (glob st)) = (inl e, w') ->
  exists st',
    Step a st = Some st' /\
    source (glob st') = source (glob st) ++ [failedToStore] /\
    trace (glob st') = trace (glob st) ++ [Returned a p (inl e)] /\
    exists e0,
      firstFailure (trace (glob st')) = Some e0 /\
      (callback st = None -> e0 = e) /\
      forall more, callback (Run more st') = Some (Failure e0).
Proof.
  intros Hs Hth Ht Hat Hp.
  destruct (step_pending a st t _
              (TDir p Errored no ch)
              (log (Returned a p (inl e)) (push failedToStore (setIpld w' (glob st))))
              (Fail e) Hth Ht Hat) as (st' & Hstep & Hg).
  { simpl. now rewrite Hp. }
  exists st'. split; [exact Hstep|]. rewrite Hg. simpl.
  split; [reflexivity|]. split; [reflexivity|].
  assert (Hff : firstFailure (trace (glob st) ++ [Returned a p (inl e)]) =
                match firstFailure (trace (glob st)) with
                | Some e1 => Some e1
                | None => Some e
                end) by apply firstFailure_snoc.
  assert (He0 : exists e0,
            firstFailure (trace (glob st) ++ [Returned a p (inl e)]) = Some e0 /\
            (callback st = None -> e0 = e)).
  { rewrite Hff. destruct (firstFailure (trace (glob st))) as [e1|] eqn:Hf1.
    - exists e1. split; auto. intros Hcb.
      rewrite (sound_no_failure tree st t Hs Ht Hcb) in Hf1. discriminate.
    - exists e. auto. }
  destruct He0 as (e0 & He0 & Hfirst).
  exists e0. split; [exact He0|]. split; [exact Hfirst|].
  intros more. apply (sound_failure tree).
  - apply run_sound_from. eapply step_sound; eauto.
  - destruct (run_trace more st') as (ext & ->).
    apply firstFailure_app. rewrite Hg. exact He0.
Qed.

(** C4: at whatever point of whatever run the persist collaborator fails
    for a directory, the completion of that call leaves the caller told a
    failure (the failure of this call when the caller had not been told
    anything before, the earlier failure otherwise), and at every later
    point of the run the caller has been told that failure and no root
    content id, whatever else has completed before or completes
    afterwards. *)
Theorem persist_failure_reported files w schedule t a p links n no ch e w' more :
  let st := run DAGNode_create nodeSize persist newCID schedule
              (flushTree isBuffer fields newCID toPathComponents files w) in
  thrown st = None -> tasks st = Some t ->
  taskAt a t = Some (TDir p (Persisting links n) no ch) ->
  persist n (ipld (glob st)) = (inl e, w') ->
  exists e0,
    callback (run DAGNode_create nodeSize persist newCID (schedule ++ a :: more)
                (flushTree isBuffer fields newCID toPathComponents files w))
    = Some (Failure e0) /\
    (callback st = None -> e0 = e) /\
    forall c,
      callback (run DAGNode_create nodeSize persist newCID (schedule ++ a :: more)
                  (flushTree isBuffer fields newCID toPathComponents files w))
      <> Some (Root c).
Proof.
  cbv zeta. intros Hth Ht Hat Hp.
  destruct (failing_persist_step _ _ _ _ _ _ _ _ _ _ _
              (run_sound files w schedule) Hth Ht Hat Hp)
    as (st' & Hstep & _ & _ & e0 & _ & Hfirst & Hlater).
  exists e0. rewrite run_app. simpl. rewrite Hstep, (Hlater more).
  repeat split; auto. discriminate.
Qed.

(** *** What reaches the sink *)

Lemma firstFailure_none tr ev :
  firstFailure tr = None -> In ev tr -> isFailure ev = false.
Proof.
  unfold isFailure. induction tr as [|x tr IH]; simpl; intros Hf []; 
    destruct (failureOf x) eqn:Hx; try discriminate; subst; auto.
  now rewrite Hx.
Qed.

Lemma eventsAt_In a tr ev : In ev tr -> eventAt ev = a -> In ev (eventsAt a tr).
Proof.
  intros Hin <-. unfold eventsAt. apply filter_In. split; auto.
  destruct (addr_eq_dec (eventAt ev) (eventAt ev)); congruence.
Qed.

Lemma logged_event_dir (t : task DAGNode) tr ev :
  logged t tr -> In ev tr -> isDirTask (taskAt (eventAt ev) t).
Proof.
  intros Hlog Hin. pose proof (Hlog (eventAt ev)) as Hacc.
  pose proof (eventsAt_In _ _ _ Hin eq_refl) as Hev.
  unfold accounted in Hacc.
  destruct (taskAt (eventAt ev) t) as [[c|p ph no ch]|]; simpl; auto;
    rewrite Hacc in Hev; contradiction.
Qed.

Lemma emitted_success d c sz :
  emitted (Returned d (pathTo d) (inr (c, sz))) =
  match pathTo d with
  | Some p => if String.eqb p "" then [] else [SinkRecord p sz c]
  | None => []
  end.
Proof.
  simpl. destruct (pathTo d) as [p|]; auto. simpl.
  destruct (String.eqb p ""); reflexivity.
Qed.

Lemma run_tasks_some schedule : forall (st : state W DAGNode),
  tasks st <> None -> tasks (Run schedule st) <> None.
Proof.
  induction schedule as [|x schedule IH]; intros st Hst; simpl; auto.
  destruct (Step x st) as [st'|] eqn:E; auto.
  apply IH. apply step_inv in E.
  destruct E as (_ & t & t' & g' & sig & _ & _ & -> & _). discriminate.
Qed.

Lemma root_tasks_some files w schedule c :
  callback (Run schedule (FlushTree files w)) = Some (Root c) ->
  tasks (Run schedule (FlushTree files w)) <> None.
Proof.
  destruct (tasks (FlushTree files w)) as [t|] eqn:Ht.
  - intros _. apply run_tasks_some. rewrite Ht. discriminate.
  - rewrite run_no_tasks by assumption. unfold flushTree.
    destruct (Nat.ltb _ _); [discriminate|].
    destruct (Nat.eqb _ _); [discriminate|].
    cbv zeta. destruct (raised _); discriminate.
Qed.

Lemma fold_childPath_named ks : forall s,
  s <> "" -> exists p, fold_left childPath ks (Some s) = Some p /\ p <> "".
Proof.
  induction ks as [|k ks IH]; intros s Hs; simpl; [eauto|].
  assert (E : String.eqb s "" = false) by now apply String.eqb_neq.
  rewrite E. simpl. apply IH. destruct s; [contradiction|discriminate].
Qed.

Lemma keys_Built (tree : obj node) : keys (Built tree) = keys tree.
Proof. unfold walkedTree, keys. rewrite map_map. reflexivity. Qed.

(** Below the top-level object every directory has a path prefix that is
    not empty, when no top-level name is. *)
Lemma pathTo_named files d :
  (forall f, In f files -> hd_error (toPathComponents f.(path)) <> Some "") ->
  isDirAt d (Built (createTree toPathComponents files)) -> d <> [] ->
  exists p, pathTo d = Some p /\ p <> "".
Proof.
  intros Hsplit [entries Hd] Hne. destruct d as [|k d]; [contradiction|].
  unfold pathTo. simpl. apply fold_childPath_named.
  rewrite nodeAt_cons in Hd.
  destruct (get k (Built (createTree toPathComponents files))) as [child|] eqn:Hk;
    [|discriminate].
  assert (Hhas : has k (createTree toPathComponents files) = true).
  { apply has_In_keys. rewrite <- keys_Built. apply has_In_keys.
    unfold has. now rewrite Hk. }
  destruct (has_fold_addFile_inv _ _ _ _ Hhas) as [Hnil|(f & Hin & _ & Htop)];
    [discriminate|].
  unfold topLevel in Htop.
  rewrite stripLeading_id in Htop by (apply Hsplit; assumption).
  intros ->. exact (Hsplit f Hin Htop).
Qed.


Lemma errors_of_emitted tr :
  filter isSinkError (flat_map emitted tr) =
  map (fun _ => failedToStore) (filter isFailure tr).
Proof.
  induction tr as [|ev tr IH]; simpl; auto.
  rewrite filter_app, IH. unfold isFailure.
  destruct ev as [a links|a p [e|[c sz]]|a e]; simpl; auto.
  destruct p as [s|]; simpl; auto.
  destruct (negb (String.eqb s "")); reflexivity.
Qed.

(** C10: at whatever point of whatever run the persist call of a directory
    fails, the completion of that call pushes the error
    [failed to store dirNode] to the sink, and when it is over the caller
    has been told a failure.  At every later point of the run the errors in
    the sink are one per failed call, the failure of this directory is among
    the events, and no directory has failed more than once. *)
Theorem failure_pushes_error files w schedule t a p links n no ch e w' :
  let st := run DAGNode_create nodeSize persist newCID schedule
              (flushTree isBuffer fields newCID toPathComponents files w) in
  thrown st = None -> tasks st = Some t ->
  taskAt a t = Some (TDir p (Persisting links n) no ch) ->
  persist n (ipld (glob st)) = (inl e, w') ->
  exists st',
    step DAGNode_create nodeSize persist newCID a st = Some st' /\
    source (glob st') = source (glob st) ++ [SinkError "failed to store dirNode"] /\
    (exists e0, callback st' = Some (Failure e0)) /\
    forall more,
      let g := glob (run DAGNode_create nodeSize persist newCID more st') in
      filter isSinkError (source g) =
      map (fun _ => SinkError "failed to store dirNode") (filter isFailure (trace g)) /\
      In (Returned a p (inl e)) (trace g) /\
      (forall d, (List.length (filter isFailure (eventsAt d (trace g))) <= 1)%nat).
Proof.
  cbv zeta. intros Hth Ht Hat Hp.
  pose proof (run_sound files w schedule) as Hs.
  destruct (failing_persist_step _ _ _ _ _ _ _ _ _ _ _ Hs Hth Ht Hat Hp)
    as (st' & Hstep & Hsrc & Htr & e0 & _ & _ & Hlater).
  exists st'. split; [exact Hstep|]. split; [exact Hsrc|].
  split; [exists e0; exact (Hlater [])|].
  intros more.
  assert (Hs' : sound (Built (createTree toPathComponents files)) (Run more st')).
  { apply run_sound_from. eapply step_sound; eauto. }
  assert (Hin : In (Returned a p (inl e)) (trace (glob (Run more st')))).
  { destruct (run_trace more st') as (ext & ->). rewrite Htr.
    apply in_or_app. left. apply in_or_app. right. now left. }
  unfold sound in Hs'.
  destruct (tasks (Run more st')) as [t'|].
  - destruct Hs' as (_ & Hlog & _ & Hsrc' & _). split; [|split; [exact Hin|]].
    + rewrite Hsrc'. apply errors_of_emitted.
    + intros d. pose proof (Hlog d) as Hacc. unfold accounted in Hacc.
      destruct (taskAt d t') as [[c|p' ph no' ch']|]; try (rewrite Hacc; simpl; lia).
      destruct Hacc as [_ Hacc].
      destruct ph; simpl in Hacc;
        try (rewrite Hacc; simpl; lia).
      * destruct Hacc as (links' & sz & ->). simpl. lia.
      * destruct Hacc as [(e' & ->)|(links' & e' & ->)]; simpl; lia.
  - destruct Hs' as [Hnil _]. rewrite Hnil in Hin. contradiction.
Qed.

(** *** Scenario B *)

Lemma set_fresh V k (v : V) (o : obj V) :
  ~ In k (keys o) -> set k v o = o ++ [(k, v)].
Proof.
  unfold keys. induction o as [|[k' v'] o IH]; simpl; intros H; auto.
  destruct (String.eqb_spec k k') as [->|Hne]; [exfalso; auto|].
  rewrite IH; auto.
Qed.

(** The results that [mapValues] collects from the properties of a content
    id are these properties. *)
Lemma leafResults_fields (o : obj Cid) : forall acc,
  NoDup (keys o) -> (forall k, In k (keys o) -> ~ In k (keys acc)) ->
  fold_left (fun newObj kv =>
               match snd kv with
               | Leaf c => set (fst kv) c newObj
               | Dir _ => newObj
               end)
    (map (fun kv => (fst kv, Leaf (snd kv))) o) acc = acc ++ o.
Proof.
  induction o as [|[k v] o IH]; intros acc Hnd Hacc; simpl.
  - now rewrite app_nil_r.
  - inversion Hnd as [|? ? Hk Hnd']; subst.
    rewrite set_fresh by (apply Hacc; now left).
    rewrite IH; auto.
    + now rewrite <- app_assoc.
    + intros k' Hk' Hin. unfold keys in Hin. rewrite map_app in Hin.
      apply in_app_or in Hin. destruct Hin as [Hin|[<-|[]]].
      * apply (Hacc k'); [now right|exact Hin].
      * contradiction.
Qed.

Lemma makeLinks_rejects si (tree : obj Cid) k v e :
  In (k, v) tree -> newCID v = inl e ->
  exists e', makeLinks newCID si tree = inl e'.
Proof.
  intros Hin Hv. induction tree as [|[k' v'] tree IH]; [contradiction|].
  simpl. destruct (newCID v') as [e'|b] eqn:Hv'; [eauto|].
  destruct Hin as [[= -> ->]|Hin]; [congruence|].
  destruct (IH Hin) as (e' & ->). eauto.
Qed.

(** [traverse] on a content id that is not a Buffer: every property passes
    [isLeaf], so the links are built at once, from the properties. *)
Lemma traverseNode_fields si p (o : obj Cid) e :
  NoDup (keys o) -> makeLinks newCID si o = inl e ->
  raised (@traverseNode DAGNode newCID si p
            (Dir (map (fun kv => (fst kv, Leaf (snd kv))) o))) = Some e.
Proof.
  intros Hnd He. simpl.
  assert (Hpass : forallb (fun kv => passes (snd kv))
                    (map (fun kv : string * Cid => (fst kv, Leaf (snd kv))) o) = true).
  { clear. induction o; simpl; auto. }
  rewrite Hpass. unfold leafResults.
  rewrite (leafResults_fields o []) by (auto; intros k _ []).
  simpl. unfold linked. rewrite He. simpl.
  clear. induction o as [|[k v] o IH]; simpl; auto.
Qed.

(** The exception of the first child is the exception of the directory. *)
Lemma traverseNode_first si p k n rest e :
  raised (@traverseNode DAGNode newCID si (childPath p k) n) = Some e ->
  raised (@traverseNode DAGNode newCID si p (Dir ((k, n) :: rest))) = Some e.
Proof.
  intros H. simpl. destruct (passes n && _)%bool; simpl; now rewrite H.
Qed.

(** C1 fails in the code: for the two entries [foo/bar.txt] (size 10, id X)
    and [foo/baz.txt] (size 20, id Y) of scenario B, when X is no Buffer but
    an object one of whose own properties the CID constructor refuses (an
    instance of the CID class, the kind of id line 90 is written for),
    [isLeaf] fails on X, [traverse] walks into X as into a directory named
    [foo/bar.txt] and builds links from its properties, and the constructor
    raises its exception.  flushTree makes no persist call, pushes nothing,
    never calls back, and nothing is in flight when the exception reaches
    the caller. *)
Theorem scenarioB_ids_walked X Y w schedule k v e :
  toPathComponents "foo/bar.txt" = ["foo"; "bar.txt"] ->
  toPathComponents "foo/baz.txt" = ["foo"; "baz.txt"] ->
  isBuffer X = false ->
  NoDup (keys (fields X)) -> In (k, v) (fields X) -> newCID v = inl e ->
  let st := run DAGNode_create nodeSize persist newCID schedule
              (flushTree isBuffer fields newCID toPathComponents
                 (scenarioBFiles X Y) w) in
  isLeaf isBuffer (Leaf X) = false /\
  thrown st <> None /\ callback st = None /\ tasks st = None /\
  trace (glob st) = [] /\ source (glob st) = [].
Proof.
  intros splitBar splitBaz HX Hnd Hin Hv. cbv zeta.
  split; [exact HX|].
  destruct (makeLinks_rejects (createSizeIndex (scenarioBFiles X Y)) _ _ _ _ Hin Hv)
    as (e' & He').
  assert (Htree : createTree toPathComponents (scenarioBFiles X Y) =
                  [("foo", Dir [("bar.txt", Leaf X); ("baz.txt", Leaf Y)])]).
  { unfold createTree, scenarioBFiles. simpl fold_left.
    unfold addFile. simpl path. rewrite splitBar, splitBaz. reflexivity. }
  assert (Hst : FlushTree (scenarioBFiles X Y) w =
                {| tasks := None; glob := seeded w (scenarioBFiles X Y);
                   callback := None; thrown := Some e' |}).
  { unfold flushTree. rewrite Htree. cbn [keys map fst List.length Nat.ltb Nat.eqb Nat.leb].
    cbv zeta. unfold traverse.
    cbn [walked map fst snd isLeaf sizeIndex seeded]. rewrite HX.
    rewrite (traverseNode_first _ None "foo" _ [] e'); [reflexivity|].
    apply traverseNode_first.
    apply traverseNode_fields; assumption. }
  rewrite Hst, run_no_tasks by reflexivity. simpl.
  repeat split; auto. discriminate.
Qed.

(** *** Scenario B with Buffers *)

Lemma complete_pending addr here (t : task DAGNode) g r :
  Complete addr here t g = Some r ->
  exists p ph no ch,
    taskAt addr t = Some (TDir p ph no ch) /\
    ((exists links, ph = Creating links) \/ (exists links n, ph = Persisting links n)).
Proof.
  destruct r as [[t' g'] sig]. intros H.
  destruct (complete_at _ _ _ _ _ _ _ H) as (t0 & t0' & sig0 & -> & _ & Hh & _).
  completeHere_cases Hh; do 4 eexists; split; eauto.
Qed.

Lemma scenarioB_start X Y w :
  toPathComponents "foo/bar.txt" = ["foo"; "bar.txt"] ->
  toPathComponents "foo/baz.txt" = ["foo"; "baz.txt"] ->
  isBuffer X = true -> isBuffer Y = true -> (forall c, newCID c = inr c) ->
  X <> Y ->
  stageB X Y (FlushTree (scenarioBFiles X Y) w).
Proof.
  intros splitBar splitBaz HX HY Hnew distinct.
  assert (E : String.eqb Y X = false) by (apply String.eqb_neq; congruence).
  assert (Hst : FlushTree (scenarioBFiles X Y) w =
    {| tasks := Some (rootTask X Y Waiting [] (Creating (fooLinks X Y)));
       glob := {| ipld := w; sizeIndex := [(X, 10%Z); (Y, 20%Z)]; source := [];
                  trace := [] |};
       callback := None; thrown := None |}).
  { unfold flushTree, createTree, scenarioBFiles. simpl fold_left.
    unfold addFile. simpl path. rewrite splitBar, splitBaz. simpl.
    unfold seeded, createSizeIndex. simpl. rewrite E.
    unfold traverse. simpl. rewrite HX, HY. simpl.
    unfold linked. simpl. rewrite !Hnew. simpl.
    rewrite E, !String.eqb_refl. reflexivity. }
  rewrite Hst. apply FooCreating; reflexivity.
Qed.

Ltac pin_address H :=
  match type of H with
  | taskAt ?addr _ = Some _ =>
      unfold rootTask, fooTask in H;
      destruct addr as [|?k [|?k2 [|?k3 ?rest]]]; simpl in H;
      repeat match type of H with
             | context [String.eqb ?a ?b] =>
                 destruct (String.eqb_spec a b); [subst|]; simpl in H
             end;
      try discriminate H
  end.

Ltac not_pending H :=
  try (exfalso; destruct H as [[? H]|[? [? H]]]; discriminate H).

Lemma stageB_step X Y addr (st st' : state W DAGNode) :
  (forall c, newCID c = inr c) ->
  stageB X Y st -> Step addr st = Some st' ->
  stageB X Y st' \/ exists e, firstFailure (trace (glob st')) = Some e.
Proof.
  intros Hnew Hs H. unfold step in H.
  destruct (thrown st); [discriminate H|].
  destruct Hs as [Ht Htr Hsrc Hcb | n Ht Htr Hsrc Hcb | cfoo sfoo Ht Htr Hsrc Hcb
                 | cfoo sfoo n Ht Htr Hsrc Hcb | cfoo sfoo c sroot Ht Htr Hsrc Hcb];
    rewrite Ht in H;
    match type of H with
    | match ?X with _ => _ end = _ => destruct X as [[[t' g'] sig]|] eqn:E; [|discriminate H]
    end;
    injection H as <-;
    destruct (complete_pending _ _ _ _ _ E) as (p & ph & no & ch & Hat & Hph);
    pin_address Hat; injection Hat as <- <- <- <-; not_pending Hph; clear Hph;
    unfold rootTask, fooTask in E; simpl in E.
  - destruct (DAGNode_create (fooLinks X Y)) as [e|n]; simpl in E;
      injection E as <- <- <-; simpl.
    + right. exists e. rewrite Htr. reflexivity.
    + left. apply FooPersisting with (n := n); simpl; auto. now rewrite Htr.
  - destruct (persist n (ipld (glob st))) as [[e|[c n']] w']; simpl in E;
      rewrite ?Hnew in E; simpl in E;
      injection E as <- <- <-; simpl.
    + right. exists e. rewrite Htr. reflexivity.
    + left. apply RootCreating with (cfoo := c) (sfoo := nodeSize n'); simpl; auto.
      * unfold rootLinks. now rewrite get_set_same.
      * now rewrite Htr.
      * now rewrite Hsrc.
  - destruct (DAGNode_create (rootLinks cfoo sfoo)) as [e|n]; simpl in E;
      injection E as <- <- <-; simpl.
    + right. exists e. rewrite Htr. reflexivity.
    + left. apply RootPersisting with (cfoo := cfoo) (sfoo := sfoo) (n := n); simpl; auto. now rewrite Htr.
  - destruct (persist n (ipld (glob st))) as [[e|[c n']] w']; simpl in E;
      injection E as <- <- <-; simpl.
    + right. exists e. rewrite Htr. reflexivity.
    + left. apply RootDone with (cfoo := cfoo) (sfoo := sfoo) (c := c) (sroot := nodeSize n'); simpl; auto.
      now rewrite Htr.
Qed.


(** *** Content ids that the descent does not get past *)

Lemma refused_raised si c p :
  refused isBuffer fields newCID c = true ->
  exists e, raised (@traverseNode DAGNode newCID si p
                      (walked isBuffer fields (Leaf c))) = Some e.
Proof.
  unfold refused. intros H. apply andb_true_iff in H. destruct H as [H Hex].
  apply andb_true_iff in H. destruct H as [Hb Hd].
  apply negb_true_iff in Hb. apply distinct_NoDup in Hd.
  apply existsb_exists in Hex. destruct Hex as ([k v] & Hin & Hv). simpl in Hv.
  destruct (newCID v) as [e|] eqn:Hnew; [|discriminate].
  destruct (makeLinks_rejects si _ _ _ _ Hin Hnew) as (e' & He').
  exists e'. cbn [walked isLeaf]. rewrite Hb. apply traverseNode_fields; assumption.
Qed.

Lemma stocked_raised si : forall n p,
  stocked n = true -> allLeaves (refused isBuffer fields newCID) n = true ->
  exists e, raised (@traverseNode DAGNode newCID si p (walked isBuffer fields n)) = Some e.
Proof.
  induction n as [c|entries IH] using node_nested_ind; intros p Hs Ha.
  - apply refused_raised. exact Ha.
  - destruct entries as [|[k n] rest]; [discriminate|].
    inversion IH as [|? ? Hn _]; subst. simpl in Hn.
    rewrite stocked_Dir in Hs. simpl in Hs.
    apply andb_true_iff in Hs. destruct Hs as [Hs _].
    rewrite allLeaves_Dir in Ha. simpl in Ha.
    apply andb_true_iff in Ha. destruct Ha as [Ha _].
    destruct (Hn (childPath p k) Hs Ha) as (e & He).
    exists e. rewrite walked_Dir. unfold walkedTree. cbn [map fst snd].
    apply traverseNode_first. exact He.
Qed.

(** X24: content ids that the descent does not get past are never flushed.
    When no entry makes the walk of [createTree] leave the plain objects and
    every content id is an object that is no Buffer, one of whose own
    properties the CID constructor refuses, no run of flushTree makes a
    persist call, pushes anything or gives the caller a root content id:
    the built tree has no root or several, or, when it has one, the
    exception of the constructor leaves flushTree and the callback is never
    called. *)
Theorem refused_ids_never_flushed files w schedule :
  tame toPathComponents files = true ->
  (forall f, In f files -> refused isBuffer fields newCID f.(cid) = true) ->
  let st := run DAGNode_create nodeSize persist newCID schedule
              (flushTree isBuffer fields newCID toPathComponents files w) in
  tasks st = None /\ trace (glob st) = [] /\ source (glob st) = [] /\
  (forall c, callback st <> Some (Root c)) /\
  (List.length (keys (createTree toPathComponents files)) = 1%nat ->
   callback st = None /\ thrown st <> None).
Proof.
  intros Htame Href. cbv zeta. unfold flushTree.
  destruct (Nat.ltb 1 _) eqn:Hmany.
  { rewrite run_no_tasks by reflexivity. simpl.
    do 3 (split; [reflexivity|]). split; [discriminate|].
    intros Hone. rewrite Hone in Hmany. discriminate. }
  destruct (Nat.eqb _ 0) eqn:Hnone.
  { rewrite run_no_tasks by reflexivity. simpl.
    do 3 (split; [reflexivity|]). split; [discriminate|].
    intros Hone. rewrite Hone in Hnone. discriminate. }
  cbv zeta.
  assert (Hkids : forallb (fun kv => stocked (snd kv))
                    (createTree toPathComponents files) = true).
  { apply fold_addFile_stocked; auto. }
  assert (Hstocked : stocked (Dir (createTree toPathComponents files)) = true).
  { rewrite stocked_Dir, Hkids. unfold keys in Hnone. rewrite length_map in Hnone.
    now rewrite Hnone. }
  assert (Hleaves : allLeaves (refused isBuffer fields newCID)
                      (Dir (createTree toPathComponents files)) = true).
  { apply fold_addFile_allLeaves; auto. }
  destruct (stocked_raised (sizeIndex (seeded w files)) _ None Hstocked Hleaves)
    as (e & He).
  unfold traverse. rewrite He.
  rewrite run_no_tasks by reflexivity. simpl.
  do 3 (split; [reflexivity|]). split; [discriminate|].
  intros _. split; [reflexivity|discriminate].
Qed.

(** *** After the result *)

Lemma run_stuck more : forall (st : state W DAGNode),
  (forall addr, Step addr st = None) -> Run more st = st.
Proof.
  induction more as [|a more IH]; intros st H; simpl; auto.
  rewrite H. auto.
Qed.

Lemma resolved_stuck (st : state W DAGNode) t addr :
  tasks st = Some t -> coherent t = true -> isResolved t = true ->
  Step addr st = None.
Proof.
  intros Ht Hc Hr. unfold step. rewrite Ht.
  rewrite complete_resolved_none by assumption. now destruct (thrown st).
Qed.

Lemma sound_root_stuck tree (st : state W DAGNode) c :
  sound tree st -> callback st = Some (Root c) -> forall addr, Step addr st = None.
Proof.
  unfold sound. intros Hs Hcb addr.
  destruct (tasks st) as [t|] eqn:Ht;
    [|unfold step; rewrite Ht; now destruct (thrown st)].
  destruct Hs as (Hc & _ & _ & _ & _ & Hv & _).
  rewrite Hcb in Hv. unfold verdict in Hv.
  destruct (firstFailure _); [discriminate|].
  destruct t as [|p [] no ch]; try discriminate.
  eapply resolved_stuck; eauto.
Qed.

(** X8: what the caller has been told is never revised: once the callback
    holds a result (no root, a failure or a root content id) it holds the
    same result after every continuation of the run. *)
Theorem callback_final files w schedule more r :
  callback (run DAGNode_create nodeSize persist newCID schedule
              (flushTree isBuffer fields newCID toPathComponents files w)) = Some r ->
  callback (run DAGNode_create nodeSize persist newCID (schedule ++ more)
              (flushTree isBuffer fields newCID toPathComponents files w)) = Some r.
Proof.
  intros Hcb. rewrite run_app.
  pose proof (run_sound files w schedule) as Hs.
  set (st := Run schedule (FlushTree files w)) in *.
  destruct r as [|e|c].
  - destruct (tasks st) as [t|] eqn:Ht; [|now rewrite run_no_tasks].
    exfalso. unfold sound in Hs. rewrite Ht in Hs.
    destruct Hs as (_ & _ & _ & _ & _ & Hv & _).
    rewrite Hcb in Hv. unfold verdict in Hv.
    destruct (firstFailure _); [discriminate|].
    destruct t as [|p [] no ch]; discriminate.
  - destruct (tasks st) as [t|] eqn:Ht; [|now rewrite run_no_tasks].
    assert (Hf : firstFailure (trace (glob st)) = Some e).
    { unfold sound in Hs. rewrite Ht in Hs.
      destruct Hs as (_ & _ & _ & _ & _ & Hv & _).
      rewrite Hcb in Hv. unfold verdict in Hv.
      destruct (firstFailure _); [congruence|].
      destruct t as [|p [] no ch]; discriminate. }
    apply (sound_failure (Built (createTree toPathComponents files))).
    + unfold st. rewrite <- run_app. apply run_sound.
    + destruct (run_trace more st) as (ext & ->). now apply firstFailure_app.
  - rewrite run_stuck; auto. eapply sound_root_stuck; eauto.
Qed.

(** X9: once the root content id has been given to the caller nothing is
    pending: no continuation of the run changes the store, the size index,
    the sink or the tasks. *)
Theorem quiescent_after_root files w schedule more c :
  callback (run DAGNode_create nodeSize persist newCID schedule
              (flushTree isBuffer fields newCID toPathComponents files w)) = Some (Root c) ->
  run DAGNode_create nodeSize persist newCID (schedule ++ more)
    (flushTree isBuffer fields newCID toPathComponents files w) =
  run DAGNode_create nodeSize persist newCID schedule
    (flushTree isBuffer fields newCID toPathComponents files w).
Proof.
  intros Hcb. rewrite run_app. apply run_stuck.
  eapply sound_root_stuck; eauto. apply run_sound.
Qed.

(** *** Every directory at most once *)

Lemma sound_accounted tree (st : state W DAGNode) d :
  sound tree st ->
  match tasks st with
  | Some t => accounted d (taskAt d t) (eventsAt d (trace (glob st)))
  | None => eventsAt d (trace (glob st)) = []
  end.
Proof.
  unfold sound. destruct (tasks st) as [t|].
  - intros (_ & Hlog & _). apply Hlog.
  - intros [-> _]. reflexivity.
Qed.


(** *** What the sink holds in any run *)

Lemma accounted_returned a (ot : option (task DAGNode)) evs p c sz :
  accounted a ot evs -> In (Returned a p (inr (c, sz))) evs ->
  isDirTask ot /\ p = pathTo a.
Proof.
  unfold accounted. destruct ot as [[c0|p' ph no ch]|];
    try (intros -> []).
  intros [-> Hacc] Hin. split; [exact I|].
  destruct ph; simpl in Hacc;
    repeat match goal with
           | H : exists _, _ |- _ => destruct H
           | H : _ \/ _ |- _ => destruct H
           end; subst evs; simpl in Hin;
    repeat match goal with
           | H : _ \/ _ |- _ => destruct H
           | H : False |- _ => destruct H
           end; try discriminate.
  match goal with H : Returned _ _ _ = Returned _ _ _ |- _ => now injection H end.
Qed.

Lemma emitted_record ev p sz c :
  In (SinkRecord p sz c) (emitted ev) ->
  p <> "" /\ ev = Returned (eventAt ev) (Some p) (inr (c, sz)).
Proof.
  destruct ev as [a links|a q [e|[c' sz']]|a e]; simpl; try contradiction.
  - intros [H|[]]. discriminate.
  - destruct q as [s|]; simpl; [|contradiction].
    destruct (String.eqb_spec s ""); simpl; [contradiction|].
    intros [H|[]]. injection H as -> -> ->. auto.
  - intros [H|[]]. discriminate.
Qed.


(** *** Above a failure *)

Lemma accounted_failure a (ot : option (task DAGNode)) evs ev :
  accounted a ot evs -> In ev evs -> isFailure ev = true ->
  exists p no ch, ot = Some (TDir p Errored no ch).
Proof.
  unfold accounted. destruct ot as [[c0|p' ph no ch]|];
    try (intros -> []).
  intros [-> Hacc] Hin Hf.
  destruct ph; simpl in Hacc; eauto;
    repeat match goal with
           | H : exists _, _ |- _ => destruct H
           end; subst evs; simpl in Hin;
    repeat match goal with
           | H : _ \/ _ |- _ => destruct H
           | H : False |- _ => destruct H
           end; subst ev; discriminate.
Qed.

(** X12: a directory below which the creation or the persisting of some
    directory has failed is never handed to a collaborator: no event of the
    run, then or later, belongs to it. *)
Theorem failure_blocks_ancestors files w schedule ev a s :
  In ev (trace (glob (run DAGNode_create nodeSize persist newCID schedule
                        (flushTree isBuffer fields newCID toPathComponents files w)))) ->
  isFailure ev = true -> eventAt ev = a ++ s -> s <> [] ->
  eventsAt a (trace (glob (run DAGNode_create nodeSize persist newCID schedule
                             (flushTree isBuffer fields newCID toPathComponents files w)))) = [].
Proof.
  intros Hin Hf Hat Hs.
  pose proof (run_sound files w schedule) as Hsound.
  set (st := Run schedule (FlushTree files w)) in *.
  pose proof (sound_accounted _ _ (a ++ s) Hsound) as Hd.
  pose proof (sound_accounted _ _ a Hsound) as Ha.
  unfold sound in Hsound.
  destruct (tasks st) as [t|]; [|exact Ha].
  destruct Hsound as (Hc & _).
  destruct (accounted_failure _ _ _ _ Hd (eventsAt_In _ _ _ Hin Hat) Hf)
    as (p & no & ch & Htd).
  rewrite taskAt_app in Htd.
  destruct (taskAt a t) as [ta|] eqn:Hta; [|discriminate].
  pose proof (coherent_at _ _ _ Hc Hta) as Hca.
  assert (Hb : broken ta = true) by (eapply coherent_broken_up; eauto).
  destruct ta as [c0|pa pha noa cha]; [discriminate|].
  destruct pha; try discriminate.
  - apply Ha.
  - pose proof (coherent_joined_down s _ _ Hca eq_refl Hs Htd) as Hr.
    discriminate.
Qed.

(** *** Returns in post-order *)

Lemma eventsAt_split a pre ev post :
  eventAt ev = a ->
  eventsAt a (pre ++ ev :: post) = eventsAt a pre ++ ev :: eventsAt a post.
Proof.
  intros <-. unfold eventsAt. rewrite filter_app. simpl.
  destruct (addr_eq_dec (eventAt ev) (eventAt ev)); congruence.
Qed.

Lemma accounted_return_invoked a (ot : option (task DAGNode)) l1 p r l2 :
  accounted a ot (l1 ++ Returned a p r :: l2) ->
  exists links, l1 = [Invoke a links].
Proof.
  unfold accounted. destruct ot as [[c0|p' ph no ch]|];
    try (intros H; destruct l1; discriminate H).
  intros [_ Hacc].
  destruct ph; simpl in Hacc;
    try (destruct l1; discriminate Hacc).
  - destruct l1 as [|e1 [|e2 l1]]; discriminate Hacc.
  - destruct Hacc as (links & sz & Hacc).
    destruct l1 as [|e1 [|e2 l1]]; try discriminate Hacc.
    + injection Hacc as -> _. eauto.
    + destruct l1; discriminate Hacc.
  - destruct Hacc as [(e & Hacc)|(links & e & Hacc)];
      destruct l1 as [|e1 [|e2 l1]]; try discriminate Hacc;
      try (destruct l1; discriminate Hacc).
    injection Hacc as -> _. eauto.
Qed.


(** *** The size index in a run *)

Lemma complete_has_mono k addr here (t : task DAGNode) g t' g' sig :
  Complete addr here t g = Some (t', g', sig) ->
  has k (sizeIndex g) = true -> has k (sizeIndex g') = true.
Proof.
  apply (complete_glob_invariant (fun g => has k (sizeIndex g) = true)); auto.
  intros g0 c sz H. simpl. rewrite has_set, H. apply orb_true_r.
Qed.

Lemma run_has_mono k more : forall (st : state W DAGNode),
  has k (sizeIndex (glob st)) = true ->
  has k (sizeIndex (glob (Run more st))) = true.
Proof.
  intros st. apply (run_invariant (fun st => has k (sizeIndex (glob st)) = true)).
  intros addr st0 st' H Hstep. apply step_inv in Hstep.
  destruct Hstep as (_ & t & t' & g' & sig & _ & E & _ & <- & _).
  eapply complete_has_mono; eauto.
Qed.

(** X14: the size index only grows: a content id it knows at some point of
    a run it knows at every later point. *)
Theorem sizeIndex_grows files w schedule more k :
  has k (sizeIndex (glob (run DAGNode_create nodeSize persist newCID schedule
                            (flushTree isBuffer fields newCID toPathComponents files w)))) = true ->
  has k (sizeIndex (glob (run DAGNode_create nodeSize persist newCID (schedule ++ more)
                            (flushTree isBuffer fields newCID toPathComponents files w)))) = true.
Proof. intros H. rewrite run_app. now apply run_has_mono. Qed.

(** *** Sizes are never missing *)

Lemma fold_set_has fs : forall (o : obj Z) c,
  has c (fold_left (fun si f => set f.(cid) f.(size) si) fs o) =
  (has c o || carried fs c)%bool.
Proof.
  induction fs as [|f fs IH]; intros o c; simpl.
  - now rewrite orb_false_r.
  - rewrite IH, has_set. unfold carried. simpl.
    rewrite (String.eqb_sym c (cid f)).
    destruct (String.eqb (cid f) c), (has c o); reflexivity.
Qed.

Lemma createSizeIndex_has files c :
  carried files c = true -> has c (createSizeIndex files) = true.
Proof. intros H. unfold createSizeIndex. now rewrite fold_set_has, H. Qed.

Lemma In_set V k v k' v' (o : obj V) :
  In (k, v) (set k' v' o) -> (k, v) = (k', v') \/ In (k, v) o.
Proof.
  induction o as [|[k2 v2] o IH]; simpl.
  - intros [H|[]]; auto.
  - destruct (String.eqb_spec k' k2); simpl.
    + intros [H|H]; auto. left. congruence.
    + intros [H|H]; auto. destruct (IH H); auto.
Qed.

Lemma leafResults_In tree k c :
  In (k, c) (leafResults tree) -> In (k, Leaf c) tree.
Proof.
  unfold leafResults.
  assert (H : forall acc,
            In (k, c) (fold_left (fun newObj kv =>
                         match snd kv with
                         | Leaf c => set (fst kv) c newObj
                         | Dir _ => newObj
                         end) tree acc) ->
            In (k, c) acc \/ In (k, Leaf c) tree).
  { induction tree as [|[k1 n1] tree IH]; intros acc Hin; simpl in *; auto.
    destruct (IH _ Hin) as [Hacc|Ht]; auto.
    destruct n1 as [c1|d]; simpl in Hacc; auto.
    destruct (In_set _ _ _ _ _ _ Hacc) as [Heq|Hacc']; auto.
    injection Heq as -> ->. auto. }
  intros Hin. destruct (H [] Hin) as [[]|Ht]; auto.
Qed.

Lemma traverseNode_dir_exact sizeIndex p tree :
  exists ph children,
    @traverseNode DAGNode newCID sizeIndex p (Dir tree) =
    TDir p ph (leafResults tree) children /\
    (ph = Waiting \/ ph = linked newCID sizeIndex (leafResults tree)).
Proof.
  simpl. destruct (forallb (fun kv => passes (snd kv)) tree);
    do 2 eexists; split; try reflexivity; auto.
Qed.

(** A tree whose content ids are Buffers is walked as it is. *)
Lemma walked_buffers n :
  allLeaves isBuffer n = true -> walked isBuffer fields n = n.
Proof.
  induction n as [c|tree IH] using node_nested_ind; intros Ha.
  - cbn [walked isLeaf]. simpl in Ha. now rewrite Ha.
  - rewrite walked_Dir. f_equal. rewrite allLeaves_Dir in Ha. unfold walkedTree.
    induction IH as [|[k n] tree Hn _ IHt]; simpl in *; auto.
    apply andb_true_iff in Ha. destruct Ha as [Hn' Ha].
    rewrite Hn, IHt; auto.
Qed.

Lemma makeLinks_sized (si : obj Z) (newObj : obj Cid) : forall links,
  (forall c, newCID c = inr c) ->
  forallb (fun kc => has (snd kc) si) newObj = true ->
  makeLinks newCID si newObj = inr links -> sizedLinks links = true.
Proof.
  unfold sizedLinks, has. intros links Hnew.
  revert links. induction newObj as [|[k c] newObj IH]; simpl; intros links H.
  - intros [= <-]. reflexivity.
  - apply andb_true_iff in H. destruct H as [Hc H]. rewrite Hnew.
    destruct (makeLinks newCID si newObj) as [e|links'] eqn:Hl; [discriminate|].
    intros [= <-]. simpl. rewrite (IH links') by auto.
    destruct (get c si); auto.
Qed.

Lemma sizedTask_mono (si si' : obj Z) (ot : option (task DAGNode)) :
  (forall c, has c si = true -> has c si' = true) ->
  sizedTask si ot -> sizedTask si' ot.
Proof.
  intros Hm. destruct ot as [[c|p ph no ch]|]; simpl; auto.
  intros [Hno Hph]. split; auto.
  rewrite forallb_forall in *. intros kc Hin. auto.
Qed.

Lemma forallb_has_set (si : obj Z) k c (newObj : obj Cid) :
  forallb (fun kc => has (snd kc) si) newObj = true -> has c si = true ->
  forallb (fun kc => has (snd kc) si) (set k c newObj) = true.
Proof.
  intros H Hc. rewrite forallb_forall in *. intros [k' c'] Hin.
  destruct (In_set _ _ _ _ _ _ Hin) as [Heq|Hin']; auto.
  injection Heq as -> ->. exact Hc.
Qed.

Lemma complete_sized addr : forall here (t : task DAGNode) g t' g' sig,
  (forall c, newCID c = inr c) ->
  (forall a, sizedTask (sizeIndex g) (taskAt a t)) ->
  Complete addr here t g = Some (t', g', sig) ->
  (forall a, sizedTask (sizeIndex g') (taskAt a t')) /\
  (forall c, sig = Succeeded c -> has c (sizeIndex g') = true).
Proof.
  induction addr as [|k addr IH]; intros here t g t' g' sig Hnew Hsz H.
  - assert (Hm : forall c, has c (sizeIndex g) = true -> has c (sizeIndex g') = true).
    { intros c. eapply complete_has_mono; eauto. }
    pose proof (Hsz []) as H0. simpl in H, H0.
    assert (Hsub : forall k a, taskAt (k :: a) t' = taskAt (k :: a) t).
    { intros k a. completeHere_cases H; reflexivity. }
    split.
    + intros [|k a].
      * completeHere_cases H; simpl in *; destruct H0 as [Hno Hph];
          split; auto; rewrite forallb_forall in *; intros kc Hin; apply Hm; auto.
      * rewrite Hsub. eapply sizedTask_mono; eauto.
    + intros c ->. completeHere_cases H.
      destruct (truthy tp); [destruct tp|]; simpl; rewrite has_set, String.eqb_refl; auto.
  - simpl in H.
    destruct t as [|tp ph newObj children]; [discriminate|].
    destruct (get k children) as [child|] eqn:Hk; [|discriminate].
    destruct (Complete addr (here ++ [k]) child g) as [[[child' g1] sig1]|] eqn:E;
      [|discriminate].
    injection H as H.
    assert (Hm : forall c, has c (sizeIndex g) = true -> has c (sizeIndex g1) = true).
    { intros c. eapply complete_has_mono; eauto. }
    assert (Hchild : forall a, sizedTask (sizeIndex g) (taskAt a child)).
    { intros a. specialize (Hsz (k :: a)). simpl in Hsz. now rewrite Hk in Hsz. }
    destruct (IH _ _ _ _ _ _ Hnew Hchild E) as [Hchild' Hsucc].
    pose proof (Hsz []) as H0. simpl in H0. destruct H0 as [Hno Hph].
    assert (Hno1 : forallb (fun kc => has (snd kc) (sizeIndex g1)) newObj = true).
    { rewrite forallb_forall in *. intros kc Hin. auto. }
    assert (Hsub : forall k2 a,
              sizedTask (sizeIndex g1)
                (match get k2 (set k child' children) with
                 | Some c2 => taskAt a c2
                 | None => None
                 end)).
    { intros k2 a. destruct (string_dec k2 k) as [->|Hne].
      - rewrite get_set_same. apply Hchild'.
      - rewrite get_set_other by assumption.
        eapply sizedTask_mono; [exact Hm|].
        specialize (Hsz (k2 :: a)). exact Hsz. }
    split.
    + intros [|k2 a].
      * join_cases H; simpl; split; auto;
          try (apply forallb_has_set; auto);
          try (match goal with
               | Hl : makeLinks _ _ _ = inr _ |- _ =>
                   eapply makeLinks_sized; [exact Hnew| |exact Hl]
               end; apply forallb_has_set; auto).
      * join_cases H; simpl; apply Hsub.
    + intros c Hc. join_cases H; discriminate.
Qed.

Lemma forallb_snoc A (f : A -> bool) l x :
  forallb f (l ++ [x]) = (forallb f l && f x)%bool.
Proof. rewrite forallb_app. simpl. now rewrite andb_true_r. Qed.

Lemma step_sized addr (st st' : state W DAGNode) t :
  (forall c, newCID c = inr c) ->
  tasks st = Some t ->
  (forall a, sizedTask (sizeIndex (glob st)) (taskAt a t)) ->
  forallb eventSized (trace (glob st)) = true ->
  Step addr st = Some st' ->
  exists t', tasks st' = Some t' /\
    (forall a, sizedTask (sizeIndex (glob st')) (taskAt a t')) /\
    forallb eventSized (trace (glob st')) = true.
Proof.
  intros Hnew Ht Hsz Htr H. apply step_inv in H.
  destruct H as (_ & t0 & t' & g' & sig & Ht0 & E & Ht' & <- & _).
  rewrite Ht in Ht0. injection Ht0 as <-.
  exists t'. split; auto.
  split; [eapply complete_sized; eauto|].
  destruct (complete_at _ _ _ _ _ _ _ E) as (t0 & t0' & sig0 & H0 & _ & Hh & _).
  pose proof (Hsz addr) as Hs0. rewrite H0 in Hs0.
  completeHere_cases Hh; simpl in *;
    try (destruct (truthy tp); [destruct tp|]; simpl);
    rewrite forallb_snoc, Htr; simpl; auto.
  all: destruct Hs0 as [_ Hl]; exact Hl.
Qed.


(** *** Progress and termination *)

Lemma task_nested_ind (P : task DAGNode -> Prop) :
  (forall c, P (TLeaf c)) ->
  (forall p ph no children,
     Forall (fun kv => P (snd kv)) children -> P (TDir p ph no children)) ->
  forall t, P t.
Proof.
  intros HL HD. fix IH 1. intros [c|p ph no children].
  - apply HL.
  - apply HD. induction children as [|kv children IHc]; constructor.
    + apply IH.
    + exact IHc.
Qed.

Lemma keys_map_keyed V V' (f : string -> V -> V') (o : obj V) :
  keys (map (fun kv => (fst kv, f (fst kv) (snd kv))) o) = keys o.
Proof. unfold keys. rewrite map_map. reflexivity. Qed.

Lemma traverseNode_resolved sizeIndex p n :
  isResolved (@traverseNode DAGNode newCID sizeIndex p n) = passes n.
Proof.
  destruct n as [c|tree]; [reflexivity|].
  destruct (traverseNode_dir sizeIndex p tree)
    as (ph & no & -> & [->|[[links ->]|[e ->]]] & _); reflexivity.
Qed.

(** No exception in a directory: none in its own phase, none below. *)
Lemma raised_parts p (ph : phase DAGNode) no children :
  raised (TDir p ph no children) = None ->
  (forall e, ph <> Thrown e) /\
  Forall (fun kv => raised (snd kv) = None) children.
Proof.
  simpl. induction children as [|[k c] children IH]; simpl.
  - intros H. split; [|constructor]. intros e ->. discriminate.
  - destruct (raised c) eqn:Hc; [discriminate|].
    intros H. destruct (IH H) as [H1 H2]. split; auto.
Qed.

Lemma walked_uniqueKeys n :
  (forall c, distinct (keys (fields c)) = true) ->
  uniqueKeys n = true -> uniqueKeys (walked isBuffer fields n) = true.
Proof.
  intros Hf. induction n as [c|tree IH] using node_nested_ind; intros Hu.
  - cbn [walked]. destruct (isLeaf isBuffer (Leaf c)); [reflexivity|].
    rewrite uniqueKeys_Dir.
    rewrite (keys_map_keyed _ _ (fun _ v => Leaf v)), Hf. simpl.
    generalize (fields c). intros o. induction o; simpl; auto.
  - rewrite walked_Dir. unfold walkedTree.
    rewrite uniqueKeys_Dir in Hu |- *. apply andb_true_iff in Hu.
    destruct Hu as [Hd Hall].
    rewrite (keys_map_keyed _ _ (fun _ v => walked isBuffer fields v)), Hd. simpl.
    clear Hd. induction IH as [|[k n] tree Hn _ IHt]; simpl in *; auto.
    apply andb_true_iff in Hall. destruct Hall as [Hn' Hall].
    rewrite Hn, IHt; auto.
Qed.

Lemma live_parts p (ph : phase DAGNode) no (children : obj (task DAGNode)) :
  live (TDir p ph no children) = true <->
  distinct (keys children) = true /\
  (ph = Waiting -> forallb (fun kv => isResolved (snd kv)) children = false) /\
  (forall e, ph <> Thrown e) /\
  forallb (fun kv => live (snd kv)) children = true.
Proof.
  simpl. rewrite !andb_true_iff. split.
  - intros [[Hd Hw] Hl]. repeat split; auto.
    + intros ->. now apply negb_true_iff.
    + intros e ->. discriminate.
  - intros (Hd & Hw & Ht & Hl). repeat split; auto.
    destruct ph; auto.
    + apply negb_true_iff. auto.
    + exfalso. now apply (Ht e).
Qed.

Lemma traverseNode_live sizeIndex n : forall p,
  uniqueKeys n = true ->
  raised (@traverseNode DAGNode newCID sizeIndex p n) = None ->
  live (@traverseNode DAGNode newCID sizeIndex p n) = true.
Proof.
  induction n as [c|tree IH] using node_nested_ind; intros p Hu Hr; [reflexivity|].
  rewrite uniqueKeys_Dir, andb_true_iff in Hu. destruct Hu as [Hd Hf].
  destruct (traverseNode_dir sizeIndex p tree) as (ph & no & Heq & Hph & Hleaf).
  rewrite Heq in Hr |- *.
  apply raised_parts in Hr. destruct Hr as [Hnt Hkids].
  apply live_parts.
  rewrite (keys_map_keyed _ _
             (fun key v => @traverseNode DAGNode newCID sizeIndex (childPath p key) v)).
  split; [exact Hd|]. split; [|split; [exact Hnt|]].
  - intros ->.
    assert (Hres : forallb (fun kv => isResolved (snd kv))
                     (map (fun kv => (fst kv,
                        @traverseNode DAGNode newCID sizeIndex
                          (childPath p (fst kv)) (snd kv))) tree)
                   = forallb (fun kv => passes (snd kv)) tree).
    { clear. induction tree as [|[k n] tree IHt]; simpl; auto.
      now rewrite traverseNode_resolved, IHt. }
    rewrite Hres.
    destruct (forallb (fun kv => passes (snd kv)) tree) eqn:E; auto.
    simpl in Heq. rewrite E in Heq. unfold linked in Heq.
    destruct (makeLinks _ _ _); discriminate.
  - clear - IH Hf Hkids. induction IH as [|[k n] tree Hn _ IHt]; simpl in *; auto.
    apply andb_true_iff in Hf. destruct Hf as [Hn' Hf].
    inversion Hkids as [|? ? Hk Hkids']; subst. simpl in Hk.
    rewrite Hn, IHt; auto.
Qed.

Lemma keys_set_present V k (v v' : V) o :
  get k o = Some v' -> keys (set k v o) = keys o.
Proof.
  unfold keys. induction o as [|[k' v2] o IH]; simpl; [discriminate|].
  destruct (String.eqb k k') eqn:E; simpl; auto.
  intros H. now rewrite IH.
Qed.

Lemma In_set_same V k (v v' : V) o : get k o = Some v' -> In (k, v) (set k v o).
Proof.
  induction o as [|[k' v2] o IH]; simpl; [discriminate|].
  destruct (String.eqb_spec k k') as [->|Hne]; simpl; auto.
Qed.

Lemma forallb_false_In (P : task DAGNode -> bool) k v (children : obj (task DAGNode)) :
  In (k, v) children -> P v = false ->
  forallb (fun kv => P (snd kv)) children = false.
Proof.
  intros Hin Hv. destruct (forallb _ children) eqn:E; auto.
  rewrite forallb_forall in E. specialize (E _ Hin). simpl in E. congruence.
Qed.

(** A completion that raises no exception leaves the tasks live. *)
Lemma complete_live addr : forall here (t : task DAGNode) g t' g' sig,
  coherent t = true -> live t = true ->
  Complete addr here t g = Some (t', g', sig) ->
  (forall e, sig <> Threw e) -> live t' = true.
Proof.
  induction addr as [|k addr IH]; intros here t g t' g' sig Hc Hl H Hsg; simpl in H.
  - completeHere_cases H; apply live_parts in Hl; apply live_parts;
      destruct Hl as (Hd & _ & _ & Hf); repeat split; auto; discriminate.
  - destruct t as [|tp ph newObj children]; [discriminate|].
    destruct (get k children) as [child|] eqn:Hk; [|discriminate].
    destruct (Complete addr (here ++ [k]) child g) as [[[child' g1] sig1]|] eqn:E;
      [|discriminate].
    injection H as H.
    simpl in Hc. apply andb_true_iff in Hc. destruct Hc as [Ha Hcs].
    assert (Hcc : coherent child = true) by eauto using forallb_get.
    apply live_parts in Hl. destruct Hl as (Hd & Hw & Hnt & Hf).
    assert (Hlc : live child = true) by eauto using forallb_get.
    destruct (complete_coherent _ _ _ _ _ _ _ Hcc E) as (_ & _ & Hsig).
    assert (Hd' : distinct (keys (set k child' children)) = true)
      by (erewrite keys_set_present; eauto).
    assert (Hf' : (forall e, sig1 <> Threw e) ->
                  forallb (fun kv => live (snd kv)) (set k child' children) = true).
    { intros Hs1. apply forallb_set; auto. eapply IH; eauto. }
    join_cases H;
      try (exfalso; eapply Hsg; reflexivity);
      apply live_parts; repeat split; auto; try discriminate;
      try (apply Hf'; discriminate).
    intros _. destruct Hsig as [_ Hu].
    eapply forallb_false_In; [eapply In_set_same; eauto|exact Hu].
Qed.

Lemma forallb_false_exists (P : task DAGNode -> bool) (children : obj (task DAGNode)) :
  forallb (fun kv => P (snd kv)) children = false ->
  exists k v, In (k, v) children /\ P v = false.
Proof.
  induction children as [|[k v] children IH]; simpl; [discriminate|].
  destruct (P v) eqn:E; simpl.
  - intros H. destruct (IH H) as (k' & v' & Hin & Hv). eauto.
  - intros _. eauto.
Qed.

(** While a directory has neither resolved nor reported an error, some
    collaborator call of it or below it is pending. *)
Lemma complete_progress (t : task DAGNode) : forall here g,
  coherent t = true -> live t = true ->
  isResolved t = false -> broken t = false ->
  exists addr r, Complete addr here t g = Some r.
Proof.
  induction t as [c|p ph no children IH] using task_nested_ind;
    intros here g Hc Hl Hr Hb; [discriminate|].
  destruct ph; try discriminate.
  - apply live_parts in Hl. destruct Hl as (Hd & Hw & _ & Hf).
    destruct (forallb_false_exists _ _ (Hw eq_refl)) as (k & child & Hin & Hu).
    pose proof (In_get_distinct _ _ _ _ Hd Hin) as Hk.
    simpl in Hc. apply andb_true_iff in Hc. destruct Hc as [Ha Hcs].
    rewrite Forall_forall in IH. specialize (IH _ Hin). simpl in IH.
    destruct (IH (here ++ [k]) g) as (addr & [[child' g'] sig] & E);
      eauto using forallb_get.
    { pose proof (forallb_get (fun c => negb (broken c)) _ _ _ Ha Hk) as Hn.
      now apply negb_true_iff in Hn. }
    exists (k :: addr). simpl. rewrite Hk, E. eauto.
  - exists []. simpl. destruct (DAGNode_create links); eauto.
  - exists []. simpl. destruct (persist n (ipld g)) as [[e|[c n']] w']; eauto.
  - apply live_parts in Hl. destruct Hl as (_ & _ & Hnt & _).
    exfalso. now apply (Hnt e).
Qed.

Lemma list_sum_set k (v v' : task DAGNode) (children : obj (task DAGNode)) :
  get k children = Some v ->
  list_sum (map (fun kv => remaining (snd kv)) (set k v' children)) + remaining v =
  list_sum (map (fun kv => remaining (snd kv)) children) + remaining v'.
Proof.
  induction children as [|[k' v2] children IH]; simpl; [discriminate|].
  destruct (String.eqb k k') eqn:E; simpl.
  - intros [= ->]. lia.
  - intros H. specialize (IH H). lia.
Qed.

(** Every completion uses up one of the calls that remain. *)
Lemma complete_remaining addr : forall here (t : task DAGNode) g t' g' sig,
  Complete addr here t g = Some (t', g', sig) -> remaining t' < remaining t.
Proof.
  induction addr as [|k addr IH]; intros here t g t' g' sig H; simpl in H.
  - completeHere_cases H; simpl; lia.
  - destruct t as [|tp ph newObj children]; [discriminate|].
    destruct (get k children) as [child|] eqn:Hk; [|discriminate].
    destruct (Complete addr (here ++ [k]) child g) as [[[child' g1] sig1]|] eqn:E;
      [|discriminate].
    injection H as H. apply IH in E.
    pose proof (list_sum_set k child child' children Hk) as Hsum.
    join_cases H; simpl; lia.
Qed.

Lemma traverseNode_remaining sizeIndex n : forall p,
  remaining (@traverseNode DAGNode newCID sizeIndex p n) <= 2 * dirCount n.
Proof.
  induction n as [c|tree IH] using node_nested_ind; intros p; [simpl; lia|].
  destruct (traverseNode_dir sizeIndex p tree) as (ph & no & -> & Hph & _).
  assert (Hsum : list_sum (map (fun kv => remaining (snd kv))
                   (map (fun kv => (fst kv,
                      @traverseNode DAGNode newCID sizeIndex
                        (childPath p (fst kv)) (snd kv))) tree))
                 <= 2 * list_sum (map (fun kv => dirCount (snd kv)) tree)).
  { clear - IH. induction IH as [|[k n] tree Hn _ IHt]; simpl in *; [lia|].
    specialize (Hn (childPath p k)). lia. }
  change (dirCount (Dir tree))
    with (S (list_sum (map (fun kv => dirCount (snd kv)) tree))).
  destruct Hph as [->|[[links ->]|[e ->]]]; simpl remaining; simpl weight; lia.
Qed.

Lemma flushTree_spent files w :
  spent (Built (createTree toPathComponents files)) (FlushTree files w).
Proof.
  unfold flushTree, spent.
  destruct (Nat.ltb _ _); [exact I|].
  destruct (Nat.eqb _ _); [exact I|].
  cbv zeta. destruct (raised _); [exact I|].
  cbn [tasks glob trace seeded List.length]. unfold traverse.
  rewrite walked_Dir. apply traverseNode_remaining.
Qed.

Lemma step_spent tree addr (st st' : state W DAGNode) :
  spent tree st -> Step addr st = Some st' -> spent tree st'.
Proof.
  unfold spent. intros Ha H. apply step_inv in H.
  destruct H as (_ & t & t' & g' & sig & Ht & E & -> & <- & _).
  rewrite Ht in Ha.
  pose proof (complete_remaining _ _ _ _ _ _ _ E) as Hrem.
  apply complete_target in E.
  destruct E as (t0 & t0' & sig0 & E).
  apply completeHere_event in E. destruct E as (ev & -> & _).
  rewrite length_app. cbn [List.length]. lia.
Qed.

Lemma run_spent files w schedule :
  spent (Built (createTree toPathComponents files)) (Run schedule (FlushTree files w)).
Proof.
  apply run_invariant.
  - intros addr st st'. apply step_spent.
  - apply flushTree_spent.
Qed.


(** The own properties of an object have distinct names: the hypothesis
    on [fields] under which no child of a walked directory hides another. *)
Lemma flushTree_alive files w :
  (forall c, distinct (keys (fields c)) = true) -> alive (FlushTree files w).
Proof.
  intros fields_distinct. unfold flushTree, alive.
  destruct (Nat.ltb _ _); [simpl; left; discriminate|].
  destruct (Nat.eqb _ _); [simpl; left; discriminate|].
  cbv zeta. destruct (raised _) eqn:Hr; [simpl; right; discriminate|].
  cbn [tasks thrown]. intros _. unfold traverse in *.
  apply traverseNode_live; [|exact Hr].
  apply walked_uniqueKeys; [exact fields_distinct|].
  apply createTree_uniqueKeys.
Qed.

Lemma step_alive tree addr (st st' : state W DAGNode) :
  sound tree st -> alive st -> Step addr st = Some st' -> alive st'.
Proof.
  unfold sound, alive. intros Hs Ha H. apply step_inv in H.
  destruct H as (Hth & t & t' & g' & sig & Ht & E & Ht' & _ & _ & Hth').
  rewrite Ht in Hs, Ha. rewrite Ht'. intros Hnone.
  destruct Hs as (Hc & _).
  eapply complete_live; eauto.
  intros e ->. rewrite Hth' in Hnone. discriminate.
Qed.

Lemma run_alive files w schedule :
  (forall c, distinct (keys (fields c)) = true) ->
  sound (Built (createTree toPathComponents files)) (Run schedule (FlushTree files w)) /\
  alive (Run schedule (FlushTree files w)).
Proof.
  intros fields_distinct.
  apply (run_invariant
           (fun st => sound (Built (createTree toPathComponents files)) st /\ alive st)).
  - intros addr st st' [Hs Ha] Hstep. split.
    + eapply step_sound; eauto.
    + eapply step_alive; eauto.
  - split; [apply flushTree_sound|now apply flushTree_alive].
Qed.

Lemma alive_progress tree (st : state W DAGNode) :
  sound tree st -> alive st -> callback st = None -> thrown st = None ->
  exists addr st', Step addr st = Some st'.
Proof.
  unfold sound, alive, step. intros Hs Ha Hcb Hth. rewrite Hth.
  destruct (tasks st) as [t|]; [|destruct Ha; contradiction].
  destruct Hs as (Hc & _ & Hdir & _ & Hbrk & Hv & _). specialize (Ha Hth).
  rewrite Hcb in Hv. unfold verdict in Hv.
  destruct (firstFailure (trace (glob st))) eqn:Hff; [discriminate|].
  assert (Hb : broken t = false).
  { destruct (broken t); auto. exfalso. now apply (proj1 Hbrk). }
  assert (Hr : isResolved t = false).
  { assert (Hd : isDirTask (taskAt [] t)) by (apply Hdir; eexists; reflexivity).
    destruct t as [c|p [] no ch]; simpl in *; auto; try contradiction.
    discriminate. }
  destruct (complete_progress t [] (glob st) Hc Ha Hr Hb) as (addr & [[t' g'] sig] & E).
  exists addr. rewrite E. eauto.
Qed.

Lemma alive_terminates tree n : forall (st : state W DAGNode),
  sound tree st -> alive st ->
  match tasks st with Some t => remaining t | None => 0 end <= n ->
  exists more, callback (Run more st) <> None \/ thrown (Run more st) <> None.
Proof.
  induction n as [|n IH]; intros st Hs Ha Hn;
    (destruct (callback st) eqn:Hcb; [exists []; simpl; left; congruence|]);
    (destruct (thrown st) eqn:Hth; [exists []; simpl; right; congruence|]);
    destruct (alive_progress _ _ Hs Ha Hcb Hth) as (addr & st' & Hstep).
  - exfalso. apply step_inv in Hstep.
    destruct Hstep as (_ & t & t' & g' & sig & Ht & E & _).
    rewrite Ht in Hn. apply complete_remaining in E. lia.
  - destruct (IH st') as (more & Hmore).
    + eapply step_sound; eauto.
    + eapply step_alive; eauto.
    + pose proof Hstep as Hstep'. apply step_inv in Hstep'.
      destruct Hstep' as (_ & t & t' & g' & sig & Ht & E & -> & _).
      rewrite Ht in Hn. apply complete_remaining in E. lia.
    + exists (addr :: more). simpl. now rewrite Hstep.
Qed.



(** *** Success when nothing fails *)

Lemma step_no_failure addr (st st' : state W DAGNode) :
  (forall links, exists n, DAGNode_create links = inr n) ->
  (forall n w0, exists c n' w', persist n w0 = (inr (c, n'), w')) ->
  firstFailure (trace (glob st)) = None -> Step addr st = Some st' ->
  firstFailure (trace (glob st')) = None.
Proof.
  intros Hcreate Hpersist Hff H. apply step_inv in H.
  destruct H as (_ & t & t' & g' & sig & Ht & E & _ & <- & _).
  apply complete_target in E. destruct E as (t0 & t0' & sig0 & E).
  completeHere_cases E.
  - destruct (Hcreate links) as (n & Hn). congruence.
  - simpl. now rewrite firstFailure_snoc, Hff.
  - destruct (Hpersist n (ipld (glob st))) as (c & n' & w' & Hn). congruence.
  - destruct (truthy tp); [destruct tp|]; simpl;
      now rewrite firstFailure_snoc, Hff.
Qed.

Lemma run_not_thrown files w schedule :
  (forall v, exists b, newCID v = inr b) ->
  thrown (Run schedule (FlushTree files w)) = None.
Proof.
  intros Hnew.
  assert (Hno : forall e, ~ exists v, newCID v = inl e).
  { intros e (v & Hv). destruct (Hnew v) as (b & Hb). congruence. }
  apply (run_invariant (fun st => thrown st = None)).
  - intros addr st st' _ H. apply step_inv in H.
    destruct H as (_ & t & t' & g' & sig & _ & E & _ & _ & _ & ->).
    destruct sig as [|c|e|e]; auto.
    exfalso. apply (Hno e). eapply complete_threw; eauto.
  - unfold flushTree. destruct (Nat.ltb _ _); [reflexivity|].
    destruct (Nat.eqb _ _); [reflexivity|]. cbv zeta.
    destruct (raised _) as [e|] eqn:Hr; [|reflexivity].
    exfalso. apply (Hno e). unfold traverse in Hr.
    eapply traverseNode_raised; eauto.
Qed.


(** *** The links of a directory are its children *)

Lemma In_set_new V k (v : V) o : In (k, v) (set k v o).
Proof.
  induction o as [|[k' v'] o IH]; simpl; auto.
  destruct (String.eqb_spec k k') as [->|Hne]; simpl; auto.
Qed.

Lemma In_set_other V k (v : V) k' v' o :
  k' <> k -> In (k', v') o -> In (k', v') (set k v o).
Proof.
  intros Hne. induction o as [|[k2 v2] o IH]; simpl; [contradiction|].
  destruct (String.eqb_spec k k2) as [->|Hne2]; simpl.
  - intros [H|H]; auto. injection H as -> ->. contradiction.
  - intros [H|H]; auto.
Qed.

Lemma makeLinks_pairs (si : obj Z) (newObj : obj Cid) : forall links,
  makeLinks newCID si newObj = inr links ->
  map (fun l => (l.(name), l.(multihash))) links = newObj.
Proof.
  induction newObj as [|[k c] newObj IH]; simpl; intros links.
  - intros [= <-]. reflexivity.
  - destruct (newCID c); [discriminate|].
    destruct (makeLinks newCID si newObj) as [e|links']; [discriminate|].
    intros [= <-]. simpl. now rewrite (IH links').
Qed.

Lemma resultOf_resolved (t : task DAGNode) c :
  resultOf t = Some c -> isResolved t = true.
Proof. destruct t as [|p [] no ch]; simpl; auto; discriminate. Qed.

Lemma complete_leaves addr : forall here (t : task DAGNode) g t' g' sig,
  Complete addr here t g = Some (t', g', sig) ->
  forall a c, taskAt a t' = Some (TLeaf c) <-> taskAt a t = Some (TLeaf c).
Proof.
  induction addr as [|k addr IH]; intros here t g t' g' sig H a c; simpl in H.
  - destruct a as [|k a]; completeHere_cases H; simpl; split;
      auto; discriminate.
  - destruct t as [|tp ph newObj children]; [discriminate|].
    destruct (get k children) as [child|] eqn:Hk; [|discriminate].
    destruct (Complete addr (here ++ [k]) child g) as [[[child' g1] sig1]|] eqn:E;
      [|discriminate].
    injection H as H.
    assert (Hch : forall k2 a2,
              match get k2 (set k child' children) with
              | Some c2 => taskAt a2 c2
              | None => None
              end = Some (TLeaf c) <->
              taskAt (k2 :: a2) (TDir tp ph newObj children) = Some (TLeaf c)).
    { intros k2 a2. simpl. destruct (string_dec k2 k) as [->|Hne].
      - rewrite Hk, get_set_same. eapply IH; eauto.
      - rewrite get_set_other by assumption. tauto. }
    destruct a as [|k2 a2].
    + join_cases H; simpl; split; discriminate.
    + specialize (Hch k2 a2). join_cases H; simpl in *; exact Hch.
Qed.

Lemma linked_unresolved_child p ph no (children : obj (task DAGNode)) k child child' :
  linkedTask (Some (TDir p ph no children)) ->
  (match ph with Creating _ => False | Persisting _ _ => False | _ => True end) ->
  get k children = Some child -> isResolved child = false ->
  isResolved child' = false ->
  forall ph', (match ph' with Creating _ => False | Persisting _ _ => False | _ => True end) ->
  linkedTask (Some (TDir p ph' no (set k child' children))).
Proof.
  intros (Hd & H1 & H2 & _) _ Hk Hu Hu' ph' Hph'. simpl.
  split; [exact Hd|]. split; [|split].
  - intros k' c' Hin. destruct (H1 _ _ Hin) as (child0 & Hk0 & Hr0).
    destruct (string_dec k' k) as [->|Hne].
    + rewrite Hk in Hk0. injection Hk0 as <-.
      apply resultOf_resolved in Hr0. congruence.
    + exists child0. rewrite get_set_other by assumption. auto.
  - intros k' x c' Hx Hr. destruct (string_dec k' k) as [->|Hne].
    + rewrite get_set_same in Hx. injection Hx as <-.
      apply resultOf_resolved in Hr. congruence.
    + rewrite get_set_other in Hx by assumption. eauto.
  - destruct ph'; auto; contradiction.
Qed.

Lemma linked_resolved_child p ph no (children : obj (task DAGNode)) k child c pc noc chc :
  linkedTask (Some (TDir p ph no children)) ->
  get k children = Some child -> isResolved child = false ->
  forall ph',
    (match ph' with
     | Creating links => map (fun l => (l.(name), l.(multihash))) links = set k c no
     | Persisting _ _ => False
     | _ => True
     end) ->
  linkedTask (Some (TDir p ph' (set k c no)
                      (set k (TDir pc (Done c) noc chc) children))).
Proof.
  intros (Hd & H1 & H2 & _) Hk Hu ph' Hph'. simpl.
  split; [now apply distinct_set|]. split; [|split].
  - intros k' c' Hin. destruct (string_dec k' k) as [->|Hne].
    + rewrite get_set_same. eexists. split; [reflexivity|]. simpl.
      destruct (In_set _ _ _ _ _ _ Hin) as [Heq|Hin']; [congruence|].
      destruct (H1 _ _ Hin') as (child0 & Hk0 & Hr0).
      rewrite Hk in Hk0. injection Hk0 as <-.
      apply resultOf_resolved in Hr0. congruence.
    + rewrite get_set_other by assumption. apply H1.
      destruct (In_set _ _ _ _ _ _ Hin) as [Heq|Hin']; auto. congruence.
  - intros k' x c' Hx Hr. destruct (string_dec k' k) as [->|Hne].
    + rewrite get_set_same in Hx. injection Hx as <-. simpl in Hr.
      injection Hr as <-. apply In_set_new.
    + rewrite get_set_other in Hx by assumption.
      apply In_set_other; eauto.
  - destruct ph'; auto; contradiction.
Qed.

Lemma complete_linked addr : forall here (t : task DAGNode) g t' g' sig,
  coherent t = true ->
  (forall a, linkedTask (taskAt a t)) ->
  Complete addr here t g = Some (t', g', sig) ->
  forall a, linkedTask (taskAt a t').
Proof.
  induction addr as [|k addr IH]; intros here t g t' g' sig Hc Hl H; simpl in H.
  - intros [|k a].
    + pose proof (Hl []) as H0. simpl in H0.
      completeHere_cases H; simpl in *; tauto.
    + specialize (Hl (k :: a)). completeHere_cases H; exact Hl.
  - destruct t as [|tp ph newObj children]; [discriminate|].
    destruct (get k children) as [child|] eqn:Hk; [|discriminate].
    destruct (Complete addr (here ++ [k]) child g) as [[[child' g1] sig1]|] eqn:E;
      [|discriminate].
    injection H as H.
    simpl in Hc. apply andb_true_iff in Hc. destruct Hc as [Ha Hcs].
    assert (Hcc : coherent child = true) by eauto using forallb_get.
    destruct (complete_coherent _ _ _ _ _ _ _ Hcc E) as (_ & Hu & Hsig).
    assert (Hchild : forall a, linkedTask (taskAt a child)).
    { intros a. specialize (Hl (k :: a)). simpl in Hl. now rewrite Hk in Hl. }
    pose proof (IH _ _ _ _ _ _ Hcc Hchild E) as Hchild'.
    assert (Hph : ph = Waiting \/ ph = Aborted).
    { destruct ph; auto; simpl in Ha;
        rewrite (forallb_get _ _ _ _ Ha Hk) in Hu; discriminate. }
    pose proof (Hl []) as H0. simpl taskAt in H0.
    intros [|k2 a2].
    + simpl taskAt.
      destruct Hph as [-> | ->]; join_cases H;
        try (destruct Hsig as [(pc & noc & chc & ->) _];
             apply (linked_resolved_child _ _ _ _ _ _ _ _ _ _ H0 Hk Hu);
             simpl; eauto using makeLinks_pairs);
        try (destruct Hsig as [_ Hu'];
             apply (linked_unresolved_child _ _ _ _ _ _ child' H0 I Hk Hu Hu'); exact I);
        try (destruct Hsig as [_ Hb'];
             apply (linked_unresolved_child _ _ _ _ _ _ child' H0 I Hk Hu);
             [destruct (isResolved child') eqn:Er; auto;
              apply resolved_not_broken in Er; congruence|exact I]).
    + assert (Hsub : linkedTask (match get k2 (set k child' children) with
                                 | Some c2 => taskAt a2 c2
                                 | None => None
                                 end)).
      { destruct (string_dec k2 k) as [->|Hne].
        - rewrite get_set_same. apply Hchild'.
        - rewrite get_set_other by assumption. exact (Hl (k2 :: a2)). }
      join_cases H; simpl; exact Hsub.
Qed.

Lemma leafResults_fold_distinct tree : forall (acc : obj Cid),
  distinct (keys acc) = true ->
  distinct (keys (fold_left (fun newObj kv =>
                    match snd kv with
                    | Leaf c => set (fst kv) c newObj
                    | Dir _ => newObj
                    end) tree acc)) = true.
Proof.
  induction tree as [|[k n] tree IH]; intros acc Hacc; simpl; auto.
  apply IH. destruct n; auto. now apply distinct_set.
Qed.

Lemma leafResults_fold_complete tree k c : forall (acc : obj Cid),
  distinct (keys tree) = true ->
  In (k, Leaf c) tree \/ (In (k, c) acc /\ ~ In k (keys tree)) ->
  In (k, c) (fold_left (fun newObj kv =>
               match snd kv with
               | Leaf c => set (fst kv) c newObj
               | Dir _ => newObj
               end) tree acc).
Proof.
  induction tree as [|[k1 n1] tree IH]; intros acc Hd H.
  - simpl. destruct H as [[]|[H _]]. exact H.
  - simpl in Hd. apply andb_true_iff in Hd. destruct Hd as [Hk1 Hd].
    apply negb_true_iff in Hk1.
    assert (Hnot : ~ In k1 (keys tree)).
    { intros Hin. assert (existsb (String.eqb k1) (keys tree) = true); [|congruence].
      apply existsb_exists. exists k1. split; auto. apply String.eqb_refl. }
    simpl fold_left. apply IH; auto.
    destruct H as [[Heq|Hin]|[Hacc Hnk]].
    + injection Heq as -> ->. right. simpl. split; auto. apply In_set_new.
    + left. exact Hin.
    + right. simpl in Hnk. split; [|tauto].
      destruct n1 as [c1|d]; simpl; auto.
      apply In_set_other; auto.
Qed.

Lemma traverseNode_leaf sizeIndex p n c :
  @traverseNode DAGNode newCID sizeIndex p n = TLeaf c <-> n = Leaf c.
Proof.
  destruct n as [c'|tree].
  - simpl. split; congruence.
  - destruct (traverseNode_dir sizeIndex p tree) as (ph & no & -> & _).
    split; discriminate.
Qed.

Lemma traverseNode_linked sizeIndex p tree :
  uniqueKeys (Dir tree) = true ->
  linkedTask (Some (@traverseNode DAGNode newCID sizeIndex p (Dir tree))).
Proof.
  intros Hu. rewrite uniqueKeys_Dir, andb_true_iff in Hu. destruct Hu as [Hd _].
  destruct (traverseNode_dir_exact sizeIndex p tree) as (ph & ch & Heq & Hph).
  destruct (traverseNode_dir sizeIndex p tree) as (ph2 & no2 & Heq2 & _).
  rewrite Heq in Heq2. injection Heq2 as _ _ Hch. rewrite Heq. subst ch.
  cbn [linkedTask].
  split; [apply (leafResults_fold_distinct tree []); reflexivity|].
  split; [|split].
  - intros k c Hin. apply leafResults_In in Hin.
    pose proof (In_get_distinct _ _ _ _ Hd Hin) as Hk.
    rewrite (get_map_keyed _ _
               (fun key v => @traverseNode DAGNode newCID sizeIndex (childPath p key) v)), Hk.
    eexists. split; reflexivity.
  - intros k child c Hk Hr.
    rewrite (get_map_keyed _ _
               (fun key v => @traverseNode DAGNode newCID sizeIndex (childPath p key) v)) in Hk.
    destruct (get k tree) as [n|] eqn:Hkt; [|discriminate]. simpl in Hk.
    injection Hk as <-.
    pose proof (resultOf_resolved _ _ Hr) as Hres.
    rewrite traverseNode_resolved in Hres.
    destruct n as [c'|d]; [|discriminate]. simpl in Hr. injection Hr as ->.
    apply (leafResults_fold_complete tree k c []); auto.
    left. now apply get_In.
  - destruct Hph as [->| ->]; auto. unfold linked.
    destruct (makeLinks _ _ _) eqn:Hl; auto. eapply makeLinks_pairs; eauto.
Qed.

Lemma pairs_names (links : list DAGLink) :
  map name links = keys (map (fun l => (l.(name), l.(multihash))) links).
Proof. unfold keys. rewrite map_map. reflexivity. Qed.

Lemma In_keys V k (o : obj V) : In k (keys o) <-> exists v, In (k, v) o.
Proof.
  unfold keys. rewrite in_map_iff. split.
  - intros ([k' v] & <- & Hin). eauto.
  - intros (v & Hin). exists (k, v). auto.
Qed.

Lemma taskAt_child a k (t : task DAGNode) p ph no ch :
  taskAt a t = Some (TDir p ph no ch) -> taskAt (a ++ [k]) t = get k ch.
Proof.
  intros H. rewrite taskAt_app, H. simpl. destruct (get k ch); reflexivity.
Qed.

(** What the links built for a directory are, when they are built. *)
Lemma creating_linkFacts tree (t : task DAGNode) tr a p links no ch :
  coherent t = true -> logged t tr ->
  (forall d, isDirTask (taskAt d t) <-> isDirAt d tree) ->
  (forall d c, taskAt d t = Some (TLeaf c) <-> nodeAt d (Dir tree) = Some (Leaf c)) ->
  (forall d, linkedTask (taskAt d t)) ->
  taskAt a t = Some (TDir p (Creating links) no ch) ->
  linkFacts tree tr a links.
Proof.
  intros Hc Hlog Hdir Hleaf Hlinked Hat.
  pose proof (Hlinked a) as Hl. rewrite Hat in Hl.
  destruct Hl as (Hd & H1 & H2 & H3).
  pose proof (coherent_at _ _ _ Hc Hat) as Hca.
  simpl in Hca. apply andb_true_iff in Hca. destruct Hca as [Hres _].
  assert (Hchild : forall k child, get k ch = Some child ->
            (exists c, child = TLeaf c /\ nodeAt (a ++ [k]) (Dir tree) = Some (Leaf c)) \/
            (exists pc c noc chc entries sz,
               child = TDir pc (Done c) noc chc /\
               nodeAt (a ++ [k]) (Dir tree) = Some (Dir entries) /\
               In (Returned (a ++ [k]) (pathTo (a ++ [k])) (inr (c, sz))) tr)).
  { intros k child Hk.
    pose proof (taskAt_child a k t _ _ _ _ Hat) as Hak. rewrite Hk in Hak.
    pose proof (forallb_get _ _ _ _ Hres Hk) as Hr.
    destruct child as [c|pc phc noc chc].
    - left. exists c. split; auto. now apply Hleaf.
    - right. destruct phc; try discriminate.
      assert (Hdk : isDirAt (a ++ [k]) tree) by (apply Hdir; rewrite Hak; exact I).
      destruct Hdk as (entries & Hentries).
      pose proof (Hlog (a ++ [k])) as Hacc. rewrite Hak in Hacc. simpl in Hacc.
      destruct Hacc as [-> (links' & sz & Hev)].
      exists (pathTo (a ++ [k])), c, noc, chc, entries, sz. repeat split; auto.
      assert (Hin : In (Returned (a ++ [k]) (pathTo (a ++ [k])) (inr (c, sz)))
                      (eventsAt (a ++ [k]) tr)) by (rewrite Hev; simpl; auto).
      unfold eventsAt in Hin. now apply filter_In in Hin. }
  unfold linkFacts. rewrite pairs_names, H3. split; [|split].
  - now apply distinct_NoDup.
  - intros k. rewrite In_keys. split.
    + intros (c & Hin). destruct (H1 _ _ Hin) as (child & Hk & _).
      destruct (Hchild _ _ Hk) as [(c' & _ & ->)|(pc & c' & noc & chc & e & sz & _ & -> & _)];
        discriminate.
    + intros Hn.
      destruct (nodeAt (a ++ [k]) (Dir tree)) as [[c|entries]|] eqn:Hnode;
        [| |contradiction].
      * apply Hleaf in Hnode. rewrite (taskAt_child a k t _ _ _ _ Hat) in Hnode.
        exists c. eapply H2; eauto.
      * assert (Hdt : isDirTask (taskAt (a ++ [k]) t))
          by (apply Hdir; eexists; eauto).
        rewrite (taskAt_child a k t _ _ _ _ Hat) in Hdt.
        destruct (get k ch) as [child|] eqn:Hk; [|contradiction].
        destruct (Hchild _ _ Hk) as [(c' & -> & _)|(pc & c' & noc & chc & e & sz & -> & _)];
          [contradiction|].
        exists c'. eapply H2; eauto.
  - intros l Hin.
    assert (Hpair : In (name l, multihash l) no).
    { rewrite <- H3. apply in_map_iff. exists l. auto. }
    destruct (H1 _ _ Hpair) as (child & Hk & Hr).
    destruct (Hchild _ _ Hk)
      as [(c' & -> & ->)|(pc & c' & noc & chc & e & sz & -> & -> & Hret)];
      simpl in Hr; injection Hr as <-; eauto.
Qed.

Lemma completeHere_invoke_creating here (t0 : task DAGNode) g t0' g' sig0 a links :
  CompleteHere here t0 g = Some (t0', g', sig0) ->
  trace g' = trace g ++ [Invoke a links] ->
  a = here /\ exists p no ch, t0 = TDir p (Creating links) no ch.
Proof.
  intros H Htr.
  completeHere_cases H; simpl in Htr;
    try (destruct (truthy tp); [destruct tp|]; simpl in Htr);
    apply app_inv_head in Htr; try discriminate.
  all: injection Htr as <- <-; eauto.
Qed.

Lemma step_linked tree addr (st st' : state W DAGNode) t :
  sound tree st -> tasks st = Some t ->
  (forall d, linkedTask (taskAt d t)) ->
  (forall d c, taskAt d t = Some (TLeaf c) <-> nodeAt d (Dir tree) = Some (Leaf c)) ->
  (forall pre a links post, trace (glob st) = pre ++ Invoke a links :: post ->
     linkFacts tree pre a links) ->
  Step addr st = Some st' ->
  exists t', tasks st' = Some t' /\
    (forall d, linkedTask (taskAt d t')) /\
    (forall d c, taskAt d t' = Some (TLeaf c) <-> nodeAt d (Dir tree) = Some (Leaf c)) /\
    (forall pre a links post, trace (glob st') = pre ++ Invoke a links :: post ->
       linkFacts tree pre a links).
Proof.
  intros Hs Ht Hlinked Hleaf Hfacts H.
  unfold sound in Hs. rewrite Ht in Hs.
  destruct Hs as (Hc & Hlog & Hdir & _).
  apply step_inv in H.
  destruct H as (_ & t1 & t' & g' & sig & Ht1 & E & Ht' & <- & _).
  rewrite Ht in Ht1. injection Ht1 as <-. exists t'. split; auto.
  split; [eapply complete_linked; eauto|].
  split.
  { intros d c. rewrite (complete_leaves _ _ _ _ _ _ _ E d c). apply Hleaf. }
  destruct (complete_at _ _ _ _ _ _ _ E) as (t0 & t0' & sig0 & H0 & _ & Hh & _).
  destruct (completeHere_event _ _ _ _ _ _ Hh) as (ev & Htr & _).
  intros pre a links post Hdec. rewrite Htr in Hdec.
  destruct post as [|x post] using rev_ind.
  - apply app_inj_tail in Hdec. destruct Hdec as [<- ->].
    destruct (completeHere_invoke_creating _ _ _ _ _ _ _ _ Hh Htr)
      as [-> (p & no & ch & ->)].
    simpl in H0 |- *. eapply creating_linkFacts; eauto.
  - clear IHpost. rewrite app_comm_cons, app_assoc in Hdec.
    apply app_inj_tail in Hdec. destruct Hdec as [Hdec _].
    eapply Hfacts; eauto.
Qed.


End FlusherFacts.

(** ** Instances of the claims *)

(** Scenario A, with content ids that are instances of the CID class. *)
Lemma flushTree_flat_no_root_witness :
  let st := Demo.goCids [[]; ["a.txt"]] (Demo.flushCids Demo.scenarioA) in
  callback st = Some NoRoot /\ trace (glob st) = [] /\ source (glob st) = [].
Proof.
  apply (flushTree_flat_no_root nat Demo.DAGNode Demo.create Demo.nodeSize
           Demo.persist Demo.noBuffer Demo.cidFields Demo.cidNew splitSlash).
  simpl. intros f [<-|[]]. reflexivity.
Defined.



(** The entry [/a.txt], after the entry [foo/bar.txt]. *)
Lemma createTree_skips_single_component_witness :
  createTree splitSlash
    ([ {| path := "foo/bar.txt"; size := 10; cid := "X" |} ] ++
     {| path := "/a.txt"; size := 5; cid := "Z" |} :: [])
  = createTree splitSlash
      ([ {| path := "foo/bar.txt"; size := 10; cid := "X" |} ] ++ []).
Proof.
  apply (createTree_skips_single_component splitSlash
           [ {| path := "foo/bar.txt"; size := 10; cid := "X" |} ]
           {| path := "/a.txt"; size := 5; cid := "Z" |} []).
  - simpl. discriminate.
  - reflexivity.
Defined.

(** Scenario B with content ids that are instances of the CID class. *)
Lemma scenarioB_ids_walked_witness :
  let st := Demo.goCids [["foo"]; ["foo"]; []; []] (Demo.flushCids Demo.scenarioB) in
  isLeaf Demo.noBuffer (Leaf "X") = false /\
  thrown st <> None /\ callback st = None /\ tasks st = None /\
  trace (glob st) = [] /\ source (glob st) = [].
Proof.
  apply (scenarioB_ids_walked nat Demo.DAGNode Demo.create Demo.nodeSize
           Demo.persist Demo.noBuffer Demo.cidFields Demo.cidNew splitSlash
           "X" "Y" 0%nat [["foo"]; ["foo"]; []; []]
           "version" "1" "codec must be string").
  - reflexivity.
  - reflexivity.
  - reflexivity.
  - simpl. repeat constructor; simpl; intuition discriminate.
  - simpl. auto.
  - reflexivity.
Defined.


(** The store refuses [a/b] after the sibling [a/c] has completed and has
    been emitted. *)
Lemma persist_failure_reported_witness :
  exists e0,
    callback (Demo.goUnless "x.txt"
                ([["a"; "c"]; ["a"; "c"]; ["a"; "b"]] ++ ["a"; "b"] :: [["a"]; []])
                (Demo.flush Demo.siblings)) = Some (Failure e0) /\
    (callback (Demo.goUnless "x.txt" [["a"; "c"]; ["a"; "c"]; ["a"; "b"]]
                 (Demo.flush Demo.siblings)) = None -> e0 = "store failure") /\
    forall c,
      callback (Demo.goUnless "x.txt"
                  ([["a"; "c"]; ["a"; "c"]; ["a"; "b"]] ++ ["a"; "b"] :: [["a"]; []])
                  (Demo.flush Demo.siblings)) <> Some (Root c).
Proof.
  eapply (persist_failure_reported nat Demo.DAGNode Demo.create Demo.nodeSize
            (Demo.persistUnless "x.txt") Demo.allBuffers Demo.noFields Demo.sameString
            splitSlash Demo.siblings 0%nat
            [["a"; "c"]; ["a"; "c"]; ["a"; "b"]]).
  - reflexivity.
  - reflexivity.
  - reflexivity.
  - reflexivity.
Defined.






(** The store refuses [a/b]: one error in the sink, after the record of
    the sibling [a/c]. *)
Lemma failure_pushes_error_witness :
  exists st',
    step Demo.create Demo.nodeSize (Demo.persistUnless "x.txt") Demo.sameString
      ["a"; "b"]
      (Demo.goUnless "x.txt" [["a"; "c"]; ["a"; "c"]; ["a"; "b"]]
         (Demo.flush Demo.siblings)) = Some st' /\
    source (glob st') =
    source (glob (Demo.goUnless "x.txt" [["a"; "c"]; ["a"; "c"]; ["a"; "b"]]
                    (Demo.flush Demo.siblings)))
    ++ [SinkError "failed to store dirNode"] /\
    (exists e0, callback st' = Some (Failure e0)) /\
    forall more,
      let g := glob (Demo.goUnless "x.txt" more st') in
      filter isSinkError (source g) =
      map (fun _ => SinkError "failed to store dirNode") (filter isFailure (trace g)) /\
      In (Returned ["a"; "b"] (Some "a/b") (inl "store failure")) (trace g) /\
      (forall d, (List.length (filter isFailure (eventsAt d (trace g))) <= 1)%nat).
Proof.
  eapply (failure_pushes_error nat Demo.DAGNode Demo.create Demo.nodeSize
            (Demo.persistUnless "x.txt") Demo.allBuffers Demo.noFields Demo.sameString
            splitSlash Demo.siblings 0%nat
            [["a"; "c"]; ["a"; "c"]; ["a"; "b"]]).
  - reflexivity.
  - reflexivity.
  - reflexivity.
  - reflexivity.
Defined.

(** ** The accumulated path prefix *)

Lemma string_app_assoc (s1 s2 s3 : string) :
  ((s1 ++ s2) ++ s3)%string = (s1 ++ (s2 ++ s3))%string.
Proof. induction s1 as [|a s1 IH]; simpl; [reflexivity|now rewrite IH]. Qed.

Lemma string_app_nonempty (s1 s2 : string) : s1 <> "" -> (s1 ++ s2)%string <> "".
Proof. destruct s1; [contradiction|discriminate]. Qed.

Lemma fold_childPath_joined ks : forall s,
  s <> "" -> Forall (fun k => k <> "") ks ->
  fold_left childPath ks (Some s) = Some (String.concat "/" (s :: ks)).
Proof.
  induction ks as [|k ks IH]; intros s Hs Hks; [reflexivity|].
  inversion Hks as [|? ? Hk Hks']; subst.
  assert (Hc : childPath (Some s) k = Some (s ++ "/" ++ k)%string).
  { unfold childPath, truthy. destruct (String.eqb_spec s ""); [contradiction|].
    reflexivity. }
  change (fold_left childPath (k :: ks) (Some s))
    with (fold_left childPath ks (childPath (Some s) k)).
  rewrite Hc, IH; auto using string_app_nonempty.
  f_equal. destruct ks as [|k2 ks]; [reflexivity|].
  change (String.concat "/" ((s ++ "/" ++ k)%string :: k2 :: ks))
    with ((s ++ "/" ++ k) ++ "/" ++ String.concat "/" (k2 :: ks))%string.
  change (String.concat "/" (s :: k :: k2 :: ks))
    with (s ++ "/" ++ (k ++ "/" ++ String.concat "/" (k2 :: ks)))%string.
  now rewrite !string_app_assoc.
Qed.

(** X16: the path prefix accumulated down to a directory whose components
    are all non-empty is these components joined by [/]. *)
Theorem pathTo_joined addr :
  addr <> [] -> Forall (fun k => k <> "") addr ->
  pathTo addr = Some (String.concat "/" addr).
Proof.
  destruct addr as [|k ks]; [contradiction|]. intros _ H.
  inversion H; subst. unfold pathTo.
  change (fold_left childPath (k :: ks) None)
    with (fold_left childPath ks (Some k)).
  now apply fold_childPath_joined.
Qed.

Lemma pathTo_joined_witness : pathTo ["a"; "b"] = Some "a/b".
Proof.
  apply (pathTo_joined ["a"; "b"]).
  - discriminate.
  - repeat constructor; discriminate.
Defined.

(** ** Instances of the further properties *)

Lemma addFile_lookup_witness :
  nodeAt ["foo"; "bar.txt"]
    (Dir (addFile splitSlash [] {| path := "foo/bar.txt"; size := 10; cid := "X" |}))
  = Some (Leaf "X").
Proof.
  apply (addFile_lookup splitSlash []
           {| path := "foo/bar.txt"; size := 10; cid := "X" |}).
  - simpl. discriminate.
  - simpl. discriminate.
  - reflexivity.
Defined.

Lemma addFile_frame_witness :
  nodeAt (["a"] ++ "x" :: [])
    (Dir (addFile splitSlash [("a", Dir [("x", Leaf "X")])]
            {| path := "a/y"; size := 1; cid := "Y" |}))
  = nodeAt (["a"] ++ "x" :: []) (Dir [("a", Dir [("x", Leaf "X")])]).
Proof.
  apply (addFile_frame splitSlash [("a", Dir [("x", Leaf "X")])]
           {| path := "a/y"; size := 1; cid := "Y" |} ["a"] "x" "y" [] []).
  - reflexivity.
  - discriminate.
Defined.

Lemma createTree_leaves_carried_witness :
  exists f, In f Demo.scenarioB /\ f.(cid) = "X".
Proof.
  apply (createTree_leaves_carried splitSlash Demo.scenarioB ["foo"; "bar.txt"] "X").
  reflexivity.
Defined.

Lemma createTree_top_level_keys_witness :
  exists f, In f Demo.scenarioB /\
            List.length (splitSlash f.(path)) <> 1%nat /\
            topLevel splitSlash f = Some "foo".
Proof.
  apply (createTree_top_level_keys splitSlash Demo.scenarioB "foo").
  reflexivity.
Defined.

Lemma createTree_single_root_witness :
  keys (createTree splitSlash Demo.scenarioB) = ["foo"].
Proof.
  apply (createTree_single_root splitSlash Demo.scenarioB "foo"
           {| path := "foo/bar.txt"; size := 10; cid := "X" |}).
  - reflexivity.
  - simpl. auto.
  - unfold nested. simpl. lia.
  - intros f [<-|[<-|[]]] _; reflexivity.
Defined.

Lemma createTree_names_unique_witness : NoDup ["bar.txt"; "baz.txt"].
Proof.
  apply (createTree_names_unique splitSlash Demo.scenarioB ["foo"]
           [("bar.txt", Leaf "X"); ("baz.txt", Leaf "Y")]).
  reflexivity.
Defined.

Lemma callback_final_witness :
  callback (Demo.go ([["a"; "b"]; ["a"; "b"]; ["a"]; ["a"]; []; []] ++ [[]; ["a"]])
              (Demo.flush Demo.scenarioC))
  = Some (Root "dir(a:dir(b:dir(c.txt:X)))").
Proof.
  apply (callback_final nat Demo.DAGNode Demo.create Demo.nodeSize Demo.persist
           Demo.allBuffers Demo.noFields Demo.sameString
           splitSlash Demo.scenarioC 0%nat
           [["a"; "b"]; ["a"; "b"]; ["a"]; ["a"]; []; []] [[]; ["a"]]).
  reflexivity.
Defined.

Lemma quiescent_after_root_witness :
  Demo.go ([["a"; "b"]; ["a"; "b"]; ["a"]; ["a"]; []; []] ++ [[]; ["a"]])
    (Demo.flush Demo.scenarioC)
  = Demo.go [["a"; "b"]; ["a"; "b"]; ["a"]; ["a"]; []; []]
      (Demo.flush Demo.scenarioC).
Proof.
  apply (quiescent_after_root nat Demo.DAGNode Demo.create Demo.nodeSize Demo.persist
           Demo.allBuffers Demo.noFields Demo.sameString
           splitSlash Demo.scenarioC 0%nat
           [["a"; "b"]; ["a"; "b"]; ["a"]; ["a"]; []; []] [[]; ["a"]]
           "dir(a:dir(b:dir(c.txt:X)))").
  reflexivity.
Defined.



Lemma failure_blocks_ancestors_witness :
  eventsAt ["a"]
    (trace (glob (Demo.goUnless "x.txt"
                    [["a"; "c"]; ["a"; "c"]; ["a"; "b"]; ["a"; "b"]; ["a"]; []]
                    (Demo.flush Demo.siblings)))) = [].
Proof.
  apply (failure_blocks_ancestors nat Demo.DAGNode Demo.create Demo.nodeSize
           (Demo.persistUnless "x.txt") Demo.allBuffers Demo.noFields Demo.sameString
           splitSlash Demo.siblings 0%nat
           [["a"; "c"]; ["a"; "c"]; ["a"; "b"]; ["a"; "b"]; ["a"]; []]
           (Returned ["a"; "b"] (Some "a/b") (inl "store failure")) ["a"] ["b"]).
  - vm_compute. auto.
  - reflexivity.
  - reflexivity.
  - discriminate.
Defined.


Lemma sizeIndex_grows_witness :
  has "X" (sizeIndex (glob (Demo.go ([] ++ [["a"; "b"]; ["a"; "b"]])
                              (Demo.flush Demo.scenarioC)))) = true.
Proof.
  apply (sizeIndex_grows nat Demo.DAGNode Demo.create Demo.nodeSize Demo.persist
           Demo.allBuffers Demo.noFields Demo.sameString
           splitSlash Demo.scenarioC 0%nat [] [["a"; "b"]; ["a"; "b"]] "X").
  reflexivity.
Defined.


(** Scenario B with instances of the CID class, whatever is scheduled. *)
Lemma refused_ids_never_flushed_witness :
  let st := Demo.goCids [["foo"]; ["foo"]; []; []] (Demo.flushCids Demo.scenarioB) in
  tasks st = None /\ trace (glob st) = [] /\ source (glob st) = [] /\
  (forall c, callback st <> Some (Root c)) /\
  (List.length (keys (createTree splitSlash Demo.scenarioB)) = 1%nat ->
   callback st = None /\ thrown st <> None).
Proof.
  apply (refused_ids_never_flushed nat Demo.DAGNode Demo.create Demo.nodeSize
           Demo.persist Demo.noBuffer Demo.cidFields Demo.cidNew
           splitSlash Demo.scenarioB 0%nat [["foo"]; ["foo"]; []; []]).
  - reflexivity.
  - intros f [<-|[<-|[]]]; reflexivity.
Defined.





